(** * Enhancement pipeline of the voice/text assistant backend

    A shallow embedding of the slow-path enhancement pipeline
    (python-backend): the incremental decision parser
    ([streaming_parser.py]), the inter-stage queues ([app/queues.py]),
    the conversation store ([app/chat_history_manager.py]), the
    tool-invocation decision loop ([agent/enhanced_mcp_client_agent.py])
    and the worker loop with its narration fan-out
    ([app/vis_processor.py]).  Further parts embed the reading and
    removing of threads in the conversation store, the generator around
    the parser, the narration path to the voice agents
    ([agent/voice_based_interaction_agent.py]), the placeholders and
    the tool calls of the MCP client, and the text route
    ([app/routes/chat.py]).

    Python [str] values are sequences of Unicode code points and are
    modelled as [list N]; a dictionary keyed by thread id is a stdpp
    [gmap]; exceptions are explicit results. *)

From Stdlib Require Import ZArith NArith List Bool Lia String Ascii.
From stdpp Require Import gmap.
Import ListNotations.

Set Default Proof Using "Type*".

(* ===================================================================== *)
(** * Python strings *)
(* ===================================================================== *)

Module PyStr.

(** A Python [str]: the list of its code points. *)
Definition pystr := list N.

(** A literal, written as a Rocq string (one code point per byte). *)
Definition cp (s : string) : pystr := List.map N_of_ascii (list_ascii_of_string s).

Definition dq : N := 34.         (* the double quote *)
Definition backslash : N := 92.
Definition colon : N := 58.
Definition rbrace : N := 125.
Definition newline : N := 10.
Definition backtick : N := 96.
Definition space : N := 32.

(** [str.isspace] on one code point; it is also the class [\s] of a
    [str] pattern in [re]. *)
Definition is_space (c : N) : bool :=
  ((9 <=? c) && (c <=? 13) || (28 <=? c) && (c <=? 32) || (c =? 133) || (c =? 160)
   || (c =? 5760) || (8192 <=? c) && (c <=? 8202) || (c =? 8232) || (c =? 8233)
   || (c =? 8239) || (c =? 8287) || (c =? 12288))%N.

Fixpoint drop_while (f : N -> bool) (s : pystr) : pystr :=
  match s with
  | [] => []
  | c :: t => if f c then drop_while f t else s
  end.

Fixpoint take_while (f : N -> bool) (s : pystr) : pystr :=
  match s with
  | [] => []
  | c :: t => if f c then c :: take_while f t else []
  end.

(** [s.lstrip()], [s.rstrip()], [s.strip()] with no argument. *)
Definition lstrip (s : pystr) : pystr := drop_while is_space s.
Definition rstrip (s : pystr) : pystr := rev (drop_while is_space (rev s)).
Definition strip (s : pystr) : pystr := rstrip (lstrip s).

(** [s.split()] with no argument: the maximal runs of non-space code
    points.  [cur] is the run being read, reversed. *)
Fixpoint split_aux (cur : pystr) (s : pystr) : list pystr :=
  match s with
  | [] => match cur with [] => [] | _ => [rev cur] end
  | c :: t =>
      if is_space c
      then match cur with [] => split_aux [] t | _ => rev cur :: split_aux [] t end
      else split_aux (c :: cur) t
  end.

Definition split (s : pystr) : list pystr := split_aux [] s.

(** [s.endswith(chr(c))]. *)
Definition endswith_char (c : N) (s : pystr) : bool :=
  match rev s with
  | d :: _ => (d =? c)%N
  | [] => false
  end.

(** [s.startswith(p)], returning what follows the prefix. *)
Fixpoint strip_prefix (p s : pystr) : option pystr :=
  match p with
  | [] => Some s
  | a :: p' =>
      match s with
      | [] => None
      | b :: s' => if (a =? b)%N then strip_prefix p' s' else None
      end
  end.

(** [s.lower()] on the ASCII letters.  Its only consumer is the JSON
    decoder, whose tokens outside string literals are ASCII, and no
    code point outside ASCII lowers to a letter of such a token. *)
Definition lower_char (c : N) : N :=
  if ((65 <=? c) && (c <=? 90))%N then (c + 32)%N else c.
Definition lower (s : pystr) : pystr := List.map lower_char s.

(** Truth value of a [str]: non-empty. *)
Definition truthy (s : pystr) : bool :=
  match s with [] => false | _ => true end.

End PyStr.

(* ===================================================================== *)
(** * The JSON string decoder used on every delta *)
(* ===================================================================== *)

Module Json.
Import PyStr.

Definition hex_digit (c : N) : option N :=
  if ((48 <=? c) && (c <=? 57))%N then Some (c - 48)%N
  else if ((97 <=? c) && (c <=? 102))%N then Some (c - 87)%N
  else if ((65 <=? c) && (c <=? 70))%N then Some (c - 55)%N
  else None.

(** The four hexadecimal digits of a [\uXXXX] escape. *)
Definition decode_uXXXX (s : pystr) : option (N * pystr) :=
  match s with
  | a :: b :: c :: d :: t =>
      match hex_digit a, hex_digit b, hex_digit c, hex_digit d with
      | Some x, Some y, Some z, Some w => Some ((((x * 16 + y) * 16 + z) * 16 + w)%N, t)
      | _, _, _, _ => None
      end
  | _ => None
  end.

(** The table [BACKSLASH] of the decoder. *)
Definition simple_escape (e : N) : option N :=
  if (e =? 34)%N then Some 34%N            (* quote *)
  else if (e =? 92)%N then Some 92%N       (* backslash *)
  else if (e =? 47)%N then Some 47%N       (* slash *)
  else if (e =? 98)%N then Some 8%N        (* b *)
  else if (e =? 102)%N then Some 12%N      (* f *)
  else if (e =? 110)%N then Some 10%N      (* n *)
  else if (e =? 114)%N then Some 13%N      (* r *)
  else if (e =? 116)%N then Some 9%N       (* t *)
  else None.

Definition is_high_surrogate (u : N) : bool := ((55296 <=? u) && (u <=? 56319))%N.
Definition is_low_surrogate (u : N) : bool := ((56320 <=? u) && (u <=? 57343))%N.
Definition join_surrogates (u u2 : N) : N :=
  (65536 + ((u - 55296) * 1024 + (u2 - 56320)))%N.

(** [scanstring], strict mode, started after the opening quote: the
    decoded text and what follows the closing quote; [None] is
    [JSONDecodeError].  Every round consumes a code point, so the length
    of the input is enough fuel. *)
Fixpoint scanstring (fuel : nat) (s acc : pystr) : option (pystr * pystr) :=
  match fuel with
  | O => None
  | S fuel' =>
      match s with
      | [] => None                                   (* unterminated *)
      | c :: t =>
          if (c =? dq)%N then Some (rev acc, t)
          else if (c =? backslash)%N then
            match t with
            | [] => None
            | e :: t' =>
                if (e =? 117)%N then                 (* u *)
                  match decode_uXXXX t' with
                  | None => None
                  | Some (uni, t2) =>
                      if is_high_surrogate uni then
                        match t2 with
                        | b1 :: u1 :: t3 =>
                            if ((b1 =? backslash) && (u1 =? 117))%N then
                              match decode_uXXXX t3 with
                              | None => None
                              | Some (uni2, t4) =>
                                  if is_low_surrogate uni2
                                  then scanstring fuel' t4 (join_surrogates uni uni2 :: acc)
                                  else scanstring fuel' t2 (uni :: acc)
                              end
                            else scanstring fuel' t2 (uni :: acc)
                        | _ => scanstring fuel' t2 (uni :: acc)
                        end
                      else scanstring fuel' t2 (uni :: acc)
                  end
                else
                  match simple_escape e with
                  | None => None                     (* invalid escape *)
                  | Some ch => scanstring fuel' t' (ch :: acc)
                  end
            end
          else if (c <? 32)%N then None              (* control character *)
          else scanstring fuel' t (c :: acc)
      end
  end.

Definition json_ws (c : N) : bool :=
  ((c =? 32) || (c =? 9) || (c =? 10) || (c =? 13))%N.

(** [json.loads] on the delta put between two quotes: the document is
    one string literal; anything but white space after its closing
    quote is an error. *)
Definition loads_quoted (content : pystr) : option pystr :=
  match scanstring (S (length content)) (content ++ [dq]) [] with
  | Some (v, rest) => if forallb json_ws rest then Some v else None
  | None => None
  end.

End Json.

(* ===================================================================== *)
(** * Results of calls that may raise *)
(* ===================================================================== *)

Module Py.

(** The exception classes the pipeline distinguishes.
    [JSONDecodeError] and [ValidationError] are subclasses of
    [ValueError]; [CancelledError] is not a subclass of [Exception]. *)
Inductive exn :=
| JSONDecodeError
| ValidationError
| RuntimeError
| TimeoutError
| KeyError
| OtherException
| CancelledError.

(** [except ValueError] *)
Definition is_ValueError (e : exn) : bool :=
  match e with JSONDecodeError | ValidationError => true | _ => false end.

(** [except Exception] *)
Definition is_Exception (e : exn) : bool :=
  match e with CancelledError => false | _ => true end.

Inductive result (A : Type) :=
| Returned (a : A)
| Raised (e : exn).
Arguments Returned {A} a.
Arguments Raised {A} e.

End Py.

(* ===================================================================== *)
(** * schemas.py *)
(* ===================================================================== *)

Module Schemas.
Import PyStr.

Record EnhancementDecision := {
  displayEnhancement : bool;
  displayEnhancedText : pystr;
  voiceOverText : option pystr
}.

End Schemas.

(* ===================================================================== *)
(** * streaming_parser.py *)
(* ===================================================================== *)

Module StreamingParser.
Import PyStr Py Schemas.

(** A value decoded from JSON, as far as the parser observes it: [None],
    a boolean, or any other value; for the last, [as_bool] is what the
    boolean field of the decision model makes of it (no value: the
    validation fails). *)
Inductive pyval :=
| PyNone
| PyBool (b : bool)
| PyOther (as_bool : option bool).

(** [v is False] *)
Definition is_False (v : pyval) : bool :=
  match v with PyBool false => true | _ => false end.

Inductive chunk_type := Voiceover | Display | Metadata.

Record StreamingChunk := {
  content : pystr;
  kind : chunk_type;
  is_complete : bool
}.

Inductive field := DisplayEnhancement | DisplayEnhancedText | VoiceOverText.

Definition field_name (f : field) : pystr :=
  match f with
  | DisplayEnhancement => cp "displayEnhancement"
  | DisplayEnhancedText => cp "displayEnhancedText"
  | VoiceOverText => cp "voiceOverText"
  end.

(** The dictionary [field_buffers]: it has the three keys from
    construction on. *)
Record buffers := {
  fb_displayEnhancement : pystr;
  fb_displayEnhancedText : pystr;
  fb_voiceOverText : pystr
}.

Definition fb_get (b : buffers) (f : field) : pystr :=
  match f with
  | DisplayEnhancement => fb_displayEnhancement b
  | DisplayEnhancedText => fb_displayEnhancedText b
  | VoiceOverText => fb_voiceOverText b
  end.

Definition fb_set (b : buffers) (f : field) (v : pystr) : buffers :=
  match f with
  | DisplayEnhancement =>
      {| fb_displayEnhancement := v;
         fb_displayEnhancedText := fb_displayEnhancedText b;
         fb_voiceOverText := fb_voiceOverText b |}
  | DisplayEnhancedText =>
      {| fb_displayEnhancement := fb_displayEnhancement b;
         fb_displayEnhancedText := v;
         fb_voiceOverText := fb_voiceOverText b |}
  | VoiceOverText =>
      {| fb_displayEnhancement := fb_displayEnhancement b;
         fb_displayEnhancedText := fb_displayEnhancedText b;
         fb_voiceOverText := v |}
  end.

(** The state of an [EnhancementStreamingParser].  [has_callback] says
    whether [voice_injection_callback] is set.  The attributes
    [current_field], [voice_buffer], [display_buffer] and
    [parsing_state] are written and never read; they are left out. *)
Record parser := {
  has_callback : bool;
  buffer : pystr;
  enhancement_flag : pyval;
  field_buffers : buffers;
  voice_disabled : bool
}.

(** [__init__] *)
Definition init (callback : bool) : parser :=
  {| has_callback := callback;
     buffer := [];
     enhancement_flag := PyNone;
     field_buffers := {| fb_displayEnhancement := [];
                         fb_displayEnhancedText := [];
                         fb_voiceOverText := [] |};
     voice_disabled := false |}.

(** [reset()]: the buffer, the flag and the field buffers; the callback
    and [voice_disabled] stay. *)
Definition reset (p : parser) : parser :=
  {| has_callback := has_callback p;
     buffer := [];
     enhancement_flag := PyNone;
     field_buffers := {| fb_displayEnhancement := [];
                         fb_displayEnhancedText := [];
                         fb_voiceOverText := [] |};
     voice_disabled := voice_disabled p |}.

(** ** The field pattern

    The pattern is: the field name between quotes, [\s*], a colon,
    [\s*], an opening quote, group 1 (a run of non-quotes followed by
    any number of escaped pairs, each with its own run of non-quotes)
    and an optional closing quote.  [match_header] is the part before
    group 1 at one position.  White space is neither a colon nor a
    quote, so giving some of it back never helps. *)
Definition match_header (name s : pystr) : option pystr :=
  match strip_prefix (dq :: name ++ [dq]) s with
  | None => None
  | Some s1 =>
      match drop_while is_space s1 with
      | c :: s2 =>
          if (c =? colon)%N then
            match drop_while is_space s2 with
            | q :: s3 => if (q =? dq)%N then Some s3 else None
            | [] => None
            end
          else None
      | [] => None
      end
  end.

Definition not_dq (c : N) : bool := negb (c =? dq)%N.

(** Group 1.  The greedy run of non-quotes goes to the next quote or to
    the end; there an escaped pair cannot start (it starts with a
    backslash), and what remains of the pattern is optional, so this
    first attempt is the match. *)
Definition group1 (after_quote : pystr) : pystr := take_while not_dq after_quote.

(** The leftmost position where the pattern matches: what follows the
    opening quote there. *)
Fixpoint search_header (name s : pystr) : option pystr :=
  match match_header name s with
  | Some r => Some r
  | None =>
      match s with
      | [] => None
      | _ :: t => search_header name t
      end
  end.

(** [re.search(field_pattern, buffer)]; the result is [match.group(1)]. *)
Definition re_search (name s : pystr) : option pystr :=
  option_map group1 (search_header name s).

(** The delta after JSON unescaping, or the raw delta when that
    raises. *)
Definition unescape_or_raw (new_content : pystr) : pystr :=
  match Json.loads_quoted new_content with
  | Some v => v
  | None => new_content
  end.

(** [_extract_streaming_field_content(field_name, chunk)]; the chunk is
    not used. *)
Definition _extract_streaming_field_content (f : field) (p : parser)
  : parser * option pystr :=
  match re_search (field_name f) (buffer p) with
  | Some current_content =>
      let previous_content := fb_get (field_buffers p) f in
      if (length previous_content <? length current_content)%nat then
        let new_content := drop (length previous_content) current_content in
        ({| has_callback := has_callback p;
            buffer := buffer p;
            enhancement_flag := enhancement_flag p;
            field_buffers := fb_set (field_buffers p) f current_content;
            voice_disabled := voice_disabled p |},
         Some (unescape_or_raw new_content))
      else (p, None)
  | None => (p, None)
  end.

(** Truth value of an [Optional[str]]. *)
Definition truthy_opt (o : option pystr) : bool :=
  match o with Some s => truthy s | None => false end.

(** The calls of [voice_injection_callback] in the word loop, each with
    a word followed by one space. *)
Definition injected_words (callback : bool) (voice_match : pystr) : list pystr :=
  if callback
  then List.map (fun word => word ++ [space])
                (List.filter (fun word => truthy (strip word)) (split voice_match))
  else [].

Definition set_flag (p : parser) (v : pyval) : parser :=
  {| has_callback := has_callback p;
     buffer := buffer p;
     enhancement_flag := v;
     field_buffers := field_buffers p;
     voice_disabled := voice_disabled p |}.

Definition disable_voice (p : parser) : parser :=
  {| has_callback := has_callback p;
     buffer := buffer p;
     enhancement_flag := enhancement_flag p;
     field_buffers := field_buffers p;
     voice_disabled := true |}.

Definition append_buffer (p : parser) (chunk : pystr) : parser :=
  {| has_callback := has_callback p;
     buffer := buffer p ++ chunk;
     enhancement_flag := enhancement_flag p;
     field_buffers := field_buffers p;
     voice_disabled := voice_disabled p |}.

(** What one call of [process_chunk] does: the new state, the value
    returned and the texts handed to the callback, in order. *)
Record step_result := {
  next : parser;
  returned : option StreamingChunk;
  injected : list pystr
}.

Section WithLibrary.

(** [json.loads] on the text of the flag; no value: [JSONDecodeError]. *)
Variable json_loads : pystr -> option pyval.

(** Decoding of the cleaned whole buffer: [json.loads] followed by the
    validation of the parsed object by the [EnhancementDecision]
    constructor. *)
Variable decode_decision : pystr -> result EnhancementDecision.

Definition mk_chunk (c : pystr) (k : chunk_type) : StreamingChunk :=
  {| content := c; kind := k; is_complete := false |}.

(** The display-text part of [_extract_field_content]. *)
Definition extract_display (p : parser) : step_result :=
  let '(p3, display_match) := _extract_streaming_field_content DisplayEnhancedText p in
  if truthy_opt display_match
  then {| next := p3;
          returned := Some (mk_chunk (default [] display_match) Display);
          injected := [] |}
  else {| next := p3; returned := None; injected := [] |}.

(** The flag part of [_extract_field_content], and what follows it. *)
Definition extract_enhancement (p1 : parser) : step_result :=
  let '(p2, enhancement_match) := _extract_streaming_field_content DisplayEnhancement p1 in
  if truthy_opt enhancement_match then
    match json_loads (lower (default [] enhancement_match)) with
    | Some v =>
        {| next := set_flag p2 v;
           returned := Some (mk_chunk (default [] enhancement_match) Metadata);
           injected := [] |}
    | None =>
        extract_display
          (if is_False (enhancement_flag p2) then disable_voice p2 else p2)
    end
  else extract_display p2.

(** [_extract_field_content(chunk)] *)
Definition _extract_field_content (p : parser) : step_result :=
  let '(p1, voice_match) := _extract_streaming_field_content VoiceOverText p in
  if truthy_opt voice_match && negb (voice_disabled p1) then
    {| next := p1;
       returned := Some (mk_chunk (default [] voice_match) Voiceover);
       injected := injected_words (has_callback p1) (default [] voice_match) |}
  else extract_enhancement p1.

(** [process_chunk(chunk)] *)
Definition process_chunk (p : parser) (chunk : pystr) : step_result :=
  if truthy chunk
  then _extract_field_content (append_buffer p chunk)
  else {| next := p; returned := None; injected := [] |}.

(** ** [finalize] *)

Definition fence : pystr := [backtick; backtick; backtick].

Definition at_eol (s : pystr) : bool :=
  match s with [] => true | c :: _ => (c =? newline)%N end.

(** First alternative of the clean-up pattern, at a line start: the
    fence, then [json] and a newline when they are there.  The second
    component says whether the text consumed ends with a newline. *)
Definition match_open_fence (s : pystr) : option (pystr * bool) :=
  match strip_prefix fence s with
  | None => None
  | Some r =>
      let r1 := match strip_prefix (cp "json") r with Some r' => r' | None => r end in
      match r1 with
      | c :: r2 => if (c =? newline)%N then Some (r2, true) else Some (r1, false)
      | [] => Some (r1, false)
      end
  end.

(** Second alternative: a newline when there is one, the fence, and the
    end of a line. *)
Definition match_close_fence (s : pystr) : option pystr :=
  let fence_eol (s0 : pystr) :=
    match strip_prefix fence s0 with
    | Some r => if at_eol r then Some r else None
    | None => None
    end in
  match s with
  | c :: t => if (c =? newline)%N then fence_eol t else fence_eol s
  | [] => None
  end.

(** [re.sub] of the clean-up pattern by the empty string, with
    [re.MULTILINE]; [bol] says whether the position is at the start of
    a line. *)
Fixpoint sub_fences (fuel : nat) (bol : bool) (s : pystr) : pystr :=
  match fuel with
  | O => s
  | S fuel' =>
      match s with
      | [] => []
      | c :: t =>
          match (if bol then match_open_fence s else None) with
          | Some (r, b) => sub_fences fuel' b r
          | None =>
              match match_close_fence s with
              | Some r => sub_fences fuel' false r
              | None => c :: sub_fences fuel' (c =? newline)%N t
              end
          end
      end
  end.

Definition clean_fences (s : pystr) : pystr := sub_fences (length s) true s.

(** The fallback decision built from the captured values; no value when
    its validation fails. *)
Definition fallback_decision (p : parser) : option EnhancementDecision :=
  let flag :=
    match enhancement_flag p with
    | PyNone => Some false
    | PyBool b => Some b
    | PyOther v => v
    end in
  match flag with
  | Some b =>
      Some {| displayEnhancement := b;
              displayEnhancedText := fb_get (field_buffers p) DisplayEnhancedText;
              voiceOverText := Some (fb_get (field_buffers p) VoiceOverText) |}
  | None => None
  end.

(** [finalize()]: [Returned None] is the final [return None]. *)
Definition finalize (p : parser) : result (option EnhancementDecision) :=
  if endswith_char rbrace (strip (buffer p)) then
    match decode_decision (clean_fences (strip (buffer p))) with
    | Returned decision => Returned (Some decision)
    | Raised e =>
        if is_ValueError e
        then Returned (fallback_decision p)
        else Raised e
    end
  else Returned None.

(** Feeding the fragments of a stream in order. *)
Fixpoint process_chunks (p : parser) (chunks : list pystr) : parser * list step_result :=
  match chunks with
  | [] => (p, [])
  | c :: rest =>
      let r := process_chunk p c in
      let '(p', rs) := process_chunks (next r) rest in
      (p', r :: rs)
  end.

End WithLibrary.

(** The narration deltas returned over a run, in emission order. *)
Definition narration_deltas (rs : list step_result) : list pystr :=
  List.concat
    (List.map (fun r =>
       match returned r with
       | Some c => match kind c with Voiceover => [content c] | _ => [] end
       | None => []
       end) rs).

(** Every text handed to the voice callback over a run, in order. *)
Definition narration_injected (rs : list step_result) : list pystr :=
  List.concat (List.map injected rs).

End StreamingParser.

(* ===================================================================== *)
(** * app/queues.py *)
(* ===================================================================== *)

Module Queues.
Import PyStr Py.

(** An identifier: the [n]-th [uuid.uuid4()] drawn, or a given text. *)
Inductive ident :=
| Uuid4 (n : nat)
| Ident (s : pystr).

(** The UI payload carried by a response, before [json.dumps] and the
    [<content>] wrapper. *)
Inductive payload :=
| SimpleCard (textMarkdown : pystr)
| Callout (variant title description : pystr)
| Markup (text : pystr).

(** Messages for the frontend, one constructor per message type. *)
Inductive message :=
| UserTranscription (id : ident) (content : pystr)
| ChatToken (id : ident) (content : pystr)
| C1Token (id : ident) (content : pystr)
| ChatDone (id : ident) (content : option pystr)
| VoiceResponse (id : ident) (content : payload) (voiceText : option pystr)
                (isVoiceOverOnly : bool)
| TextChatResponse (id : ident) (content : payload) (threadId : option pystr)
| ImmediateVoiceResponse (id : ident) (content : payload) (voiceText : option pystr)
                         (isVoiceOverOnly : bool)
| EnhancementStarted (id : ident) (content : pystr).

(** An entry of a conversation history as the queues carry it. *)
Record history_entry := {
  h_role : pystr;
  h_content : option pystr
}.

(** The dictionary [metadata] of a raw turn; a missing key is [None]. *)
Record metadata := {
  source : option pystr;
  thread_id : option pystr;
  message_id : option pystr
}.

(** [RawLLMOutput] *)
Record RawLLMOutput := {
  assistant_response : option pystr;
  history : list history_entry;
  meta : option metadata
}.

(** An [asyncio.Queue]: [maxsize <= 0] is unbounded. *)
Record queue (A : Type) := {
  maxsize : Z;
  items : list A;
  unfinished_tasks : nat
}.
Arguments maxsize {A} q.
Arguments items {A} q.
Arguments unfinished_tasks {A} q.

Definition new_queue {A : Type} (size : Z) : queue A :=
  {| maxsize := size; items := []; unfinished_tasks := 0 |}.

Definition full {A : Type} (q : queue A) : bool :=
  (0 <? maxsize q)%Z && (maxsize q <=? Z.of_nat (length (items q)))%Z.

(** What awaiting a queue operation comes to: it completes, it raises,
    or the caller stays suspended with the queue as it was. *)
Inductive outcome (A : Type) :=
| Done (a : A)
| Fails (e : exn)
| Suspended.
Arguments Done {A} a.
Arguments Fails {A} e.
Arguments Suspended {A}.

(** [await q.put(x)] *)
Definition put {A : Type} (q : queue A) (x : A) : outcome unit * queue A :=
  if full q then (Suspended, q)
  else (Done tt, {| maxsize := maxsize q;
                    items := items q ++ [x];
                    unfinished_tasks := S (unfinished_tasks q) |}).

(** [await q.get()] *)
Definition get {A : Type} (q : queue A) : outcome A * queue A :=
  match items q with
  | [] => (Suspended, q)
  | x :: rest => (Done x, {| maxsize := maxsize q;
                             items := rest;
                             unfinished_tasks := unfinished_tasks q |})
  end.

(** [q.task_done()]: [ValueError] when called more times than there
    were items. *)
Definition task_done {A : Type} (q : queue A) : result unit * queue A :=
  match unfinished_tasks q with
  | O => (Raised OtherException, q)
  | S n => (Returned tt, {| maxsize := maxsize q;
                            items := items q;
                            unfinished_tasks := n |})
  end.

(** The two module-level queues; [None] before [initialize_queues]. *)
Record bus := {
  llm_message_queue : option (queue message);
  raw_llm_output_queue : option (queue RawLLMOutput)
}.

Definition uninitialized : bus :=
  {| llm_message_queue := None; raw_llm_output_queue := None |}.

(** [initialize_queues()] with the two configured sizes. *)
Definition initialize_queues (llm_size raw_size : Z) (b : bus) : bus :=
  {| llm_message_queue := Some (new_queue llm_size);
     raw_llm_output_queue := Some (new_queue raw_size) |}.

Definition set_llm (b : bus) (q : queue message) : bus :=
  {| llm_message_queue := Some q; raw_llm_output_queue := raw_llm_output_queue b |}.

Definition set_raw (b : bus) (q : queue RawLLMOutput) : bus :=
  {| llm_message_queue := llm_message_queue b; raw_llm_output_queue := Some q |}.

(** [enqueue_llm_message(message)] *)
Definition enqueue_llm_message (m : message) (b : bus) : outcome unit * bus :=
  match llm_message_queue b with
  | None => (Fails RuntimeError, b)
  | Some q => let '(o, q') := put q m in (o, set_llm b q')
  end.

(** [enqueue_raw_llm_output(assistant_response, history, metadata)] *)
Definition enqueue_raw_llm_output (response : pystr) (h : list history_entry)
    (md : option metadata) (b : bus) : outcome unit * bus :=
  match raw_llm_output_queue b with
  | None => (Fails RuntimeError, b)
  | Some q =>
      let item := {| assistant_response := Some response; history := h; meta := md |} in
      let '(o, q') := put q item in (o, set_raw b q')
  end.

(** [get_llm_message()] *)
Definition get_llm_message (b : bus) : outcome message * bus :=
  match llm_message_queue b with
  | None => (Fails RuntimeError, b)
  | Some q => let '(o, q') := get q in (o, set_llm b q')
  end.

(** [get_raw_llm_output()].  Once the item is off the queue the debug
    line slices its response, [item['assistant_response'][:50]]: for an
    item without a response text that raises ([TypeError] on [None],
    [KeyError] on a missing key), which the function logs and raises
    again, the item staying off the queue. *)
Definition get_raw_llm_output (b : bus) : outcome RawLLMOutput * bus :=
  match raw_llm_output_queue b with
  | None => (Fails RuntimeError, b)
  | Some q =>
      match get q with
      | (Done item, q') =>
          match assistant_response item with
          | Some _ => (Done item, set_raw b q')
          | None => (Fails OtherException, set_raw b q')
          end
      | (o, q') => (o, set_raw b q')
      end
  end.

(** [mark_raw_llm_output_done()] *)
Definition mark_raw_llm_output_done (b : bus) : result unit * bus :=
  match raw_llm_output_queue b with
  | None => (Raised RuntimeError, b)
  | Some q => let '(r, q') := task_done q in (r, set_raw b q')
  end.

(** [mark_llm_message_done()] *)
Definition mark_llm_message_done (b : bus) : result unit * bus :=
  match llm_message_queue b with
  | None => (Raised RuntimeError, b)
  | Some q => let '(r, q') := task_done q in (r, set_llm b q')
  end.

(** The message constructors; [uuid] is the identifier drawn. *)
Definition create_c1_token (id : ident) (content : pystr) : message :=
  C1Token id content.

Definition create_chat_done (id : ident) (content : option pystr) : message :=
  ChatDone id content.

Definition create_voice_response (uuid : ident) (content : payload)
    (voice_text : option pystr) (is_voice_over_only : bool) : message :=
  VoiceResponse uuid content voice_text
    (match voice_text with
     | Some t => if truthy t then is_voice_over_only else false
     | None => false
     end).

Definition create_text_chat_response (uuid : ident) (content : payload)
    (thread : option pystr) : message :=
  TextChatResponse uuid content thread.

Definition create_enhancement_started (uuid : ident) (note : pystr) : message :=
  EnhancementStarted uuid note.

(** The default note of [create_enhancement_started]; its last code
    point is the ellipsis. *)
Definition default_note : pystr := cp "Generating enhanced display" ++ [8230%N].

End Queues.

(* ===================================================================== *)
(** * app/chat_history_manager.py *)
(* ===================================================================== *)

Module ChatHistory.
Import PyStr.

(** A stored message: the keys a formatted message may have. *)
Record message := {
  role : pystr;
  content : option pystr;
  name : option pystr;
  function_call : option (pystr * pystr);
  id : option pystr
}.

Record thread_metadata := {
  created_at : Z;
  last_activity : Z
}.

(** A [ChatHistoryManager]; time stamps are the values [time.time()]
    returned, passed in by the caller. *)
Record ChatHistoryManager := {
  _history : gmap pystr (list message);
  _thread_metadata : gmap pystr thread_metadata;
  max_history_per_thread : Z;
  max_inactive_time : Z
}.

(** [__init__] *)
Definition new_manager (max_history max_inactive : Z) : ChatHistoryManager :=
  {| _history := ∅;
     _thread_metadata := ∅;
     max_history_per_thread := max_history;
     max_inactive_time := max_inactive |}.

Definition with_history (m : ChatHistoryManager) (h : gmap pystr (list message))
  : ChatHistoryManager :=
  {| _history := h;
     _thread_metadata := _thread_metadata m;
     max_history_per_thread := max_history_per_thread m;
     max_inactive_time := max_inactive_time m |}.

Definition with_metadata (m : ChatHistoryManager) (md : gmap pystr thread_metadata)
  : ChatHistoryManager :=
  {| _history := _history m;
     _thread_metadata := md;
     max_history_per_thread := max_history_per_thread m;
     max_inactive_time := max_inactive_time m |}.

(** [_ensure_thread_exists(thread_id)] *)
Definition _ensure_thread_exists (thread_id : pystr) (now : Z) (m : ChatHistoryManager)
  : ChatHistoryManager :=
  match _history m !! thread_id with
  | Some _ => m
  | None =>
      with_metadata (with_history m (<[thread_id := []]> (_history m)))
        (<[thread_id := {| created_at := now; last_activity := now |}]>
           (_thread_metadata m))
  end.

(** [_update_thread_activity(thread_id)] *)
Definition _update_thread_activity (thread_id : pystr) (now : Z) (m : ChatHistoryManager)
  : ChatHistoryManager :=
  match _thread_metadata m !! thread_id with
  | Some md =>
      with_metadata m
        (<[thread_id := {| created_at := created_at md; last_activity := now |}]>
           (_thread_metadata m))
  | None =>
      with_metadata m
        (<[thread_id := {| created_at := now; last_activity := now |}]>
           (_thread_metadata m))
  end.

(** [_trim_history_if_needed(thread_id)] *)
Definition _trim_history_if_needed (thread_id : pystr) (m : ChatHistoryManager)
  : ChatHistoryManager :=
  match _history m !! thread_id with
  | Some history =>
      if (max_history_per_thread m <? Z.of_nat (length history))%Z then
        let excess := (Z.of_nat (length history) - max_history_per_thread m)%Z in
        with_history m (<[thread_id := drop (Z.to_nat excess) history]> (_history m))
      else m
  | None => m
  end.

(** [self._history[thread_id].append(formatted_message)]; the thread is
    there, [_ensure_thread_exists] ran just before. *)
Definition append_to_thread (thread_id : pystr) (formatted_message : message)
    (m : ChatHistoryManager) : ChatHistoryManager :=
  match _history m !! thread_id with
  | Some history =>
      with_history m (<[thread_id := history ++ [formatted_message]]> (_history m))
  | None => m
  end.

(** The body shared by the five [add_*] methods, after the message is
    formatted: ensure the thread, append, touch, trim.  [t0] and [t1]
    are the two readings of the clock. *)
Definition store (thread_id : pystr) (formatted_message : message) (t0 t1 : Z)
    (m : ChatHistoryManager) : ChatHistoryManager :=
  _trim_history_if_needed thread_id
    (_update_thread_activity thread_id t1
       (append_to_thread thread_id formatted_message
          (_ensure_thread_exists thread_id t0 m))).

(** [if message_id: formatted_message["id"] = message_id] *)
Definition optional_id (message_id : option pystr) : option pystr :=
  match message_id with
  | Some i => if truthy i then Some i else None
  | None => None
  end.

Definition add_user_message (thread_id msg : pystr) (message_id : option pystr)
    (t0 t1 : Z) (m : ChatHistoryManager) : ChatHistoryManager :=
  store thread_id
    {| role := cp "user"; content := Some msg; name := None;
       function_call := None; id := optional_id message_id |} t0 t1 m.

Definition add_assistant_message (thread_id msg : pystr) (message_id : option pystr)
    (t0 t1 : Z) (m : ChatHistoryManager) : ChatHistoryManager :=
  store thread_id
    {| role := cp "assistant"; content := Some msg; name := None;
       function_call := None; id := optional_id message_id |} t0 t1 m.

Definition add_function_message (thread_id function_name result_text : pystr)
    (t0 t1 : Z) (m : ChatHistoryManager) : ChatHistoryManager :=
  store thread_id
    {| role := cp "function"; content := Some result_text; name := Some function_name;
       function_call := None; id := None |} t0 t1 m.

(** [arguments] is the text [json.dumps] made of the arguments. *)
Definition add_function_call (thread_id function_name arguments : pystr)
    (t0 t1 : Z) (m : ChatHistoryManager) : ChatHistoryManager :=
  store thread_id
    {| role := cp "assistant"; content := None; name := None;
       function_call := Some (function_name, arguments); id := None |} t0 t1 m.

Definition add_system_message (thread_id msg : pystr)
    (t0 t1 : Z) (m : ChatHistoryManager) : ChatHistoryManager :=
  store thread_id
    {| role := cp "system"; content := Some msg; name := None;
       function_call := None; id := None |} t0 t1 m.

(** [add_c1_action]: a user message. *)
Definition add_c1_action (thread_id action_message : pystr)
    (t0 t1 : Z) (m : ChatHistoryManager) : ChatHistoryManager :=
  add_user_message thread_id action_message None t0 t1 m.

(** The append operations of the store. *)
Inductive append_op :=
| AddUser (msg : pystr) (message_id : option pystr)
| AddAssistant (msg : pystr) (message_id : option pystr)
| AddFunctionMessage (function_name result_text : pystr)
| AddFunctionCall (function_name arguments : pystr)
| AddSystem (msg : pystr)
| AddC1Action (action_message : pystr).

Definition formatted (op : append_op) : message :=
  match op with
  | AddUser msg mid =>
      {| role := cp "user"; content := Some msg; name := None;
         function_call := None; id := optional_id mid |}
  | AddAssistant msg mid =>
      {| role := cp "assistant"; content := Some msg; name := None;
         function_call := None; id := optional_id mid |}
  | AddFunctionMessage f r =>
      {| role := cp "function"; content := Some r; name := Some f;
         function_call := None; id := None |}
  | AddFunctionCall f a =>
      {| role := cp "assistant"; content := None; name := None;
         function_call := Some (f, a); id := None |}
  | AddSystem msg =>
      {| role := cp "system"; content := Some msg; name := None;
         function_call := None; id := None |}
  | AddC1Action a =>
      {| role := cp "user"; content := Some a; name := None;
         function_call := None; id := None |}
  end.

Definition run_op (thread_id : pystr) (op : append_op) (t0 t1 : Z)
    (m : ChatHistoryManager) : ChatHistoryManager :=
  match op with
  | AddUser msg mid => add_user_message thread_id msg mid t0 t1 m
  | AddAssistant msg mid => add_assistant_message thread_id msg mid t0 t1 m
  | AddFunctionMessage f r => add_function_message thread_id f r t0 t1 m
  | AddFunctionCall f a => add_function_call thread_id f a t0 t1 m
  | AddSystem msg => add_system_message thread_id msg t0 t1 m
  | AddC1Action a => add_c1_action thread_id a t0 t1 m
  end.

(** The messages of a thread; a thread not created yet has none. *)
Definition thread_history (m : ChatHistoryManager) (thread_id : pystr) : list message :=
  default [] (_history m !! thread_id).

End ChatHistory.

(* ===================================================================== *)
(** * agent/enhanced_mcp_client_agent.py: the decision loop *)
(* ===================================================================== *)

Module DecisionLoop.
Import PyStr Py Schemas.

(** One delta of a streamed completion: the function-call part (name
    and argument fragment, each possibly absent) and the content. *)
Record delta := {
  d_function_call : option (option pystr * option pystr);
  d_content : option pystr
}.

(** One round of the completion service: the deltas it streams, the
    exception that ends the stream when there is one (raised by the
    request itself when there are no deltas), and the text [_call_tool]
    returns if the round comes to call a tool.  [_call_tool] answers a
    missing tool, a time-out and any exception of the call with an
    error text. *)
Record round := {
  deltas : list (option delta);
  stream_error : option exn;
  tool_result : pystr
}.

(** The arguments of [process_enhancement_decision] after decoding: the
    three keys, each possibly missing; [voiceOverText] may be null. *)
Record decision_args := {
  arg_displayEnhancement : option bool;
  arg_displayEnhancedText : option pystr;
  arg_voiceOverText : option (option pystr)
}.

(** What becomes of the argument text of a complete function call:
    [json.loads] raises something that is not a [JSONDecodeError], or
    it gives a value.  The decision branch reads the value with
    [args.get] and hands what it reads to the decision model; for a
    value that is no object, or whose entries the model refuses, that
    raises ([AttributeError], [ValidationError]). *)
Inductive parsed_args :=
| Args (a : decision_args)     (* an object; its values fit the model *)
| Unfit                        (* a value no decision can be built from *)
| BadArgs (e : exn).           (* [json.loads] raises [e] *)

Definition empty_args : decision_args :=
  {| arg_displayEnhancement := None;
     arg_displayEnhancedText := None;
     arg_voiceOverText := None |}.

(** The buffers of one round. *)
Record stream_state := {
  is_function_call : bool;
  func_name : pystr;
  func_args_buffer : pystr;
  content_buffer : pystr
}.

Definition stream_start : stream_state :=
  {| is_function_call := false; func_name := [];
     func_args_buffer := []; content_buffer := [] |}.

Definition finalize_name : pystr := cp "process_enhancement_decision".
Definition tools_acknowledgment : pystr := cp "I used tools to help answer your question.".

Definition underscore : N := 95.

(** [func_name.split('_')[-1]] *)
Definition last_segment (s : pystr) : pystr :=
  rev (take_while (fun c => negb (c =? underscore)%N) (rev s)).

Definition tool_announcement (name : pystr) : pystr :=
  cp "I'm using the " ++ last_segment name ++ cp " tool. ".

(** How a round leaves the loop body. *)
Inductive round_exit :=
| Return (d : EnhancementDecision)
| Continue (tools_used : list pystr)
| Break
| Propagate (e : exn).

Section WithCollaborators.

(** [voice_injection_callback]: not set, or a function whose call may
    raise. *)
Variable voice_injection_callback : option (option pystr -> option exn).

(** [json.loads] of a function call's argument text; no value:
    [JSONDecodeError]. *)
Variable decode_args : pystr -> option parsed_args.

(** The answers of the completion service, per iteration. *)
Variable rounds : nat -> round.

Definition truthy_content (d : delta) : bool :=
  match d_content d with Some c => truthy c | None => false end.

(** [await voice_injection_callback(text)], the callback being set. *)
Definition narrate (text : option pystr) (said : list (option pystr))
  : result unit * list (option pystr) :=
  match voice_injection_callback with
  | None => (Returned tt, said)
  | Some f =>
      match f text with
      | None => (Returned tt, said ++ [text])
      | Some e => (Raised e, said ++ [text])
      end
  end.

(** What a delta does to the buffers of the round. *)
Definition absorb (d : delta) (st : stream_state) : stream_state :=
  let st1 :=
    match d_function_call d with
    | Some (fname, fargs) =>
        {| is_function_call := true;
           func_name := match fname with
                        | Some n => if truthy n then n else func_name st
                        | None => func_name st
                        end;
           func_args_buffer := match fargs with
                               | Some a => func_args_buffer st ++ a
                               | None => func_args_buffer st
                               end;
           content_buffer := content_buffer st |}
    | None => st
    end in
  match d_content d with
  | Some c =>
      if truthy c then
        {| is_function_call := is_function_call st1;
           func_name := func_name st1;
           func_args_buffer := func_args_buffer st1;
           content_buffer := content_buffer st1 ++ c |}
      else st1
  | None => st1
  end.

(** The body of [async for chunk in stream] for one delta: the buffers,
    then the content handed to the callback when no function call has
    shown yet. *)
Definition on_delta (d : option delta) (st : stream_state) (said : list (option pystr))
  : result stream_state * list (option pystr) :=
  match d with
  | None => (Returned st, said)
  | Some d =>
      let st' := absorb d st in
      if truthy_content d && negb (is_function_call st') then
        match narrate (d_content d) said with
        | (Returned _, said') => (Returned st', said')
        | (Raised e, said') => (Raised e, said')
        end
      else (Returned st', said)
  end.

Fixpoint consume (ds : list (option delta)) (st : stream_state) (said : list (option pystr))
  : result stream_state * list (option pystr) :=
  match ds with
  | [] => (Returned st, said)
  | d :: rest =>
      match on_delta d st said with
      | (Returned st', said') => consume rest st' said'
      | (Raised e, said') => (Raised e, said')
      end
  end.

(** The decision made when the model answers without a function call,
    and the one after the loop. *)
Definition forced_decision (tools_used : list pystr) (text : pystr) : EnhancementDecision :=
  {| displayEnhancement := (0 <? length tools_used)%nat;
     displayEnhancedText := text;
     voiceOverText := Some (match tools_used with
                            | [] => []
                            | _ => tools_acknowledgment
                            end) |}.

(** The two handlers of the round: an [Exception] breaks the loop,
    anything else propagates. *)
Definition handle (e : exn) : round_exit :=
  if is_Exception e then Break else Propagate e.

(** The [try] block of one iteration. *)
Definition run_round (r : round) (assistant_response : pystr)
    (tools_used : list pystr) (said : list (option pystr))
  : round_exit * list (option pystr) :=
  match consume (deltas r) stream_start said with
  | (Raised e, said1) => (handle e, said1)
  | (Returned st, said1) =>
      match stream_error r with
      | Some e => (handle e, said1)
      | None =>
          if is_function_call st then
            (* args = json.loads(func_args_buffer), {} on a JSONDecodeError;
               this comes before the function name is looked at *)
            match default (Args empty_args) (decode_args (func_args_buffer st)) with
            | BadArgs e => (handle e, said1)
            | args =>
                if decide (func_name st = finalize_name) then
                  match args with
                  | Args a =>
                      let decision :=
                        {| displayEnhancement := default false (arg_displayEnhancement a);
                           displayEnhancedText :=
                             default assistant_response (arg_displayEnhancedText a);
                           voiceOverText := default (Some []) (arg_voiceOverText a) |} in
                      if displayEnhancement decision
                         && (match voice_injection_callback with
                             | Some _ => true
                             | None => false
                             end)
                         && negb (match voiceOverText decision with
                                  | Some [] => true
                                  | _ => false
                                  end)
                      then
                        match narrate (voiceOverText decision) said1 with
                        | (Returned _, said2) => (Return decision, said2)
                        | (Raised e, said2) => (handle e, said2)
                        end
                      else (Return decision, said1)
                  | _ => (Break, said1)        (* an [Exception] of the decision model *)
                  end
                else
                  match narrate (Some (tool_announcement (func_name st))) said1 with
                  | (Raised e, said2) => (handle e, said2)
                  | (Returned _, said2) =>
                      (* tool_result = await self._call_tool(func_name, args) *)
                      (Continue (tools_used ++ [func_name st]), said2)
                  end
            end
          else
            (Return (forced_decision tools_used
                       (if truthy (content_buffer st)
                        then content_buffer st else assistant_response)),
             said1)
      end
  end.

Definition max_iterations : nat := 5.

(** The [while iteration < max_iterations] loop; [budget] is what is
    left of the iterations. *)
Fixpoint loop (budget iteration : nat) (assistant_response : pystr)
    (tools_used : list pystr) (said : list (option pystr))
  : result EnhancementDecision * list (option pystr) :=
  match budget with
  | O => (Returned (forced_decision tools_used assistant_response), said)
  | S budget' =>
      let iteration' := S iteration in
      match run_round (rounds iteration') assistant_response tools_used said with
      | (Return d, said') => (Returned d, said')
      | (Continue tools_used', said') =>
          loop budget' iteration' assistant_response tools_used' said'
      | (Break, said') =>
          (Returned (forced_decision tools_used assistant_response), said')
      | (Propagate e, said') => (Raised e, said')
      end
  end.

(** [make_enhancement_decision_streaming].  [client_ready] says whether
    [openai_client] is set; [prelude] is the exception raised while the
    prompt, the messages and the function list are built, if any. *)
Definition make_enhancement_decision_streaming (client_ready : bool)
    (prelude : option exn) (assistant_response : pystr)
  : result EnhancementDecision * list (option pystr) :=
  if negb client_ready then (Raised RuntimeError, [])
  else
    match prelude with
    | Some e =>
        if is_Exception e
        then (Returned {| displayEnhancement := false;
                          displayEnhancedText := assistant_response;
                          voiceOverText := Some [] |}, [])
        else (Raised e, [])
    | None => loop max_iterations 0 assistant_response [] []
    end.

End WithCollaborators.

End DecisionLoop.

(* ===================================================================== *)
(** * app/vis_processor.py *)
(* ===================================================================== *)

Module VisProcessor.
Import PyStr Py Schemas Queues.

(** ** The registry of voice agents and the narration broadcast *)

(** What calling [agent.inject_tts_voice_over(text)] comes to: the call
    itself raises an [Exception], or it gives an awaitable that raises
    one, or one that delivers the text. *)
Inductive injection :=
| CallRaises
| AwaitRaises
| Delivers.

Record agent := {
  agent_id : nat;
  inject_tts_voice_over : pystr -> injection
}.

(** The agents of [_active_voice_agents] that are alive, in the order
    [list(...)] gives them. *)
Definition registry := list agent.

Definition registered (a : agent) (r : registry) : bool :=
  existsb (fun b => Nat.eqb (agent_id b) (agent_id a)) r.

(** [register_voice_agent(agent)] *)
Definition register_voice_agent (a : agent) (r : registry) : registry :=
  if registered a r then r else r ++ [a].

(** [unregister_voice_agent(agent)] *)
Definition unregister_voice_agent (a : agent) (r : registry) : registry :=
  List.filter (fun b => negb (Nat.eqb (agent_id b) (agent_id a))) r.

Inductive sink_event :=
| Invoked (a : nat) (text : pystr)       (* the entrypoint was called *)
| Delivered (a : nat) (text : pystr).    (* its awaitable completed *)

(** The loop that fills [injection_tasks]: the agents whose call gave
    an awaitable. *)
Definition injection_tasks (r : registry) (voice_text : pystr) : list agent :=
  List.filter (fun a => match inject_tts_voice_over a voice_text with
                        | CallRaises => false
                        | _ => true
                        end) r.

(** [asyncio.gather] of the tasks with [return_exceptions=True]: every
    awaitable runs; an exception becomes a result. *)
Definition gather (tasks : list agent) (voice_text : pystr) : list sink_event :=
  List.map (fun a => Delivered (agent_id a) voice_text)
    (List.filter (fun a => match inject_tts_voice_over a voice_text with
                           | Delivers => true
                           | _ => false
                           end) tasks).

(** [inject_voice_over_to_all_agents(voice_text)] *)
Definition inject_voice_over_to_all_agents (r : registry) (voice_text : pystr)
  : result unit * list sink_event :=
  if negb (truthy voice_text) || negb (truthy (strip voice_text)) then (Returned tt, [])
  else
    match r with
    | [] => (Returned tt, [])
    | _ =>
        let calls := List.map (fun a => Invoked (agent_id a) voice_text) r in
        let tasks := injection_tasks r voice_text in
        match tasks with
        | [] => (Returned tt, calls)
        | _ => (Returned tt, calls ++ gather tasks voice_text)
        end
    end.

(** ** The worker *)

Definition text_chat : pystr := cp "text_chat".
Definition voice_agent : pystr := cp "voice-agent".

(** The state an iteration works on: the queues, the messages it has
    put on [llm_message_queue], the identifiers drawn, and the number of
    calls of [make_enhancement_decision_streaming]. *)
Record wstate := {
  ws_bus : bus;
  ws_sent : list message;
  ws_uuids : nat;
  ws_decisions : nat
}.

Definition M (A : Type) : Type := wstate -> result A * wstate.

Definition ret {A : Type} (a : A) : M A := fun s => (Returned a, s).
Definition raise {A : Type} (e : exn) : M A := fun s => (Raised e, s).
Definition bind {A B : Type} (m : M A) (k : A -> M B) : M B :=
  fun s => match m s with
           | (Returned a, s') => k a s'
           | (Raised e, s') => (Raised e, s')
           end.

Notation "x <- m ;; k" := (bind m (fun x => k))
  (at level 99, m at level 98, right associativity).
Notation "m ;;; k" := (bind m (fun _ => k))
  (at level 99, right associativity).

(** [try: body / except Exception as e: handler(e)] *)
Definition try_except {A : Type} (body : M A) (handler : exn -> M A) : M A :=
  fun s => match body s with
           | (Raised e, s') => if is_Exception e then handler e s' else (Raised e, s')
           | r => r
           end.

(** [str(uuid.uuid4())] *)
Definition uuid4 : M ident :=
  fun s => (Returned (Uuid4 (ws_uuids s)),
            {| ws_bus := ws_bus s; ws_sent := ws_sent s;
               ws_uuids := S (ws_uuids s); ws_decisions := ws_decisions s |}).

(** [await enqueue_llm_message(m)].  A put that stays suspended is cut
    short by the cancellation of the worker; a wait that the consumer
    ends is a run from the queue as it is then. *)
Definition enqueue (m : message) : M unit :=
  fun s => match enqueue_llm_message m (ws_bus s) with
           | (Done _, b) =>
               (Returned tt,
                {| ws_bus := b; ws_sent := ws_sent s ++ [m];
                   ws_uuids := ws_uuids s; ws_decisions := ws_decisions s |})
           | (Fails e, _) => (Raised e, s)
           | (Suspended, _) => (Raised CancelledError, s)
           end.

Fixpoint for_each {A : Type} (l : list A) (f : A -> M unit) : M unit :=
  match l with
  | [] => ret tt
  | x :: rest => f x ;;; for_each rest f
  end.

(** What the worker is given besides the queues. *)
Record world := {
  (** [enhanced_mcp_client.make_enhancement_decision_streaming] with
      the turn's text, history and voice callback *)
  make_decision : pystr -> list history_entry -> result EnhancementDecision;
  (** [self.thesys_client]: not set, or a client with the fragments
      [stream_thesys_response] yields for a request *)
  thesys_client : option (list pystr);
  (** the exception raised while the request for the rendering is
      built (tool list, prompt file, history entries), if any *)
  prepare : option exn;
  (** [str(e)] *)
  exn_text : exn -> pystr
}.

Section Worker.

Variable w : world.

Definition count_decision : M unit :=
  fun s => (Returned tt,
            {| ws_bus := ws_bus s; ws_sent := ws_sent s;
               ws_uuids := ws_uuids s; ws_decisions := S (ws_decisions s) |}).

(** Step 1: the decision, with its own [except Exception]. *)
Definition step1 (bypass_enhancement : bool) (response : pystr)
    (conversation_history : list history_entry) : M EnhancementDecision :=
  try_except
    (if negb bypass_enhancement then
       count_decision ;;;
       (fun s => (make_decision w response conversation_history, s))
     else
       ret {| displayEnhancement := true;
              displayEnhancedText := response;
              voiceOverText := None |})
    (fun _ =>
       ret {| displayEnhancement := false;
              displayEnhancedText := response;
              voiceOverText := Some [] |}).

(** The message for the frontend of the given payload: a text chat
    response for the text path, a voice response otherwise. *)
Definition message_for_frontend (src : pystr) (md : metadata) (content : payload)
  : M message :=
  u <- uuid4 ;;
  ret (if bool_decide (src = text_chat)
       then create_text_chat_response u content (thread_id md)
       else create_voice_response u content (Some []) true).

(** The call of the Visualize API, streamed to the frontend. *)
Definition stream_to_frontend (fragments : list pystr) (md : metadata) : M unit :=
  match prepare w with
  | Some e => raise e
  | None =>
      u <- uuid4 ;;
      let assistant_message_id :=
        match message_id md with Some i => Ident i | None => u end in
      for_each fragments (fun chunk => enqueue (create_c1_token assistant_message_id chunk)) ;;;
      enqueue (create_chat_done assistant_message_id None)
  end.

(** What follows the decision: the indicator, then the streamed
    rendering or the simple card. *)
Definition after_decision (src : pystr) (md : metadata)
    (decision : EnhancementDecision) : M unit :=
  let display_enhancement := displayEnhancement decision in
  let display_text := displayEnhancedText decision in
  if display_enhancement then
    u <- uuid4 ;;
    enqueue (create_enhancement_started u default_note) ;;;
    if bool_decide (src = voice_agent) && negb display_enhancement then ret tt
    else
      match thesys_client w with
      | Some fragments =>
          try_except (stream_to_frontend fragments md)
            (fun e =>
               m <- message_for_frontend src md
                      (Callout (cp "warning") (cp "Visualization Error")
                               (cp "Failed to generate UI: " ++ exn_text w e)) ;;
               enqueue m)
      | None =>
          m <- message_for_frontend src md (SimpleCard display_text) ;;
          enqueue m
      end
  else ret tt.

(** The [try] block after the item is there. *)
Definition process_item (item : RawLLMOutput) : M unit :=
  match meta item with
  | None => raise OtherException                  (* subscripting [None] *)
  | Some md =>
      match source md with
      | None => raise KeyError
      | Some src =>
          let bypass_enhancement := bool_decide (src = text_chat) in
          match assistant_response item with
          | None => ret tt
          | Some response =>
              if negb (truthy response) then ret tt
              else
                decision <- step1 bypass_enhancement response (history item) ;;
                after_decision src md decision
          end
      end
  end.

Definition system_error : payload :=
  Callout (cp "warning") (cp "System Error")
          (cp "A system error occurred while generating UI for voice response.").

(** The handler [except Exception] of the loop body. *)
Definition on_exception (item : option RawLLMOutput) : M unit :=
  match item with
  | None =>
      u <- uuid4 ;;
      try_except (enqueue (create_voice_response u system_error None true))
                 (fun _ => ret tt)
  | Some it =>
      match meta it with
      | None => raise OtherException               (* [None.get] *)
      | Some md =>
          let src := default voice_agent (source md) in
          u <- uuid4 ;;
          try_except
            (enqueue (if bool_decide (src = text_chat)
                      then create_text_chat_response u system_error (thread_id md)
                      else create_voice_response u system_error None true))
            (fun _ => ret tt)
      end
  end.

(** What an iteration of the loop leaves: the state, whether
    [mark_raw_llm_output_done()] was called, and the exception that
    leaves the loop, if any. *)
Record iteration_result := {
  final : wstate;
  acknowledged : bool;
  propagated : option exn
}.

(** The [try] block: the value of [item] and of [got_item] when the
    block is left, and how it is left.  When [get_raw_llm_output]
    raises, [item] is still [None] and [got_item] is still [False],
    also when the queue has given up an item by then. *)
Definition try_block (s : wstate)
  : option RawLLMOutput * bool * (result unit * wstate) :=
  let with_bus (b : bus) :=
    {| ws_bus := b; ws_sent := ws_sent s;
       ws_uuids := ws_uuids s; ws_decisions := ws_decisions s |} in
  match get_raw_llm_output (ws_bus s) with
  | (Done item, b) => (Some item, true, process_item item (with_bus b))
  | (Fails e, b) => (None, false, (Raised e, with_bus b))
  | (Suspended, _) => (None, false, (Raised CancelledError, s))
  end.

(** The [finally] clause. *)
Definition finally (got_item : bool) (r : result unit) (s : wstate) : iteration_result :=
  if got_item then
    let '(done, b) := mark_raw_llm_output_done (ws_bus s) in
    {| final := {| ws_bus := b; ws_sent := ws_sent s;
                   ws_uuids := ws_uuids s; ws_decisions := ws_decisions s |};
       acknowledged := true;
       propagated := match done with
                     | Raised e => Some e
                     | Returned _ => match r with Raised e => Some e | Returned _ => None end
                     end |}
  else
    {| final := s;
       acknowledged := false;
       propagated := match r with Raised e => Some e | Returned _ => None end |}.

(** One iteration of [process_loop]. *)
Definition iteration (s : wstate) : iteration_result :=
  let '(item, got_item, (r, s1)) := try_block s in
  match r with
  | Returned _ => finally got_item r s1
  | Raised e =>
      if is_Exception e
      then let '(r2, s2) := on_exception item s1 in finally got_item r2 s2
      else finally got_item r s1               (* except CancelledError: raise *)
  end.

End Worker.

End VisProcessor.

(* ===================================================================== *)
(** * app/chat_history_manager.py: reading and removing threads *)
(* ===================================================================== *)

Module ChatHistoryStore.
Import PyStr ChatHistory.

(** The slice [l[-limit:]]: the start index [-limit] counts from the end
    when it is negative and from the front otherwise, and is clamped to
    the list. *)
Definition last_slice {A : Type} (limit : Z) (l : list A) : list A :=
  if (0 <? limit)%Z
  then drop (length l - Z.to_nat limit) l
  else drop (Z.to_nat (- limit)) l.

(** [get_history(thread_id)]: the copy returned and the store. *)
Definition get_history (thread_id : pystr) (now : Z) (m : ChatHistoryManager)
  : list message * ChatHistoryManager :=
  let m1 := _ensure_thread_exists thread_id now m in
  (thread_history m1 thread_id, m1).

(** [get_recent_history(thread_id, max_messages)] *)
Definition get_recent_history (thread_id : pystr) (max_messages : option Z) (now : Z)
    (m : ChatHistoryManager) : list message * ChatHistoryManager :=
  let m1 := _ensure_thread_exists thread_id now m in
  let limit := match max_messages with
               | Some n => n
               | None => max_history_per_thread m1
               end in
  (last_slice limit (thread_history m1 thread_id), m1).

(** [clear_history(thread_id)] *)
Definition clear_history (thread_id : pystr) (now : Z) (m : ChatHistoryManager)
  : ChatHistoryManager :=
  match _history m !! thread_id with
  | Some _ =>
      _update_thread_activity thread_id now
        (with_history m (<[thread_id := []]> (_history m)))
  | None => m
  end.

(** [del self._history[thread_id]] and [del self._thread_metadata[thread_id]],
    each under its membership test. *)
Definition remove_thread (thread_id : pystr) (m : ChatHistoryManager)
  : ChatHistoryManager :=
  with_metadata (with_history m (delete thread_id (_history m)))
    (delete thread_id (_thread_metadata m)).

(** [delete_thread(thread_id)] *)
Definition delete_thread (thread_id : pystr) (m : ChatHistoryManager)
  : ChatHistoryManager :=
  match _history m !! thread_id with
  | Some _ => remove_thread thread_id m
  | None => m
  end.

(** The test of [cleanup_inactive_threads] on one thread. *)
Definition inactive (max_inactive current_time : Z) (md : thread_metadata) : bool :=
  (max_inactive <? current_time - last_activity md)%Z.

(** The list [threads_to_delete] the first loop collects. *)
Definition threads_to_delete (current_time : Z) (m : ChatHistoryManager) : list pystr :=
  List.map fst
    (List.filter (fun kv => inactive (max_inactive_time m) current_time (snd kv))
       (map_to_list (_thread_metadata m))).

(** [cleanup_inactive_threads()]: the number returned and the store. *)
Definition cleanup_inactive_threads (current_time : Z) (m : ChatHistoryManager)
  : nat * ChatHistoryManager :=
  let ids := threads_to_delete current_time m in
  (length ids, fold_left (fun acc thread_id => remove_thread thread_id acc) ids m).

(** The dictionary [get_thread_info] returns; the two time stamps are
    kept as numbers (the code prints them with [isoformat]), and
    [created_at] is absent for an unknown thread. *)
Record thread_info := {
  info_exists : bool;
  message_count : nat;
  info_last_activity : option Z;
  info_created_at : option Z
}.

(** [get_thread_info(thread_id)] *)
Definition get_thread_info (thread_id : pystr) (m : ChatHistoryManager) : thread_info :=
  match _thread_metadata m !! thread_id with
  | None =>
      {| info_exists := false; message_count := 0;
         info_last_activity := None; info_created_at := None |}
  | Some md =>
      {| info_exists := true;
         message_count := length (default [] (_history m !! thread_id));
         info_last_activity := Some (last_activity md);
         info_created_at := Some (created_at md) |}
  end.

End ChatHistoryStore.

(* ===================================================================== *)
(** * streaming_parser.py: the generator around the parser *)
(* ===================================================================== *)

Module StreamingGenerator.
Import PyStr Py Schemas StreamingParser.

(** The message of the first, non-streamed completion, as far as the
    generator looks at it: no function call, or one whose argument text
    [json.loads] accepts or not. *)
Inductive reply :=
| NoFunctionCall
| FunctionCall (arguments_decode : bool).

(** The answers of the completion service to one call of the generator:
    the first completion (asked for only when functions are given), the
    events of the stream, each with the content of its delta if it has
    one, and the exception that ends the stream, if any (raised when the
    stream is opened if there are no events). *)
Record service := {
  first_completion : result reply;
  events : list (option pystr);
  stream_failure : option exn
}.

Definition tools_feedback : pystr := cp "I'm using tools to help answer your question. ".

(** The three decisions the generator makes up itself. *)
Definition tool_call_decision : EnhancementDecision :=
  {| displayEnhancement := true;
     displayEnhancedText := cp "Tool call in progress...";
     voiceOverText := Some (cp "I'm using tools to help answer your question...") |}.

Definition parsing_error_decision : EnhancementDecision :=
  {| displayEnhancement := false;
     displayEnhancedText := cp "Error parsing enhancement decision";
     voiceOverText := Some (cp "Error processing response") |}.

Definition streaming_error_decision : EnhancementDecision :=
  {| displayEnhancement := false;
     displayEnhancedText := cp "Error in streaming processing";
     voiceOverText := Some (cp "Error processing response") |}.

(** The contents handed to [parser.process_chunk]: those of the events
    that have a content, and a non-empty one. *)
Definition chunk_contents (evs : list (option pystr)) : list pystr :=
  List.concat (List.map (fun ev => match ev with
                                   | Some c => if truthy c then [c] else []
                                   | None => []
                                   end) evs).

(** The word loop of the parser on the texts of one call of
    [process_chunk]: the callback is awaited on each; an [Exception] of
    it is logged and the loop goes on, anything else leaves the loop
    and [process_chunk].  The result is what is raised, if anything, and
    the texts the callback was called with. *)
Fixpoint inject_words (f : pystr -> option exn) (texts : list pystr)
  : option exn * list pystr :=
  match texts with
  | [] => (None, [])
  | t :: rest =>
      let go_on := let '(r, said) := inject_words f rest in (r, t :: said) in
      match f t with
      | Some e => if is_Exception e then go_on else (Some e, [t])
      | None => go_on
      end
  end.

Section WithLibrary.

Variable json_loads : pystr -> option pyval.
Variable decode_decision : pystr -> result EnhancementDecision.

(** [async for event in stream]: [await parser.process_chunk(content)]
    for the contents in order, the parser calling the callback as it
    goes.  [voice_injection_callback] is not set, or a function whose
    call may raise. *)
Fixpoint feed (voice_injection_callback : option (pystr -> option exn))
    (p : parser) (chunks : list pystr) : result parser * list pystr :=
  match chunks with
  | [] => (Returned p, [])
  | c :: rest =>
      let r := process_chunk json_loads p c in
      let '(raised, said) :=
        match voice_injection_callback with
        | Some f => inject_words f (injected r)
        | None => (None, [])
        end in
      match raised with
      | Some e => (Raised e, said)
      | None =>
          let '(o, said') := feed voice_injection_callback (next r) rest in
          (o, said ++ said')
      end
  end.

(** The part of the [try] block that streams the structured response
    and finalizes: the outcome and the texts handed to the callback by
    the parser. *)
Definition stream_and_finalize (voice_injection_callback : option (pystr -> option exn))
    (sv : service) : result EnhancementDecision * list pystr :=
  let callback := match voice_injection_callback with Some _ => true | None => false end in
  match feed voice_injection_callback (init callback) (chunk_contents (events sv)) with
  | (Raised e, said) => (Raised e, said)
  | (Returned p, said) =>
      match stream_failure sv with
      | Some e => (Raised e, said)
      | None =>
          match finalize decode_decision p with
          | Returned (Some final_decision) => (Returned final_decision, said)
          | Returned None => (Returned parsing_error_decision, said)
          | Raised e => (Raised e, said)
          end
      end
  end.

(** The [try] block.  [functions] says whether a non-empty list of
    functions is given. *)
Definition try_block (functions : bool)
    (voice_injection_callback : option (pystr -> option exn)) (sv : service)
  : result EnhancementDecision * list pystr :=
  if functions then
    match first_completion sv with
    | Raised e => (Raised e, [])
    | Returned NoFunctionCall => stream_and_finalize voice_injection_callback sv
    | Returned (FunctionCall arguments_decode) =>
        if arguments_decode then
          match voice_injection_callback with
          | Some f =>
              match f tools_feedback with
              | Some e => (Raised e, [tools_feedback])
              | None => (Returned tool_call_decision, [tools_feedback])
              end
          | None => (Returned tool_call_decision, [])
          end
        else (Raised JSONDecodeError, [])
    end
  else stream_and_finalize voice_injection_callback sv.

(** [stream_enhancement_decision(messages, functions,
    voice_injection_callback)]: what it returns or raises, and the texts
    handed to the callback, in order.  The [finally] clause resets a
    parser that nothing else holds. *)
Definition stream_enhancement_decision (functions : bool)
    (voice_injection_callback : option (pystr -> option exn)) (sv : service)
  : result EnhancementDecision * list pystr :=
  match try_block functions voice_injection_callback sv with
  | (Raised e, said) =>
      if is_Exception e then (Returned streaming_error_decision, said) else (Raised e, said)
  | r => r
  end.

End WithLibrary.

End StreamingGenerator.

(* ===================================================================== *)
(** * The narration path from the worker to the voice agents *)
(* ===================================================================== *)

Module Narration.
Import PyStr Py Queues VisProcessor.

(** [voice_injection_callback(voice_text)], the closure [process_loop]
    hands to the decision loop (app/vis_processor.py). *)
Definition voice_injection_callback (r : registry) (voice_text : pystr)
  : result unit * list sink_event :=
  if truthy voice_text && truthy (strip voice_text)
  then inject_voice_over_to_all_agents r (strip voice_text)
  else (Returned tt, []).

(** [VoiceInterfaceAgent.inject_tts_voice_over(voice_text)]
    (agent/voice_based_interaction_agent.py): the texts of the frames
    queued.  [pipeline_task] is not set, or it is a task whose
    [queue_frames] may raise. *)
Definition inject_tts_voice_over (pipeline_task : option (pystr -> option exn))
    (voice_text : pystr) : result unit * list pystr :=
  match pipeline_task with
  | None => (Returned tt, [])
  | Some queue_frames =>
      if negb (truthy voice_text) || negb (truthy (strip voice_text))
      then (Returned tt, [])
      else
        let tts_frame := strip voice_text ++ [space] in
        match queue_frames tts_frame with
        | None => (Returned tt, [tts_frame])
        | Some e => if is_Exception e then (Returned tt, []) else (Raised e, [])
        end
  end.

(** [VoiceInterfaceAgent.process_downstream_display(assistant_response,
    history)]: the put on the agent's own reference to the queue of raw
    turns; without a queue nothing is done. *)
Definition process_downstream_display (thread : pystr)
    (raw_llm_output_queue : option (queue RawLLMOutput))
    (assistant_response : pystr) (h : list history_entry)
  : outcome unit * option (queue RawLLMOutput) :=
  match raw_llm_output_queue with
  | None => (Done tt, None)
  | Some q =>
      let payload :=
        {| assistant_response := Some (strip assistant_response);
           history := h;
           meta := Some {| source := Some voice_agent;
                           thread_id := Some thread;
                           message_id := None |} |} in
      let '(o, q') := put q payload in (o, Some q')
  end.

End Narration.

(* ===================================================================== *)
(** * agent/enhanced_mcp_client_agent.py: configuration and tool calls *)
(* ===================================================================== *)

Module McpClient.
Import PyStr Py.

(** ** [_substitute_env_vars] *)

Definition lbrace : N := 123.

Definition is_upper (c : N) : bool := ((65 <=? c) && (c <=? 90))%N.
Definition is_digit (c : N) : bool := ((48 <=? c) && (c <=? 57))%N.

(** The classes [[A-Z_]] and [[A-Z0-9_]]. *)
Definition name_start (c : N) : bool := is_upper c || (c =? 95)%N.
Definition name_char (c : N) : bool := name_start c || is_digit c.

(** The pattern: an opening brace, group 1 (a name), a closing brace,
    at the start of [s]: the name and what follows the match.  The run
    of name characters is greedy, and giving some of it back never
    helps, a name character not being a closing brace. *)
Definition match_placeholder (s : pystr) : option (pystr * pystr) :=
  match s with
  | b :: c :: t =>
      if (b =? lbrace)%N && name_start c then
        match drop_while name_char t with
        | e :: rest =>
            if (e =? rbrace)%N then Some (c :: take_while name_char t, rest) else None
        | [] => None
        end
      else None
  | _ => None
  end.

(** [replace_var(match)]: the value of the variable, or the placeholder
    itself when the variable is not set. *)
Definition replace_var (getenv : pystr -> option pystr) (var_name : pystr) : pystr :=
  match getenv var_name with
  | Some env_value => env_value
  | None => lbrace :: var_name ++ [rbrace]
  end.

(** [re.sub(pattern, replace_var, text)]: the matches from left to
    right, the search going on after each match. *)
Fixpoint sub_placeholders (fuel : nat) (getenv : pystr -> option pystr) (s : pystr)
  : pystr :=
  match fuel with
  | O => s
  | S fuel' =>
      match s with
      | [] => []
      | c :: t =>
          match match_placeholder s with
          | Some (var_name, rest) =>
              replace_var getenv var_name ++ sub_placeholders fuel' getenv rest
          | None => c :: sub_placeholders fuel' getenv t
          end
      end
  end.

Definition _substitute_env_vars (getenv : pystr -> option pystr) (text : pystr) : pystr :=
  sub_placeholders (length text) getenv text.

(** ** [_call_tool] *)

(** [needle in hay] *)
Fixpoint contains (needle hay : pystr) : bool :=
  match strip_prefix needle hay with
  | Some _ => true
  | None => match hay with [] => false | _ :: t => contains needle t end
  end.

(** An entry of [available_tools]: the name of the tool on its server,
    and how the server is reached: over HTTP, with a new session for
    each call, or over STDIO with the stored session, which may be
    missing. *)
Inductive transport :=
| Http
| Stdio (session : bool).

Record tool_info := {
  tool_name : pystr;
  via : transport
}.

(** The result of a call: the error flag and, for each item of the
    content, its text if the item has one. *)
Record tool_result := {
  isError : bool;
  result_content : list (option pystr)
}.

(** What is made of a result: [content[0].text] or a default, behind
    the error prefix when the flag is set; reading a text that is not
    there raises. *)
Definition text_of (r : tool_result) : result pystr :=
  match result_content r with
  | [] => Returned (if isError r then cp "Error: Unknown error" else cp "No result")
  | Some text :: _ => Returned (if isError r then cp "Error: " ++ text else text)
  | None :: _ => Raised OtherException
  end.

Section Calls.

(** The arguments of a call, and [{"body": args}]. *)
Variable arguments : Type.
Variable in_body : arguments -> arguments.

Variable available_tools : gmap pystr tool_info.

(** Opening the HTTP session for a tool: the exception raised, if any. *)
Variable connect : pystr -> option exn.

(** [asyncio.wait_for(session.call_tool(tool_name, args), timeout)]:
    the result, or the exception raised ([TimeoutError] after the
    time-out). *)
Variable call_tool : pystr -> arguments -> result tool_result.

(** [str(e)] *)
Variable exn_text : exn -> pystr.

Definition call_and_read (name : pystr) (args : arguments) : result pystr :=
  match call_tool name args with
  | Returned r => text_of r
  | Raised e => Raised e
  end.

(** The [try] block of [_call_tool]. *)
Definition call_body (tool_key : pystr) (info : tool_info) (args : arguments)
  : result pystr :=
  match via info with
  | Http =>
      match connect tool_key with
      | Some e => Raised e
      | None =>
          call_and_read (tool_name info)
            (if contains (cp "contacts_create-contact") (tool_name info)
             then in_body args else args)
      end
  | Stdio false => Returned (cp "Error: No session available for tool " ++ tool_key)
  | Stdio true => call_and_read (tool_name info) args
  end.

(** [_call_tool(tool_key, args)] *)
Definition _call_tool (tool_key : pystr) (args : arguments) : result pystr :=
  match available_tools !! tool_key with
  | None => Returned (cp "Error: Tool " ++ tool_key ++ cp " not found")
  | Some info =>
      match call_body tool_key info args with
      | Returned text => Returned text
      | Raised TimeoutError => Returned (cp "Error: Tool call timed out after 20 seconds")
      | Raised e =>
          if is_Exception e
          then Returned (cp "Error calling tool: " ++ exn_text e)
          else Raised e
      end
  end.

End Calls.

End McpClient.

(* ===================================================================== *)
(** * The text path: [chat_with_tools] and app/routes/chat.py *)
(* ===================================================================== *)

Module ChatRoute.
Import PyStr Py Queues ChatHistory ChatHistoryStore.

(** The message of a completion, as far as it is read: its content and
    its function call (name and argument text), each possibly absent. *)
Record completion := {
  reply_content : option pystr;
  reply_function_call : option (pystr * option pystr)
}.

(** The dictionary [{"role": "user", "content": user_message}]. *)
Definition user_entry (user_message : pystr) : message :=
  {| role := cp "user"; content := Some user_message; name := None;
     function_call := None; id := None |}.

(** The list [messages] of [chat_with_tools] before the first call of
    the model. *)
Definition first_messages (user_message : pystr) (conversation_history : list message)
  : list message :=
  conversation_history ++ [user_entry user_message].

(** What the worker reads of a message of the history. *)
Definition entry_of (m : message) : history_entry :=
  {| h_role := role m; h_content := content m |}.

(** The state the route works on: the conversation store, the two
    channels, and the number of identifiers drawn. *)
Record app := {
  store_of : ChatHistoryManager;
  channels : bus;
  drawn : nat
}.

(** The six readings of the clock of one request, in order. *)
Record readings := {
  at_user_0 : Z; at_user_1 : Z; at_recent_0 : Z;
  at_assistant_0 : Z; at_assistant_1 : Z; at_recent_1 : Z
}.

Section Chat.

(** The arguments of a tool call, [json.loads] on their text (no value:
    [JSONDecodeError]) and [json.dumps]. *)
Variable tool_arguments : Type.
Variable json_loads : pystr -> option tool_arguments.
Variable json_dumps : tool_arguments -> pystr.

(** [openai_client.chat.completions.create] on a list of messages, with
    the function definitions or without. *)
Variable create : list message -> bool -> result completion.

(** [_call_tool] *)
Variable _call_tool : pystr -> tool_arguments -> result pystr.

(** Whether [available_tools] has a tool. *)
Variable has_tools : bool.

(** [str(e)], and [str(uuid.uuid4())] for the [n]-th identifier drawn. *)
Variable exn_text : exn -> pystr.
Variable uuid_text : nat -> pystr.

(** The [try] block of [chat_with_tools]. *)
Definition answer (messages : list message) : result (option pystr) :=
  match create messages has_tools with
  | Raised e => Raised e
  | Returned reply =>
      match reply_function_call reply with
      | Some (func_name, arguments) =>
          let text := match arguments with
                      | Some a => if truthy a then a else cp "{}"
                      | None => cp "{}"
                      end in
          match json_loads text with
          | None => Raised JSONDecodeError
          | Some args =>
              match _call_tool func_name args with
              | Raised e => Raised e
              | Returned tool_result =>
                  let messages' :=
                    messages
                    ++ [{| role := cp "assistant"; content := None; name := None;
                           function_call := Some (func_name, json_dumps args);
                           id := None |};
                        {| role := cp "function"; content := Some tool_result;
                           name := Some func_name; function_call := None; id := None |}] in
                  match create messages' false with
                  | Raised e => Raised e
                  | Returned final_resp => Returned (reply_content final_resp)
                  end
              end
          end
      | None => Returned (reply_content reply)
      end
  end.

(** [chat_with_tools(user_message, conversation_history)];
    [client_ready] says whether [openai_client] is set. *)
Definition chat_with_tools (client_ready : bool) (user_message : pystr)
    (conversation_history : list message) : result (option pystr) :=
  if negb client_ready then Raised RuntimeError
  else
    match answer (first_messages user_message conversation_history) with
    | Raised e =>
        if is_Exception e
        then Returned (Some (cp "Error processing request: " ++ exn_text e))
        else Raised e
    | r => r
    end.

Definition with_store (a : app) (m : ChatHistoryManager) : app :=
  {| store_of := m; channels := channels a; drawn := drawn a |}.

(** An awaited put: a put that stays suspended is cut short by the
    cancellation of the request. *)
Definition awaited (o : outcome unit * bus) (a : app) (draws : nat) : result unit * app :=
  match o with
  | (Done _, b) => (Returned tt, {| store_of := store_of a; channels := b;
                                    drawn := drawn a + draws |})
  | (Fails e, _) => (Raised e, {| store_of := store_of a; channels := channels a;
                                  drawn := drawn a + draws |})
  | (Suspended, _) => (Raised CancelledError,
                       {| store_of := store_of a; channels := channels a;
                          drawn := drawn a + draws |})
  end.

(** [_process_chat_logic(message, thread_id, is_c1_action, app_state)],
    its first argument written [msg].
    [enhanced_mcp_client] is not set, or it is a client whose
    [openai_client] is set or not. *)
Definition _process_chat_logic (msg thread_id : pystr) (is_c1_action : bool)
    (enhanced_mcp_client : option bool) (t : readings) (a : app) : result unit * app :=
  match enhanced_mcp_client with
  | None => (Raised OtherException, a)              (* HTTPException *)
  | Some client_ready =>
      let m1 := if is_c1_action
                then add_c1_action thread_id msg (at_user_0 t) (at_user_1 t) (store_of a)
                else add_user_message thread_id msg None (at_user_0 t) (at_user_1 t)
                       (store_of a) in
      let a1 := with_store a m1 in
      match awaited (enqueue_llm_message (UserTranscription (Uuid4 (drawn a1)) msg)
                       (channels a1)) a1 1 with
      | (Raised e, a2) => (Raised e, a2)
      | (Returned _, a2) =>
          let '(conversation_history, m2) :=
            get_recent_history thread_id None (at_recent_0 t) (store_of a2) in
          let a3 := with_store a2 m2 in
          match chat_with_tools client_ready msg conversation_history with
          | Raised e => (Raised e, a3)
          | Returned None => (Raised OtherException, a3)     (* [response[:100]] *)
          | Returned (Some response) =>
              let m3 := add_assistant_message thread_id response None
                          (at_assistant_0 t) (at_assistant_1 t) (store_of a3) in
              let '(conversation_history', m4) :=
                get_recent_history thread_id None (at_recent_1 t) m3 in
              let a4 := with_store a3 m4 in
              let message_id := uuid_text (drawn a4) in
              awaited
                (enqueue_raw_llm_output response (List.map entry_of conversation_history')
                   (Some {| source := Some (cp "text_chat");
                            thread_id := Some thread_id;
                            message_id := Some message_id |})
                   (channels a4)) a4 1
          end
      end
  end.

End Chat.

End ChatRoute.

(* ===================================================================== *)
(** * Vocabulary of the properties and sample runs *)
(* ===================================================================== *)

Module ParserTerms.
Import PyStr Py Schemas StreamingParser.

(** The number of double quotes in a text. *)
Definition quotes (s : pystr) : nat := count_occ N.eq_dec s dq.

(** The value captured for a field in a buffer (empty before the field
    shows). *)
Definition captured (f : field) (buf : pystr) : pystr :=
  default [] (re_search (field_name f) buf).

(** A code point that is neither a quote nor a backslash: it does not
    end a JSON string and starts no escape. *)
Definition unescaped (c : N) : bool := negb (c =? dq)%N && negb (c =? backslash)%N.

(** The pieces by which the value captured for the narration grows,
    fragment by fragment, in a buffer that holds [buf] before the
    fragments come. *)
Fixpoint growth (buf : pystr) (chunks : list pystr) : list pystr :=
  match chunks with
  | [] => []
  | c :: rest =>
      drop (length (captured VoiceOverText buf)) (captured VoiceOverText (buf ++ c))
      :: growth (buf ++ c) rest
  end.

(** The narration value the parser holds. *)
Definition voice (p : parser) : pystr := fb_voiceOverText (field_buffers p).

(** The narration value held is the one the buffer shows. *)
Definition in_step (p : parser) : Prop := voice p = captured VoiceOverText (buffer p).

(** The narration delta a call returns ([[]] when it returns none). *)
Definition delta_of (r : step_result) : pystr :=
  match returned r with
  | Some c => match kind c with Voiceover => content c | _ => [] end
  | None => []
  end.

(** Pieces of JSON text: a quote, and fields. *)
Definition q : pystr := [dq].

(** A field with a text value, closed or left open. *)
Definition open_field (name value : string) : pystr :=
  q ++ cp name ++ q ++ cp ": " ++ q ++ cp value.
Definition text_field (name value : string) : pystr := open_field name value ++ q.

(** A field with a bare literal as value. *)
Definition bare_field (name literal : string) : pystr :=
  q ++ cp name ++ q ++ cp ": " ++ cp literal.

(** [json.loads] on the three literals; the runs below decode nothing
    else, and any other text is taken as undecodable. *)
Definition literal_loads (s : pystr) : option pyval :=
  if bool_decide (s = cp "false") then Some (PyBool false)
  else if bool_decide (s = cp "true") then Some (PyBool true)
  else if bool_decide (s = cp "null") then Some PyNone
  else None.

(** A whole-buffer decoder facing a text that is not a JSON object. *)
Definition undecodable (s : pystr) : result EnhancementDecision := Raised JSONDecodeError.

(** The flag as a bare literal, the flag between quotes, and a
    narration field that closes the object. *)
Definition flag_chunk : pystr := cp "{" ++ bare_field "displayEnhancement" "false" ++ cp ", ".
Definition quoted_flag_chunk : pystr :=
  cp "{" ++ text_field "displayEnhancement" "false" ++ cp ", ".
Definition voice_chunk : pystr := text_field "voiceOverText" "Hello there" ++ cp "}".

(** A narration value with the escapes of a newline and of a tab, the
    second one cut by the fragment boundaries. *)
Definition escaped_stream : list pystr :=
  [cp "{" ++ open_field "voiceOverText" "x\ny"; [backslash]; cp "tz" ++ q ++ cp "}"].

(** A narration value without escapes, in three fragments. *)
Definition hello_stream : list pystr :=
  [cp "{" ++ open_field "voiceOverText" "Hel"; cp "lo wor"; cp "ld" ++ q ++ cp "}"].

(** A narration value with a raw tab and a raw newline, control
    characters a JSON string may not hold: no fragment of it decodes. *)
Definition control_stream : list pystr :=
  [cp "{" ++ open_field "voiceOverText" "Hel" ++ [9%N]; cp "lo" ++ [newline] ++ cp "wor";
   cp "ld" ++ q ++ cp "}"].

(** The flag between quotes resolves to false, the text in the quotes
    then grows into one that does not decode, which disables narration,
    and the narration comes last. *)
Definition disabling_stream : list pystr :=
  [cp "{" ++ open_field "displayEnhancement" "false"; cp "x" ++ q ++ cp ", ";
   text_field "voiceOverText" "Hello" ++ cp "}"].

(** A buffer cut before the closing brace. *)
Definition truncated_stream : list pystr :=
  [cp "{" ++ bare_field "displayEnhancement" "true" ++ cp ", ";
   open_field "displayEnhancedText" "Sunny, 72 degrees"].

(** A complete but ill-formed object: a comma before the closing
    brace. *)
Definition trailing_comma_stream : list pystr :=
  [cp "{" ++ text_field "voiceOverText" "Hi" ++ cp ",}"].

End ParserTerms.

Module HistoryTerms.
Import PyStr ChatHistory.

(** The cut [_trim_history_if_needed] makes in a list. *)
Definition trimmed (max : Z) (l : list message) : list message :=
  if (max <? Z.of_nat (length l))%Z
  then drop (Z.to_nat (Z.of_nat (length l) - max)) l
  else l.

(** A thread of a store with room for two messages, holding two. *)
Definition full_thread : ChatHistoryManager :=
  run_op (cp "t1") (AddAssistant (cp "second") None) 1 1
    (run_op (cp "t1") (AddUser (cp "first") None) 0 0 (new_manager 2 3600)).

End HistoryTerms.

Module LoopTerms.
Import PyStr Py Schemas DecisionLoop.

(** The buffers of a round once its stream is read. *)
Definition scan (ds : list (option delta)) (st : stream_state) : stream_state :=
  fold_left (fun st d => match d with Some d => absorb d st | None => st end) ds st.

(** The contents of a stream that come before its first function-call
    delta and are not empty: what the loop hands to the voice callback
    while it reads the stream, in order. *)
Fixpoint heard (ds : list (option delta)) (st : stream_state) : list (option pystr) :=
  match ds with
  | [] => []
  | None :: rest => heard rest st
  | Some d :: rest =>
      (if truthy_content d && negb (is_function_call (absorb d st))
       then [d_content d] else [])
      ++ heard rest (absorb d st)
  end.

(** Nothing is handed over when no callback is set. *)
Definition spoken (callback : option (option pystr -> option exn))
    (texts : list (option pystr)) : list (option pystr) :=
  match callback with Some _ => texts | None => [] end.

(** The function a round names, and what a round that calls a tool
    hands to the callback: the contents, then the announcement. *)
Definition named (r : round) : pystr := func_name (scan (deltas r) stream_start).

Definition announced (r : round) : list (option pystr) :=
  heard (deltas r) stream_start ++ [Some (tool_announcement (named r))].

(** The decision the arguments [a] make, with the defaults of the loop. *)
Definition decision_of (a : decision_args) (assistant_response : pystr)
  : EnhancementDecision :=
  {| displayEnhancement := default false (arg_displayEnhancement a);
     displayEnhancedText := default assistant_response (arg_displayEnhancedText a);
     voiceOverText := default (Some []) (arg_voiceOverText a) |}.

(** The narration of a decision: its voice-over, when the enhancement
    is on and the voice-over is not the empty text. *)
Definition narration_of (d : EnhancementDecision) : list (option pystr) :=
  if displayEnhancement d
     && negb (match voiceOverText d with Some [] => true | _ => false end)
  then [voiceOverText d] else [].

(** The callback takes the texts: it is not set, or it raises on none
    of them. *)
Definition takes (callback : option (option pystr -> option exn))
    (texts : list (option pystr)) : Prop :=
  forall f t, callback = Some f -> In t texts -> f t = None.

(** The callback raises [e] on the text [t]. *)
Definition refuses (callback : option (option pystr -> option exn))
    (t : option pystr) (e : exn) : Prop :=
  exists f, callback = Some f /\ f t = Some e.

Section Rounds.

Variable callback : option (option pystr -> option exn).
Variable decode_args : pystr -> option parsed_args.

(** The stream of the round is read to its end: the callback takes the
    contents handed to it, and the stream ends without an error. *)
Definition reads (r : round) : Prop :=
  takes callback (heard (deltas r) stream_start) /\ stream_error r = None.

(** The round calls a tool that is not the synthetic one: its stream is
    read to its end and names the tool, [json.loads] reads the
    arguments or finds them ill-formed, and the callback takes the
    announcement.  This is when the loop comes to [_call_tool] and adds
    the name to [tools_used]. *)
Definition calls_tool (r : round) : Prop :=
  reads r
  /\ is_function_call (scan (deltas r) stream_start) = true
  /\ named r <> finalize_name
  /\ (forall e, decode_args (func_args_buffer (scan (deltas r) stream_start))
                <> Some (BadArgs e))
  /\ takes callback [Some (tool_announcement (named r))].

(** The round calls the synthetic function with arguments that decode
    to [a] (the empty object when the text is ill-formed). *)
Definition decides (r : round) (a : decision_args) : Prop :=
  stream_error r = None
  /\ is_function_call (scan (deltas r) stream_start) = true
  /\ named r = finalize_name
  /\ default (Args empty_args) (decode_args (func_args_buffer (scan (deltas r) stream_start)))
     = Args a.

(** The round times out or errors: an [Exception] is raised in its
    [try] block, by the callback on a content of the stream, by the
    request or the stream (a time-out is one), by [json.loads] on the
    arguments of a function call, by the callback on the announcement
    of a tool, by the decision model on the arguments of the synthetic
    function, or by the callback on the voice-over of the decision. *)
Inductive breaks (r : round) : Prop :=
| breaks_on_content (before after : list (option pystr)) (t : option pystr) (e : exn) :
    heard (deltas r) stream_start = before ++ t :: after ->
    takes callback before -> refuses callback t e -> is_Exception e = true ->
    breaks r
| breaks_in_stream (e : exn) :
    takes callback (heard (deltas r) stream_start) ->
    stream_error r = Some e -> is_Exception e = true ->
    breaks r
| breaks_in_arguments (e : exn) :
    reads r -> is_function_call (scan (deltas r) stream_start) = true ->
    decode_args (func_args_buffer (scan (deltas r) stream_start)) = Some (BadArgs e) ->
    is_Exception e = true ->
    breaks r
| breaks_on_announcement (e : exn) :
    reads r -> is_function_call (scan (deltas r) stream_start) = true ->
    named r <> finalize_name ->
    (forall e', decode_args (func_args_buffer (scan (deltas r) stream_start))
                <> Some (BadArgs e')) ->
    refuses callback (Some (tool_announcement (named r))) e -> is_Exception e = true ->
    breaks r
| breaks_in_decision :
    reads r -> is_function_call (scan (deltas r) stream_start) = true ->
    named r = finalize_name ->
    decode_args (func_args_buffer (scan (deltas r) stream_start)) = Some Unfit ->
    breaks r
| breaks_on_voice_over (a : decision_args) (t : option pystr) (e : exn) :
    reads r -> decides r a -> narration_of (decision_of a []) = [t] ->
    refuses callback t e -> is_Exception e = true ->
    breaks r.

End Rounds.

(** The round answers with content only. *)
Definition answers (r : round) : Prop :=
  stream_error r = None /\ is_function_call (scan (deltas r) stream_start) = false.

(** The tools of the rounds [first .. first + n - 1] and what is handed
    to the callback in these rounds, each of them calling a tool. *)
Definition tools_of (rounds : nat -> round) (first n : nat) : list pystr :=
  List.map (fun i => named (rounds i)) (seq first n).

Definition said_in (rounds : nat -> round) (first n : nat) : list (option pystr) :=
  List.concat (List.map (fun i => announced (rounds i)) (seq first n)).

(** A call of a real tool.  In the rounds below it is made in every
    round, and the first call times out: [_call_tool] answers with the
    error text. *)
Definition tool_call : delta :=
  {| d_function_call := Some (Some (cp "weather_get_forecast"), Some (cp "{}"));
     d_content := None |}.

(** Every round asks for the tool. *)
Definition busy_rounds (i : nat) : round :=
  {| deltas := [Some tool_call];
     stream_error := None;
     tool_result := if Nat.eqb i 1
                    then cp "Error: Tool call timed out after 20 seconds"
                    else cp "Sunny" |}.

(** The first two rounds ask for the tool, the request of the third
    times out. *)
Definition stalling_rounds (i : nat) : round :=
  {| deltas := if Nat.leb i 2 then [Some tool_call] else [];
     stream_error := if Nat.leb i 2 then None else Some TimeoutError;
     tool_result := cp "Sunny" |}.

(** A decoder on which [json.loads] fails with something else than a
    [JSONDecodeError] ([RecursionError] on arguments nested too
    deep). *)
Definition failing_decode (s : pystr) : option parsed_args := Some (BadArgs RuntimeError).

End LoopTerms.

Module BroadcastTerms.
Import PyStr Py VisProcessor.

(** Two sinks: the injection of the first fails, the second delivers. *)
Definition failing_sink : agent := {| agent_id := 1; inject_tts_voice_over := fun _ => AwaitRaises |}.
Definition working_sink : agent := {| agent_id := 2; inject_tts_voice_over := fun _ => Delivers |}.

End BroadcastTerms.

Module WorkerTerms.
Import PyStr Py Schemas Queues VisProcessor.

(** The counter of a queue covers the items it still holds. *)
Definition counted (b : bus) : Prop :=
  forall q, raw_llm_output_queue b = Some q -> length (items q) <= unfinished_tasks q.

(** The queue after a put that went through. *)
Definition pushed (q : queue message) (m : message) : queue message :=
  {| maxsize := maxsize q; items := items q ++ [m];
     unfinished_tasks := S (unfinished_tasks q) |}.

(** The queue takes [n] more messages without making the caller wait. *)
Definition room (q : queue message) (n : nat) : Prop :=
  (maxsize q <= 0)%Z \/ (Z.of_nat (length (items q)) + Z.of_nat n <= maxsize q)%Z.

(** A world with no rendering service, whose decision procedure finds
    nothing to enhance. *)
Definition plain_world : world :=
  {| make_decision := fun response _ =>
       Returned {| displayEnhancement := false;
                   displayEnhancedText := response;
                   voiceOverText := Some [] |};
     thesys_client := None;
     prepare := None;
     exn_text := fun _ => [] |}.

(** A turn of the text path. *)
Definition text_metadata : metadata :=
  {| source := Some text_chat; thread_id := Some (cp "t1"); message_id := Some (cp "m1") |}.

Definition text_turn : RawLLMOutput :=
  {| assistant_response := Some (cp "Here is the summary.");
     history := [];
     meta := Some text_metadata |}.

(** The queues initialised, with the given turn waiting. *)
Definition waiting (turn : RawLLMOutput) : wstate :=
  {| ws_bus := set_raw (initialize_queues 100 100 uninitialized)
                 {| maxsize := 100; items := [turn]; unfinished_tasks := 1 |};
     ws_sent := []; ws_uuids := 0; ws_decisions := 0 |}.

(** A turn of the voice path with an empty response. *)
Definition voice_metadata : metadata :=
  {| source := Some voice_agent; thread_id := Some (cp "t1"); message_id := None |}.

Definition empty_turn : RawLLMOutput :=
  {| assistant_response := Some []; history := []; meta := Some voice_metadata |}.

(** A turn of the voice path with a response text. *)
Definition voice_turn : RawLLMOutput :=
  {| assistant_response := Some (cp "It is sunny."); history := []; meta := Some voice_metadata |}.

(** Turns without a response: the text is missing; it is empty and the
    metadata names no source; it is empty and there is no metadata. *)
Definition null_turn : RawLLMOutput :=
  {| assistant_response := None; history := []; meta := Some voice_metadata |}.

Definition unsourced_turn : RawLLMOutput :=
  {| assistant_response := Some []; history := [];
     meta := Some {| source := None; thread_id := Some (cp "t1"); message_id := None |} |}.

Definition bare_empty_turn : RawLLMOutput :=
  {| assistant_response := Some []; history := []; meta := None |}.

(** A world whose decision procedure is cancelled while it is
    awaited. *)
Definition cancelled_world : world :=
  {| make_decision := fun _ _ => Raised CancelledError;
     thesys_client := None;
     prepare := None;
     exn_text := fun _ => [] |}.

(** The queues initialised and empty: the get waits. *)
Definition idle : wstate :=
  {| ws_bus := initialize_queues 100 100 uninitialized;
     ws_sent := []; ws_uuids := 0; ws_decisions := 0 |}.

(** A step of the worker that leaves the raw-output channel alone. *)
Definition keeps_raw {A : Type} (m : M A) : Prop :=
  forall s, raw_llm_output_queue (ws_bus (snd (m s))) = raw_llm_output_queue (ws_bus s).

(** A step of the worker that asks for no decision and only adds to
    the messages sent. *)
Definition reports {A : Type} (m : M A) : Prop :=
  forall s, ws_decisions (snd (m s)) = ws_decisions s
            /\ exists l, ws_sent (snd (m s)) = ws_sent s ++ l.

End WorkerTerms.

Module StoreTerms.
Import PyStr ChatHistory ChatHistoryStore.

(** The calls a client of the store can make, with the readings of the
    clock each one takes. *)
Inductive call :=
| Append (thread_id : pystr) (op : append_op) (t0 t1 : Z)
| GetHistory (thread_id : pystr) (now : Z)
| GetRecentHistory (thread_id : pystr) (max_messages : option Z) (now : Z)
| ClearHistory (thread_id : pystr) (now : Z)
| DeleteThread (thread_id : pystr)
| CleanupInactiveThreads (current_time : Z).

(** The store after a call. *)
Definition after (c : call) (m : ChatHistoryManager) : ChatHistoryManager :=
  match c with
  | Append thread_id op t0 t1 => run_op thread_id op t0 t1 m
  | GetHistory thread_id now => snd (get_history thread_id now m)
  | GetRecentHistory thread_id n now => snd (get_recent_history thread_id n now m)
  | ClearHistory thread_id now => clear_history thread_id now m
  | DeleteThread thread_id => delete_thread thread_id m
  | CleanupInactiveThreads now => snd (cleanup_inactive_threads now m)
  end.

(** The thread a call names, if it names one. *)
Definition target (c : call) : option pystr :=
  match c with
  | Append thread_id _ _ _ => Some thread_id
  | GetHistory thread_id _ => Some thread_id
  | GetRecentHistory thread_id _ _ => Some thread_id
  | ClearHistory thread_id _ => Some thread_id
  | DeleteThread thread_id => Some thread_id
  | CleanupInactiveThreads _ => None
  end.

(** The two dictionaries have the same keys and no thread is longer
    than the maximum. *)
Definition consistent (m : ChatHistoryManager) : Prop :=
  dom (_history m) = dom (_thread_metadata m)
  /\ forall thread_id h, _history m !! thread_id = Some h ->
       (Z.of_nat (length h) <= max_history_per_thread m)%Z.

(** A run of appends on one thread, each with its two readings of the
    clock. *)
Definition append_all (thread_id : pystr) (ops : list (append_op * (Z * Z)))
    (m : ChatHistoryManager) : ChatHistoryManager :=
  fold_left (fun m o => run_op thread_id (fst o) (fst (snd o)) (snd (snd o)) m) ops m.

(** A store with one thread last used at time 10 and one at time 100,
    threads being dropped after 50 idle seconds. *)
Definition two_threads : ChatHistoryManager :=
  run_op (cp "new") (AddUser (cp "hello") None) 100 100
    (run_op (cp "old") (AddUser (cp "hi") None) 10 10 (new_manager 5 50)).

End StoreTerms.

Module ChannelTerms.
Import PyStr Py Queues.

(** The calls a producer or a consumer can make on the two channels. *)
Inductive call :=
| EnqueueLlmMessage (m : message)
| EnqueueRawLlmOutput (response : pystr) (h : list history_entry) (md : option metadata)
| GetLlmMessage
| GetRawLlmOutput
| MarkLlmMessageDone
| MarkRawLlmOutputDone.

(** The channels after a call; a call that stays suspended or raises
    leaves them as the function leaves them. *)
Definition after (c : call) (b : bus) : bus :=
  match c with
  | EnqueueLlmMessage m => snd (enqueue_llm_message m b)
  | EnqueueRawLlmOutput response h md => snd (enqueue_raw_llm_output response h md b)
  | GetLlmMessage => snd (get_llm_message b)
  | GetRawLlmOutput => snd (get_raw_llm_output b)
  | MarkLlmMessageDone => snd (mark_llm_message_done b)
  | MarkRawLlmOutputDone => snd (mark_raw_llm_output_done b)
  end.

(** A queue made with the size [size] that holds no more than it may. *)
Definition within {A : Type} (size : Z) (q : option (queue A)) : Prop :=
  exists q0, q = Some q0 /\ maxsize q0 = size
             /\ ((0 < size)%Z -> (Z.of_nat (length (items q0)) <= size)%Z).

(** The messages enqueued one after the other. *)
Definition enqueue_all (ms : list message) (b : bus) : bus :=
  fold_left (fun b m => snd (enqueue_llm_message m b)) ms b.

(** What [n] calls of [get_llm_message] in a row give, and the channels
    after them. *)
Fixpoint receive (n : nat) (b : bus) : list (outcome message) * bus :=
  match n with
  | O => ([], b)
  | S n' =>
      let '(o, b1) := get_llm_message b in
      let '(os, b2) := receive n' b1 in
      (o :: os, b2)
  end.

End ChannelTerms.

Module GeneratorTerms.
Import PyStr Py Schemas StreamingParser ParserTerms StreamingGenerator.

(** A text free of white space. *)
Definition word (w : pystr) : Prop :=
  w <> [] /\ forallb (fun c => negb (is_space c)) w = true.

(** The state after a step, next to the state before it: the callback
    stays, the buffer stays, and a field buffer stays or takes the value
    captured in the buffer. *)
Definition follows (p p' : parser) : Prop :=
  has_callback p' = has_callback p /\ buffer p' = buffer p
  /\ forall g, fb_get (field_buffers p') g = fb_get (field_buffers p) g
               \/ fb_get (field_buffers p') g = captured g (buffer p).

(** Every field buffer is a prefix of the value captured in the
    buffer. *)
Definition lags (p : parser) : Prop :=
  forall g, exists d, captured g (buffer p) = fb_get (field_buffers p) g ++ d.

(** The text of a stream whose object is cut before its end, as one
    event per fragment. *)
Definition truncated_service : service :=
  {| first_completion := Returned NoFunctionCall;
     events := List.map Some truncated_stream;
     stream_failure := None |}.

(** A stream cancelled while it is read. *)
Definition cancelled_service : service :=
  {| first_completion := Returned NoFunctionCall;
     events := [];
     stream_failure := Some CancelledError |}.

(** A stream that gives a narration in three fragments. *)
Definition hello_service : service :=
  {| first_completion := Returned NoFunctionCall;
     events := List.map Some hello_stream;
     stream_failure := None |}.

(** The callback raises nothing but [Exception]s, whatever the text. *)
Definition raises_exceptions_only (callback : option (pystr -> option exn)) : Prop :=
  forall f t e, callback = Some f -> f t = Some e -> is_Exception e = true.

(** A callback whose every call fails, and one that is cancelled on the
    first text it is called with. *)
Definition failing_callback : option (pystr -> option exn) :=
  Some (fun _ => Some RuntimeError).

Definition cancelled_callback : option (pystr -> option exn) :=
  Some (fun _ => Some CancelledError).

End GeneratorTerms.

Module TranscriptTerms.
Import PyStr Py Schemas DecisionLoop LoopTerms.

(** A callback that takes every text. *)
Definition listener : option (option pystr -> option exn) := Some (fun _ => None).

(** One tool round, then the decision: the model calls a tool, and in
    the next round the synthetic function with an enhancement. *)
Definition decision_call : delta :=
  {| d_function_call := Some (Some finalize_name, Some (cp "{...}"));
     d_content := None |}.

Definition deciding_rounds (i : nat) : round :=
  {| deltas := if Nat.eqb i 1 then [Some tool_call] else [Some decision_call];
     stream_error := None;
     tool_result := cp "Sunny" |}.

Definition sunny_args : decision_args :=
  {| arg_displayEnhancement := Some true;
     arg_displayEnhancedText := Some (cp "Sunny, 72 degrees");
     arg_voiceOverText := Some (Some (cp "It is sunny.")) |}.

Definition sunny_decode (s : pystr) : option parsed_args :=
  if bool_decide (s = cp "{...}") then Some (Args sunny_args) else None.

(** A direct answer in two fragments. *)
Definition answering_rounds (i : nat) : round :=
  {| deltas := [Some {| d_function_call := None; d_content := Some (cp "It is ") |};
                None;
                Some {| d_function_call := None; d_content := Some (cp "sunny.") |}];
     stream_error := None;
     tool_result := [] |}.

(** A stream that is cancelled. *)
Definition cancelled_rounds (i : nat) : round :=
  {| deltas := []; stream_error := Some CancelledError; tool_result := [] |}.

End TranscriptTerms.

Module TurnTerms.
Import PyStr Py Schemas Queues VisProcessor WorkerTerms.

(** The decision step 1 of the worker comes to for a turn: the one made
    up for the text path, or the one the decision loop returns. *)
Definition decided (w : world) (src response : pystr) (h : list history_entry)
    (d : EnhancementDecision) : Prop :=
  (src = text_chat
   /\ d = {| displayEnhancement := true; displayEnhancedText := response;
             voiceOverText := None |})
  \/ (src <> text_chat /\ make_decision w response h = Returned d).

(** The identifier the streamed rendering of a turn goes under: the
    message id of the turn, or else the identifier drawn for it. *)
Definition rendering_id (md : metadata) (drawn : ident) : ident :=
  match message_id md with Some i => Ident i | None => drawn end.

(** The message that carries a payload to the frontend, by source. *)
Definition carried (src : pystr) (md : metadata) (u : ident) (content : payload) : message :=
  if bool_decide (src = text_chat)
  then TextChatResponse u content (thread_id md)
  else VoiceResponse u content (Some []) false.

(** The payload the worker falls back on when it cannot stream a
    rendering: the static card of the display text when no rendering
    service is set, the warning when the request for the rendering
    cannot be built. *)
Definition fallback_payload (w : world) (d : EnhancementDecision) : option payload :=
  match thesys_client w with
  | None => Some (SimpleCard (displayEnhancedText d))
  | Some _ =>
      match prepare w with
      | Some e =>
          if is_Exception e
          then Some (Callout (cp "warning") (cp "Visualization Error")
                             (cp "Failed to generate UI: " ++ exn_text w e))
          else None
      | None => None
      end
  end.

(** A step of the worker that, on a channel to the frontend that never
    makes it wait, leaves such a channel and raises nothing but
    [Exception]s. *)
Definition tame {A : Type} (m : M A) : Prop :=
  forall s, (forall q, llm_message_queue (ws_bus s) = Some q -> (maxsize q <= 0)%Z) ->
    (forall q, llm_message_queue (ws_bus (snd (m s))) = Some q -> (maxsize q <= 0)%Z)
    /\ forall e, fst (m s) = Raised e -> is_Exception e = true.

(** [n] iterations of the loop in a row, stopping at the first one that
    lets an exception out: the state, the number of acknowledgments,
    and that exception. *)
Fixpoint iterations (w : world) (n : nat) (s : wstate) : wstate * nat * option exn :=
  match n with
  | O => (s, 0, None)
  | S n' =>
      let r := iteration w s in
      match propagated r with
      | Some e => (final r, if acknowledged r then 1 else 0, Some e)
      | None =>
          let '(s', acks, e) := iterations w n' (final r) in
          (s', (if acknowledged r then 1 else 0) + acks, e)
      end
  end.

(** A turn with a response text and with metadata. *)
Definition complete (turn : RawLLMOutput) : Prop :=
  assistant_response turn <> None /\ meta turn <> None.

(** The channel to the frontend never makes the worker wait: it is not
    initialised, or it is unbounded. *)
Definition never_waits (b : bus) : Prop :=
  forall q, llm_message_queue b = Some q -> (maxsize q <= 0)%Z.

(** A world with a rendering service that answers in two fragments. *)
Definition rendering_world : world :=
  {| make_decision := fun response _ =>
       Returned {| displayEnhancement := true;
                   displayEnhancedText := response;
                   voiceOverText := Some (cp "Here it is.") |};
     thesys_client := Some [cp "<content>"; cp "</content>"];
     prepare := None;
     exn_text := fun _ => [] |}.

(** A world whose request for the rendering cannot be built. *)
Definition broken_world : world :=
  {| make_decision := make_decision rendering_world;
     thesys_client := Some [];
     prepare := Some OtherException;
     exn_text := fun _ => cp "no prompt file" |}.

(** A turn without metadata. *)
Definition bare_turn : RawLLMOutput :=
  {| assistant_response := Some (cp "It is sunny."); history := []; meta := None |}.

(** The queues initialised, unbounded to the frontend, with the given
    turns waiting. *)
Definition queued (turns : list RawLLMOutput) : wstate :=
  {| ws_bus := {| llm_message_queue := Some (new_queue 0);
                  raw_llm_output_queue :=
                    Some {| maxsize := 100; items := turns;
                            unfinished_tasks := length turns |} |};
     ws_sent := []; ws_uuids := 0; ws_decisions := 0 |}.

(** The calls on the registry of voice agents. *)
Inductive registry_call :=
| Register (a : agent)
| Unregister (a : agent).

Definition registry_after (c : registry_call) (r : registry) : registry :=
  match c with
  | Register a => register_voice_agent a r
  | Unregister a => unregister_voice_agent a r
  end.

(** How often the entrypoint of the agent [id] is called in a
    broadcast. *)
Definition invocations (id : nat) (events : list sink_event) : nat :=
  length (List.filter (fun e => match e with
                                | Invoked i _ => Nat.eqb i id
                                | Delivered _ _ => false
                                end) events).

End TurnTerms.

Module McpTerms.
Import PyStr Py McpClient.

(** The name of an environment variable as the pattern takes it. *)
Definition variable_name (name : pystr) : Prop :=
  match name with
  | [] => False
  | c :: cs => name_start c = true /\ forallb name_char cs = true
  end.

(** A text begins with [Error]. *)
Definition error_text (text : pystr) : Prop := exists rest, text = cp "Error" ++ rest.

(** An environment with one variable, whose value looks like a
    placeholder itself. *)
Definition one_variable (name : pystr) : option pystr :=
  if bool_decide (name = cp "API_KEY") then Some (cp "{HOST}") else None.

(** The text of a result that does not carry the error flag. *)
Definition plain_text (r : tool_result) : pystr :=
  match result_content r with
  | Some text :: _ => text
  | _ => cp "No result"
  end.

(** One HTTP tool, whose server times out. *)
Definition one_tool : gmap pystr tool_info :=
  {[ cp "crm_search" := {| tool_name := cp "search"; via := Http |} ]}.

Definition timing_out (name : pystr) (args : unit) : result tool_result :=
  Raised TimeoutError.

End McpTerms.

Module ChatTerms.
Import PyStr Py Queues ChatHistory ChatHistoryStore HistoryTerms ChatRoute.

(** The dictionary of an assistant message without an id. *)
Definition assistant_entry (response : pystr) : message :=
  {| role := cp "assistant"; content := Some response; name := None;
     function_call := None; id := None |}.

(** The conversation history [_process_chat_logic] hands to
    [chat_with_tools]: the recent history of the thread, read after the
    message of the user is stored. *)
Definition handed_history (msg thread_id : pystr) (is_c1_action : bool) (t : readings)
    (m : ChatHistoryManager) : list message :=
  fst (get_recent_history thread_id None (at_recent_0 t)
         (if is_c1_action
          then add_c1_action thread_id msg (at_user_0 t) (at_user_1 t) m
          else add_user_message thread_id msg None (at_user_0 t) (at_user_1 t) m)).

(** A model that answers every request with the same text. *)
Definition echo (messages : list message) (with_functions : bool) : result completion :=
  Returned {| reply_content := Some (cp "Hello!"); reply_function_call := None |}.

Definition noon : readings :=
  {| at_user_0 := 0; at_user_1 := 0; at_recent_0 := 0;
     at_assistant_0 := 1; at_assistant_1 := 1; at_recent_1 := 1 |}.

(** A new application: an empty store and two empty channels. *)
Definition fresh : app :=
  {| store_of := new_manager 50 3600;
     channels := initialize_queues 100 100 uninitialized;
     drawn := 0 |}.

End ChatTerms.

(* ===================================================================== *)
(** * Properties *)
(* ===================================================================== *)

Module ParserFacts.
Import PyStr Py Schemas StreamingParser ParserTerms.

(** ** The model on small inputs *)

Example split_words : split (cp "  Hello   there ") = [cp "Hello"; cp "there"].
Proof. reflexivity. Qed.

Example strip_both_ends : strip (cp "  {a}  ") = cp "{a}".
Proof. reflexivity. Qed.

(** A newline escape is decoded; a lone backslash and an unknown escape
    are decoding errors. *)
Example unescape_newline : Json.loads_quoted (cp "a\nb") = Some [97; 10; 98]%N.
Proof. reflexivity. Qed.

Example unescape_lone_backslash : Json.loads_quoted [backslash] = None.
Proof. reflexivity. Qed.

Example unescape_unknown_escape : Json.loads_quoted (cp "\q") = None.
Proof. reflexivity. Qed.

Example unescape_surrogate_pair :
  Json.loads_quoted (cp "\ud83d\ude00") = Some [128512%N].
Proof. reflexivity. Qed.

(** The pattern finds a value between quotes, closed or not, and does
    not find a bare literal. *)
Example search_closed_value :
  re_search (cp "voiceOverText") (cp "{" ++ text_field "voiceOverText" "Hi" ++ cp "}")
  = Some (cp "Hi").
Proof. reflexivity. Qed.

Example search_open_value :
  re_search (cp "voiceOverText") (cp "{" ++ open_field "voiceOverText" "Hel") = Some (cp "Hel").
Proof. reflexivity. Qed.

Example search_bare_literal :
  re_search (cp "displayEnhancement") flag_chunk = None.
Proof. reflexivity. Qed.

Example clean_fenced_object :
  clean_fences (fence ++ cp "json" ++ [newline] ++ cp "{}" ++ [newline] ++ fence) = cp "{}".
Proof. reflexivity. Qed.

(** ** Prefixes, runs and quotes *)

Lemma strip_prefix_Some p s r : strip_prefix p s = Some r -> s = p ++ r.
Proof.
  revert s; induction p as [|a p IH]; intros s H; simpl in *.
  - now inversion H.
  - destruct s as [|b s]; [discriminate|].
    destruct (N.eqb_spec a b); [|discriminate].
    subst; f_equal; auto.
Qed.

Lemma strip_prefix_app p s r c :
  strip_prefix p s = Some r -> strip_prefix p (s ++ c) = Some (r ++ c).
Proof.
  revert s; induction p as [|a p IH]; intros s H; simpl in *.
  - now inversion H.
  - destruct s as [|b s]; [discriminate|]; simpl.
    destruct (a =? b)%N; [auto|discriminate].
Qed.

(** When the prefix is only found after an extension, the text was a
    part of the prefix. *)
Lemma strip_prefix_late p s c r :
  strip_prefix p s = None -> strip_prefix p (s ++ c) = Some r ->
  exists p2, p = s ++ p2.
Proof.
  revert s; induction p as [|a p IH]; intros s H1 H2; simpl in *.
  - discriminate.
  - destruct s as [|b s].
    + now exists (a :: p).
    + simpl in H2. destruct (N.eqb_spec a b); [|discriminate].
      subst. destruct (IH s H1 H2) as [p2 ->]. now exists p2.
Qed.

Lemma drop_while_app f s a r c :
  drop_while f s = a :: r -> drop_while f (s ++ c) = a :: r ++ c.
Proof.
  induction s as [|x s IH]; simpl; [discriminate|].
  destruct (f x); [auto|]. intros H; now inversion H.
Qed.

Lemma quotes_app s t : quotes (s ++ t) = quotes s + quotes t.
Proof. apply count_occ_app. Qed.

Lemma quotes_drop_while_space s : quotes (drop_while is_space s) = quotes s.
Proof.
  induction s as [|x s IH]; simpl; [reflexivity|].
  destruct (is_space x) eqn:E; [|reflexivity].
  rewrite IH. unfold quotes; simpl.
  destruct (N.eq_dec x dq) as [->|]; [discriminate E|reflexivity].
Qed.

Lemma drop_while_nil_quotes s : drop_while is_space s = [] -> quotes s = 0.
Proof. intros H. rewrite <- quotes_drop_while_space, H. reflexivity. Qed.

(** ** The header of a field *)

Lemma match_header_app name s r c :
  match_header name s = Some r -> match_header name (s ++ c) = Some (r ++ c).
Proof.
  unfold match_header.
  destruct (strip_prefix _ s) as [s1|] eqn:E1; [|discriminate].
  rewrite (strip_prefix_app _ _ _ c E1).
  destruct (drop_while is_space s1) as [|x s2] eqn:E2; [discriminate|].
  rewrite (drop_while_app _ _ _ _ c E2).
  destruct (x =? colon)%N; [|discriminate].
  destruct (drop_while is_space s2) as [|y s3] eqn:E3; [discriminate|].
  rewrite (drop_while_app _ _ _ _ c E3).
  destruct (y =? dq)%N; [|discriminate].
  intros H; now inversion H.
Qed.

Lemma match_header_quotes name s r :
  match_header name s = Some r -> 3 <= quotes s.
Proof.
  unfold match_header.
  destruct (strip_prefix _ s) as [s1|] eqn:E1; [|discriminate].
  apply strip_prefix_Some in E1.
  destruct (drop_while is_space s1) as [|x s2] eqn:E2; [discriminate|].
  destruct (x =? colon)%N; [|discriminate].
  destruct (drop_while is_space s2) as [|y s3] eqn:E3; [discriminate|].
  destruct (N.eqb_spec y dq); [|discriminate]. intros _.
  subst s y.
  pose proof (quotes_drop_while_space s1) as Q1. rewrite E2 in Q1.
  pose proof (quotes_drop_while_space s2) as Q2. rewrite E3 in Q2.
  change (dq :: name ++ [dq]) with ([dq] ++ name ++ [dq]).
  rewrite !quotes_app.
  assert (quotes (x :: s2) >= quotes s2).
  { unfold quotes; simpl. destruct (N.eq_dec x dq); lia. }
  assert (quotes (dq :: s3) >= 1).
  { unfold quotes; simpl. destruct (N.eq_dec dq dq); [lia|congruence]. }
  assert (quotes [dq] = 1) by reflexivity.
  lia.
Qed.

Lemma quotes_prefix s p2 : quotes s <= quotes (s ++ p2).
Proof. rewrite quotes_app; lia. Qed.

(** A text on which the header only matches after an extension holds
    at most the two quotes of the name. *)
Lemma match_header_late name s c r :
  quotes name = 0 ->
  match_header name s = None -> match_header name (s ++ c) = Some r ->
  quotes s <= 2.
Proof.
  intros Hn. unfold match_header.
  destruct (strip_prefix _ s) as [s1|] eqn:E1.
  - rewrite (strip_prefix_app _ _ _ c E1).
    apply strip_prefix_Some in E1.
    assert (Hs : quotes s = 2 + quotes s1).
    { subst s. change (dq :: name ++ [dq]) with ([dq] ++ name ++ [dq]).
      rewrite !quotes_app, Hn. reflexivity. }
    destruct (drop_while is_space s1) as [|x s2] eqn:E2.
    + intros _ _. apply drop_while_nil_quotes in E2. lia.
    + rewrite (drop_while_app _ _ _ _ c E2).
      destruct (N.eqb_spec x colon); [|discriminate].
      pose proof (quotes_drop_while_space s1) as Q1. rewrite E2 in Q1.
      assert (quotes (x :: s2) = quotes s2).
      { subst x. reflexivity. }
      destruct (drop_while is_space s2) as [|y s3] eqn:E3.
      * intros _ _. apply drop_while_nil_quotes in E3. lia.
      * rewrite (drop_while_app _ _ _ _ c E3).
        destruct (y =? dq)%N; discriminate.
  - intros _ H.
    destruct (strip_prefix _ (s ++ c)) as [s1|] eqn:E2; [|discriminate].
    destruct (strip_prefix_late _ _ _ _ E1 E2) as [p2 Hp].
    pose proof (quotes_prefix s p2) as Hq. rewrite <- Hp in Hq.
    change (dq :: name ++ [dq]) with ([dq] ++ name ++ [dq]) in Hq.
    rewrite !quotes_app, Hn in Hq. simpl in Hq.
    change (quotes [dq]) with 1 in Hq. lia.
Qed.

Lemma search_header_quotes name s r :
  search_header name s = Some r -> 3 <= quotes s.
Proof.
  induction s as [|a s IH]; simpl.
  - discriminate.
  - destruct (match_header name (a :: s)) eqn:E.
    + intros _. eapply match_header_quotes; eauto.
    + intros H. specialize (IH H). unfold quotes in *; simpl.
      destruct (N.eq_dec a dq); lia.
Qed.

(** The leftmost match stays where it is when the buffer grows. *)
Lemma search_header_app name s r c :
  quotes name = 0 ->
  search_header name s = Some r -> search_header name (s ++ c) = Some (r ++ c).
Proof.
  intros Hn. induction s as [|a s IH]; simpl.
  - discriminate.
  - destruct (match_header name (a :: s)) eqn:E.
    + intros H; inversion H; subst.
      apply (match_header_app _ _ _ c) in E. simpl in E. now rewrite E.
    + intros H.
      destruct (match_header name (a :: s ++ c)) eqn:E2.
      * exfalso.
        pose proof (match_header_late name (a :: s) c _ Hn E E2).
        pose proof (search_header_quotes _ _ _ H).
        unfold quotes in *; simpl in *. destruct (N.eq_dec a dq); lia.
      * auto.
Qed.

Lemma take_while_app f s c :
  exists d, take_while f (s ++ c) = take_while f s ++ d.
Proof.
  induction s as [|x s [d IH]]; simpl.
  - now exists (take_while f c).
  - destruct (f x).
    + exists d. now rewrite IH.
    + now exists [].
Qed.

Lemma field_name_quotes f : quotes (field_name f) = 0.
Proof. destruct f; reflexivity. Qed.

(** It only grows, at its end, when the buffer grows. *)
Lemma captured_app f buf c :
  exists d, captured f (buf ++ c) = captured f buf ++ d.
Proof.
  unfold captured, re_search.
  destruct (search_header (field_name f) buf) as [r|] eqn:E; simpl.
  - rewrite (search_header_app _ _ _ c (field_name_quotes f) E). simpl.
    apply take_while_app.
  - eexists. reflexivity.
Qed.

(** ** Text without quotes and backslashes is its own decoding *)

(** The decoder copies such a text, or stops at a control character. *)
Lemma scanstring_unescaped s : forall fuel acc rest,
  forallb unescaped s = true -> length s < fuel ->
  Json.scanstring fuel (s ++ dq :: rest) acc = Some (rev acc ++ s, rest)
  \/ Json.scanstring fuel (s ++ dq :: rest) acc = None.
Proof.
  induction s as [|c s IH]; intros fuel acc rest Hp Hf.
  - destruct fuel; [simpl in Hf; lia|]. left. simpl. now rewrite app_nil_r.
  - destruct fuel; [simpl in Hf; lia|]. simpl in *.
    apply andb_true_iff in Hp as [Hc Hs]. unfold unescaped in Hc.
    apply andb_true_iff in Hc as [H1 H2].
    apply negb_true_iff in H1, H2. rewrite H1, H2.
    destruct (c <? 32)%N; [now right|].
    destruct (IH fuel (c :: acc) rest Hs ltac:(lia)) as [-> | ->]; [left|now right].
    simpl. now rewrite <- app_assoc.
Qed.

(** Either way the delta is the raw text. *)
Lemma unescape_or_raw_unescaped s : forallb unescaped s = true -> unescape_or_raw s = s.
Proof.
  intros Hp. unfold unescape_or_raw, Json.loads_quoted.
  destruct (scanstring_unescaped s (S (length s)) [] [] Hp ltac:(lia)) as [-> | ->];
    reflexivity.
Qed.

Lemma forallb_take_while f s : forallb f (take_while f s) = true.
Proof.
  induction s as [|c s IH]; simpl; [reflexivity|].
  destruct (f c) eqn:E; simpl; [now rewrite E|reflexivity].
Qed.

(** The value captured for a field holds no quote. *)
Lemma captured_no_quote f buf : forallb not_dq (captured f buf) = true.
Proof.
  unfold captured, re_search.
  destruct (search_header (field_name f) buf); simpl; [|reflexivity].
  apply forallb_take_while.
Qed.

(** ** What one call does to the narration field *)

Lemma extract_voice p b0 c :
  buffer p = b0 ++ c -> voice p = captured VoiceOverText b0 ->
  exists d,
    let '(p1, m) := _extract_streaming_field_content VoiceOverText p in
    buffer p1 = buffer p /\ has_callback p1 = has_callback p
    /\ voice_disabled p1 = voice_disabled p
    /\ enhancement_flag p1 = enhancement_flag p
    /\ voice p1 = voice p ++ d /\ in_step p1
    /\ m = match d with [] => None | _ => Some (unescape_or_raw d) end.
Proof.
  intros Hb Hv.
  destruct (captured_app VoiceOverText b0 c) as [d Hd].
  rewrite <- Hb, <- Hv in Hd. clear Hb Hv.
  exists d. unfold _extract_streaming_field_content, in_step.
  unfold captured in *.
  change (fb_get (field_buffers p) VoiceOverText) with (voice p).
  destruct (re_search (field_name VoiceOverText) (buffer p)) as [cur|] eqn:E.
  - change (cur = voice p ++ d) in Hd. subst cur.
    destruct d as [|x d].
    + rewrite app_nil_r, Nat.ltb_irrefl. rewrite E.
      rewrite app_nil_r. repeat split; reflexivity.
    + replace (length (voice p) <? length (voice p ++ x :: d)) with true
        by (symmetry; apply Nat.ltb_lt; rewrite length_app; simpl; lia).
      cbn [buffer has_callback voice_disabled enhancement_flag field_buffers voice
           fb_set fb_voiceOverText].
      rewrite E, drop_app_length. repeat split; reflexivity.
  - change ([] = voice p ++ d) in Hd. rewrite E.
    symmetry in Hd. apply app_eq_nil in Hd as [Hv ->].
    rewrite Hv. repeat split; reflexivity.
Qed.

Lemma extract_other f p :
  f <> VoiceOverText ->
  let '(p1, _) := _extract_streaming_field_content f p in
  buffer p1 = buffer p /\ has_callback p1 = has_callback p
  /\ voice_disabled p1 = voice_disabled p /\ voice p1 = voice p.
Proof.
  intros Hf. unfold _extract_streaming_field_content.
  destruct (re_search _ _); [|repeat split; reflexivity].
  destruct (_ <? _); [|repeat split; reflexivity].
  destruct f; try congruence; repeat split; reflexivity.
Qed.

Section Steps.

Variable json_loads : pystr -> option pyval.

Lemma extract_display_facts p :
  let r := extract_display p in
  buffer (next r) = buffer p /\ has_callback (next r) = has_callback p
  /\ voice_disabled (next r) = voice_disabled p /\ voice (next r) = voice p
  /\ delta_of r = [] /\ injected r = [].
Proof.
  unfold extract_display.
  pose proof (extract_other DisplayEnhancedText p) as H.
  destruct (_extract_streaming_field_content DisplayEnhancedText p) as [p3 m].
  destruct H as (?&?&?&?); [discriminate|].
  destruct (truthy_opt m); repeat split; assumption.
Qed.

Lemma extract_enhancement_facts p :
  let r := extract_enhancement json_loads p in
  buffer (next r) = buffer p /\ has_callback (next r) = has_callback p
  /\ (voice_disabled p = true -> voice_disabled (next r) = true)
  /\ (voice_disabled (next r) = false -> voice_disabled p = false)
  /\ voice (next r) = voice p /\ delta_of r = [] /\ injected r = [].
Proof.
  unfold extract_enhancement.
  pose proof (extract_other DisplayEnhancement p) as H.
  destruct (_extract_streaming_field_content DisplayEnhancement p) as [p2 m].
  destruct H as (Hb & Hc & Hd & Hv); [discriminate|].
  assert (Hmono : forall q, buffer q = buffer p2 -> has_callback q = has_callback p2 ->
            (voice_disabled p2 = true -> voice_disabled q = true) ->
            (voice_disabled q = false -> voice_disabled p2 = false) ->
            voice q = voice p2 ->
            let r := extract_display q in
            buffer (next r) = buffer p /\ has_callback (next r) = has_callback p
            /\ (voice_disabled p = true -> voice_disabled (next r) = true)
            /\ (voice_disabled (next r) = false -> voice_disabled p = false)
            /\ voice (next r) = voice p /\ delta_of r = [] /\ injected r = []).
  { intros q Q1 Q2 Q3 Q4 Q5.
    destruct (extract_display_facts q) as (E1 & E2 & E3 & E4 & E5 & E6).
    cbv zeta. rewrite E1, E2, E3, E4. repeat split; try congruence.
    - intros. apply Q3. congruence.
    - intros. rewrite <- Hd. auto. }
  destruct (truthy_opt m).
  - destruct (json_loads _).
    + unfold voice, delta_of in *. cbn. repeat split; intros; try congruence.
    + apply Hmono; destruct (is_False _); cbn; intros; auto; congruence.
  - apply Hmono; auto.
Qed.

(** One call on a buffer that grew by [c]. *)
Lemma extract_field_content_facts p b0 c :
  buffer p = b0 ++ c -> voice p = captured VoiceOverText b0 ->
  let r := _extract_field_content json_loads p in
  in_step (next r) /\ buffer (next r) = buffer p
  /\ has_callback (next r) = has_callback p
  /\ (voice_disabled p = true -> voice_disabled (next r) = true)
  /\ (voice_disabled p = true -> injected r = [])
  /\ exists d, voice (next r) = voice p ++ d
       /\ (voice_disabled (next r) = false -> delta_of r = unescape_or_raw d).
Proof.
  intros Hb Hv. unfold _extract_field_content.
  destruct (extract_voice p b0 c Hb Hv) as [d H].
  destruct (_extract_streaming_field_content VoiceOverText p) as [p1 m].
  destruct H as (H1 & H2 & H3 & H4 & H5 & H6 & H7).
  destruct (truthy_opt m && negb (voice_disabled p1)) eqn:E.
  - apply andb_true_iff in E as [Em Ed]. apply negb_true_iff in Ed.
    cbn. repeat split; intros; try assumption; try congruence.
    exists d. split; [assumption|]. intros _. unfold delta_of; cbn.
    subst m. destruct d; [discriminate Em|]. reflexivity.
  - destruct (extract_enhancement_facts p1) as (F1 & F2 & F3 & F4 & F5 & F6 & F7).
    cbv zeta. unfold in_step in *.
    repeat split; intros; try congruence.
    + apply F3. congruence.
    + exists d. split; [congruence|]. intros Hn. rewrite F6.
      destruct d as [|x d]; [reflexivity|].
      apply F4 in Hn. rewrite Hn in E. subst m. cbn in E.
      rewrite andb_true_r in E.
      destruct (unescape_or_raw (x :: d)); [reflexivity|discriminate].
Qed.

Lemma process_chunk_facts p chunk :
  in_step p ->
  let r := process_chunk json_loads p chunk in
  in_step (next r) /\ buffer (next r) = buffer p ++ chunk
  /\ has_callback (next r) = has_callback p
  /\ (voice_disabled p = true -> voice_disabled (next r) = true)
  /\ (voice_disabled p = true -> injected r = [])
  /\ exists d, voice (next r) = voice p ++ d
       /\ (voice_disabled (next r) = false -> delta_of r = unescape_or_raw d).
Proof.
  intros Hp. unfold process_chunk.
  destruct chunk as [|x chunk]; cbn [truthy].
  - cbn. rewrite app_nil_r. repeat split; auto.
    exists []. rewrite app_nil_r. auto.
  - destruct (extract_field_content_facts (append_buffer p (x :: chunk))
                (buffer p) (x :: chunk) eq_refl Hp) as (G1 & G2 & G3 & G4 & G5 & G6).
    repeat split; auto.
Qed.

Lemma concat_deltas_cons r rs :
  List.concat (narration_deltas (r :: rs)) = delta_of r ++ List.concat (narration_deltas rs).
Proof.
  unfold narration_deltas, delta_of. cbn [List.map List.concat].
  rewrite concat_app. f_equal.
  destruct (returned r) as [c|]; [|reflexivity].
  destruct (kind c); cbn; auto using app_nil_r.
Qed.

(** The piece a call adds to the narration value is the growth of the
    captured value. *)
Lemma process_chunk_growth p chunk d :
  in_step p -> in_step (next (process_chunk json_loads p chunk)) ->
  buffer (next (process_chunk json_loads p chunk)) = buffer p ++ chunk ->
  voice (next (process_chunk json_loads p chunk)) = voice p ++ d ->
  d = drop (length (captured VoiceOverText (buffer p)))
           (captured VoiceOverText (buffer p ++ chunk)).
Proof.
  unfold in_step. intros Hp Hn Hb Hv. rewrite <- Hb, <- Hn, Hv, <- Hp.
  now rewrite drop_app_length.
Qed.

(** A run of calls. *)
Lemma process_chunks_facts chunks : forall p,
  in_step p ->
  let '(p', rs) := process_chunks json_loads p chunks in
  in_step p'
  /\ (voice_disabled p = true -> voice_disabled p' = true /\ narration_injected rs = [])
  /\ voice p' = voice p ++ List.concat (growth (buffer p) chunks)
  /\ (voice_disabled p' = false ->
      List.concat (narration_deltas rs)
      = List.concat (List.map unescape_or_raw (growth (buffer p) chunks))).
Proof.
  induction chunks as [|c rest IH]; intros p Hp.
  - cbn. repeat split; auto. now rewrite app_nil_r.
  - cbn [process_chunks growth List.map List.concat].
    destruct (process_chunk_facts p c Hp) as (G1 & G2 & G3 & G4 & G5 & d1 & G6 & G7).
    pose proof (process_chunk_growth p c d1 Hp G1 G2 G6) as Gd.
    specialize (IH (next (process_chunk json_loads p c)) G1).
    destruct (process_chunks json_loads (next (process_chunk json_loads p c)) rest)
      as [p' rs].
    destruct IH as (I1 & I2 & I3 & I4). rewrite G2 in I3, I4. rewrite <- Gd.
    split; [assumption|]. split; [|split].
    + intros Hd. destruct (I2 (G4 Hd)) as [I5 I6]. split; [assumption|].
      unfold narration_injected in *. cbn. now rewrite (G5 Hd), I6.
    + rewrite I3, G6. now rewrite app_assoc.
    + intros Hn. rewrite concat_deltas_cons. f_equal; [|auto].
      apply G7.
      destruct (voice_disabled (next (process_chunk json_loads p c))) eqn:E; [|reflexivity].
      destruct (I2 eq_refl). congruence.
Qed.

(** Once narration is disabled, no later call hands a text to the
    callback. *)
Lemma disabled_stays_silent chunks p :
  in_step p -> voice_disabled p = true ->
  narration_injected (snd (process_chunks json_loads p chunks)) = [].
Proof.
  intros Hp Hd. pose proof (process_chunks_facts chunks p Hp) as H.
  destruct (process_chunks json_loads p chunks) as [p' rs].
  destruct H as (_ & H & _). now destruct (H Hd).
Qed.

End Steps.

(** ** Concrete streams *)

(** *** The flag resolves to false, narration goes on *)

(** C3 (the code at the failing input): the stream gives the flag as
    the literal [false] and then the narration.  The field pattern
    wants a quote after the colon, so the literal is never captured:
    the flag stays unset, narration stays enabled, and both words of
    the narration that follows are handed to the voice callback. *)
Theorem C3_narration_after_false_flag (json_loads : pystr -> option pyval) :
  let '(p, rs) := process_chunks json_loads (init true) [flag_chunk; voice_chunk] in
  enhancement_flag p = PyNone
  /\ voice_disabled p = false
  /\ narration_injected rs = [cp "Hello "; cp "there "].
Proof. vm_compute. repeat split. Qed.

(** With the value between quotes the flag is captured and resolves to
    [False], but the call returns before narration is disabled: the
    words that follow are still handed to the callback. *)
Lemma narration_after_quoted_false_flag (json_loads : pystr -> option pyval) :
  json_loads (cp "false") = Some (PyBool false) ->
  let '(p, rs) := process_chunks json_loads (init true) [quoted_flag_chunk; voice_chunk] in
  enhancement_flag p = PyBool false
  /\ voice_disabled p = false
  /\ narration_injected rs = [cp "Hello "; cp "there "].
Proof.
  intros H. cbn [process_chunks].
  set (r1 := process_chunk json_loads (init true) quoted_flag_chunk).
  assert (E1 : r1 = {| next := set_flag
                        (fst (_extract_streaming_field_content DisplayEnhancement
                               (append_buffer (init true) quoted_flag_chunk)))
                        (PyBool false);
                      returned := Some (mk_chunk (cp "false") Metadata);
                      injected := [] |}).
  { unfold r1, process_chunk. cbn [truthy quoted_flag_chunk].
    unfold _extract_field_content.
    replace (_extract_streaming_field_content VoiceOverText
               (append_buffer (init true) quoted_flag_chunk))
      with (append_buffer (init true) quoted_flag_chunk, @None pystr)
      by (vm_compute; reflexivity).
    cbn [truthy_opt andb]. unfold extract_enhancement.
    replace (_extract_streaming_field_content DisplayEnhancement
               (append_buffer (init true) quoted_flag_chunk))
      with (fst (_extract_streaming_field_content DisplayEnhancement
                   (append_buffer (init true) quoted_flag_chunk)), Some (cp "false"))
      by (vm_compute; reflexivity).
    cbn [truthy_opt truthy cp default].
    replace (lower _) with (cp "false") by (vm_compute; reflexivity).
    rewrite H. reflexivity. }
  rewrite E1. cbn [next]. vm_compute. repeat split.
Qed.

(** *** The delta-concatenation law *)

(** C6 (counterexample): on this stream the narration deltas are the
    decoded [x], newline, [y], then a lone backslash, then [tz]; their
    concatenation has six code points, with a newline and a raw
    backslash-t.  The value captured for the field is the raw text of
    seven code points, and its decoding has five: the concatenation is
    neither. *)
Lemma C6_counterexample_escaped_deltas :
  let '(p, rs) := process_chunks literal_loads (init true) escaped_stream in
  narration_deltas rs = [[120; 10; 121]; [backslash]; cp "tz"]%N
  /\ fb_voiceOverText (field_buffers p) = cp "x\ny\tz"
  /\ List.concat (narration_deltas rs) <> fb_voiceOverText (field_buffers p)
  /\ Some (List.concat (narration_deltas rs))
       <> Json.loads_quoted (fb_voiceOverText (field_buffers p)).
Proof. vm_compute. repeat split; discriminate. Qed.

(** Narration that is disabled on the way gives no delta for what is
    captured afterwards: on this stream the value captured is [Hello]
    and no delta was returned. *)
Lemma disabled_narration_gives_no_delta :
  let '(p, rs) := process_chunks literal_loads (init true) disabling_stream in
  voice_disabled p = true
  /\ fb_voiceOverText (field_buffers p) = cp "Hello"
  /\ narration_deltas rs = [].
Proof. vm_compute. repeat split. Qed.

Lemma map_unescape_or_raw pieces :
  forallb unescaped (List.concat pieces) = true ->
  List.map unescape_or_raw pieces = pieces.
Proof.
  induction pieces as [|d pieces IH]; cbn [List.concat List.map]; [reflexivity|].
  rewrite forallb_app. intros H. apply andb_true_iff in H as [H1 H2].
  now rewrite unescape_or_raw_unescaped, IH.
Qed.

(** C6 (amended): for every sequence of fragments after which narration
    is still enabled, the narration deltas, concatenated in emission
    order, are the decodings of the pieces by which the value captured
    for [voiceOverText] grew from fragment to fragment, a piece that
    does not decode standing for itself; these pieces make up the
    captured value.  So the concatenation is exactly the captured value
    whenever that value holds no backslash, control characters or
    not. *)
Theorem C6_delta_concatenation (json_loads : pystr -> option pyval)
    (callback : bool) (chunks : list pystr) (p : parser) (rs : list step_result) :
  process_chunks json_loads (init callback) chunks = (p, rs) ->
  voice_disabled p = false ->
  List.concat (growth [] chunks) = fb_voiceOverText (field_buffers p)
  /\ List.concat (narration_deltas rs)
     = List.concat (List.map unescape_or_raw (growth [] chunks))
  /\ (forallb (fun c => negb (c =? backslash)%N) (fb_voiceOverText (field_buffers p)) = true ->
      List.concat (narration_deltas rs) = fb_voiceOverText (field_buffers p)).
Proof.
  intros Hrun Hd.
  pose proof (process_chunks_facts json_loads chunks (init callback) eq_refl) as H.
  rewrite Hrun in H. destruct H as (Hs & _ & Hv & Hc).
  change (voice (init callback)) with (@nil N) in Hv.
  change (buffer (init callback)) with (@nil N) in Hv, Hc. cbn [app] in Hv.
  change (fb_voiceOverText (field_buffers p)) with (voice p).
  specialize (Hc Hd). split; [now rewrite Hv|]. split; [exact Hc|].
  intros Hb. rewrite Hc, map_unescape_or_raw; [now rewrite Hv|].
  rewrite <- Hv. pose proof (captured_no_quote VoiceOverText (buffer p)) as Hq.
  unfold in_step in Hs. rewrite <- Hs in Hq.
  rewrite forallb_forall in *. intros c Hin. unfold unescaped.
  pose proof (Hq c Hin) as Hc'. unfold not_dq in Hc'.
  now rewrite Hc', (Hb c Hin).
Qed.

Lemma C6_delta_concatenation_witness :
  List.concat (narration_deltas (snd (process_chunks literal_loads (init true) control_stream)))
  = cp "Hel" ++ [9%N] ++ cp "lo" ++ [newline] ++ cp "world".
Proof.
  rewrite (proj2 (proj2 (C6_delta_concatenation literal_loads true control_stream
             (fst (process_chunks literal_loads (init true) control_stream))
             (snd (process_chunks literal_loads (init true) control_stream))
             ltac:(vm_compute; reflexivity) ltac:(vm_compute; reflexivity)))).
  - vm_compute. reflexivity.
  - vm_compute. reflexivity.
Defined.

(** *** [finalize] *)

(** C1 (counterexample): the stream stops inside the display text, with
    no closing brace.  The parser has captured the text, yet [finalize]
    attempts no decoding and returns [None], not a decision. *)
Lemma C1_counterexample_truncated_buffer :
  let p := fst (process_chunks literal_loads (init true) truncated_stream) in
  fb_displayEnhancedText (field_buffers p) = cp "Sunny, 72 degrees"
  /\ endswith_char rbrace (strip (buffer p)) = false
  /\ finalize undecodable p = Returned None.
Proof. vm_compute. repeat split. Qed.

(** C1 (amended): [finalize] never raises, the decoding of the whole
    buffer raising nothing but decoding and validation errors.  When
    the stripped buffer does not end with a closing brace, as for a
    truncated object, no decoding is attempted and the result is
    [None].  When it does, the result is the decoded decision, or, the
    decoding failing, the decision rebuilt from the captured values;
    with no flag captured its boolean is false, and its texts are the
    captured ones, empty when nothing was captured. *)
Theorem C1_finalize_outcomes (decode_decision : pystr -> result EnhancementDecision)
    (p : parser) :
  (forall s e, decode_decision s = Raised e -> is_ValueError e = true) ->
  exists r, finalize decode_decision p = Returned r
    /\ (endswith_char rbrace (strip (buffer p)) = false -> r = None)
    /\ (endswith_char rbrace (strip (buffer p)) = true ->
        match decode_decision (clean_fences (strip (buffer p))) with
        | Returned d => r = Some d
        | Raised _ =>
            r = fallback_decision p
            /\ (enhancement_flag p = PyNone ->
                r = Some {| displayEnhancement := false;
                            displayEnhancedText := fb_displayEnhancedText (field_buffers p);
                            voiceOverText := Some (fb_voiceOverText (field_buffers p)) |})
        end)
    /\ fallback_decision (init (has_callback p))
       = Some {| displayEnhancement := false;
                 displayEnhancedText := [];
                 voiceOverText := Some [] |}.
Proof.
  intros Hlib. unfold finalize.
  destruct (endswith_char rbrace (strip (buffer p))).
  - destruct (decode_decision _) as [d|e] eqn:E.
    + exists (Some d). repeat split; auto; discriminate.
    + rewrite (Hlib _ _ E). exists (fallback_decision p).
      repeat split; auto; try discriminate.
      intros Hf. unfold fallback_decision. rewrite Hf. reflexivity.
  - exists None. repeat split; auto; discriminate.
Qed.

Lemma C1_finalize_outcomes_witness :
  finalize undecodable (fst (process_chunks literal_loads (init true) trailing_comma_stream))
  = Returned (Some {| displayEnhancement := false;
                      displayEnhancedText := [];
                      voiceOverText := Some (cp "Hi") |}).
Proof.
  destruct (C1_finalize_outcomes undecodable
              (fst (process_chunks literal_loads (init true) trailing_comma_stream)))
    as (r & Hr & _ & Hfall & _).
  - intros s e H. inversion H. reflexivity.
  - rewrite Hr. f_equal.
    assert (Hend : endswith_char rbrace
              (strip (buffer (fst (process_chunks literal_loads (init true)
                                     trailing_comma_stream)))) = true)
      by (vm_compute; reflexivity).
    specialize (Hfall Hend). cbv beta iota delta [undecodable] in Hfall.
    destruct Hfall as [_ Hdef]. rewrite Hdef by (vm_compute; reflexivity).
    vm_compute. reflexivity.
Defined.

End ParserFacts.

Module QueueFacts.
Import PyStr Py Queues.

(** C8: a put or a get on a channel that was not initialised raises
    [RuntimeError] at once, for both channels, and leaves the channels
    as they were: nothing is enqueued or dequeued. *)
Theorem C8_uninitialized_channel_raises (b : bus) (m : message) (response : pystr)
    (h : list history_entry) (md : option metadata) :
  (llm_message_queue b = None ->
     enqueue_llm_message m b = (Fails RuntimeError, b)
     /\ get_llm_message b = (Fails RuntimeError, b))
  /\ (raw_llm_output_queue b = None ->
     enqueue_raw_llm_output response h md b = (Fails RuntimeError, b)
     /\ get_raw_llm_output b = (Fails RuntimeError, b)).
Proof.
  split; intros H.
  - unfold enqueue_llm_message, get_llm_message. now rewrite H.
  - unfold enqueue_raw_llm_output, get_raw_llm_output. now rewrite H.
Qed.

Lemma C8_uninitialized_channel_raises_witness :
  (enqueue_llm_message (ChatToken (Uuid4 0) (cp "hi")) uninitialized
     = (Fails RuntimeError, uninitialized)
   /\ get_llm_message uninitialized = (Fails RuntimeError, uninitialized))
  /\ (enqueue_raw_llm_output (cp "hello") [] None uninitialized
     = (Fails RuntimeError, uninitialized)
   /\ get_raw_llm_output uninitialized = (Fails RuntimeError, uninitialized)).
Proof.
  destruct (C8_uninitialized_channel_raises uninitialized
              (ChatToken (Uuid4 0) (cp "hi")) (cp "hello") [] None) as [H1 H2].
  split; [apply H1|apply H2]; reflexivity.
Defined.

(** On initialised channels the same calls go through. *)
Lemma initialized_channel_accepts (llm_size raw_size : Z) (m : message) :
  let b := initialize_queues llm_size raw_size uninitialized in
  exists b', enqueue_llm_message m b = (Done tt, b')
             /\ exists b'', get_llm_message b' = (Done m, b'').
Proof.
  cbv zeta. unfold enqueue_llm_message, put, full. cbn.
  assert (E : (0 <? llm_size)%Z && (llm_size <=? Z.of_nat 0)%Z = false).
  { apply andb_false_iff. destruct (Z.ltb_spec 0 llm_size);
      [right; apply Z.leb_gt; lia | now left]. }
  rewrite E. eexists; split; [reflexivity|]. eexists. reflexivity.
Qed.

(** A get on the channel of raw turns that holds a turn: the turn is
    off the queue, and it is returned if it has a response text. *)
Lemma get_raw_llm_output_first b q item rest :
  raw_llm_output_queue b = Some q -> items q = item :: rest ->
  get_raw_llm_output b
  = (match assistant_response item with
     | Some _ => Done item
     | None => Fails OtherException
     end,
     set_raw b {| maxsize := maxsize q; items := rest;
                  unfinished_tasks := unfinished_tasks q |}).
Proof.
  intros Hq Hi. unfold get_raw_llm_output, get. rewrite Hq, Hi.
  now destruct (assistant_response item).
Qed.

(** What a get that returns a turn has done. *)
Lemma get_raw_llm_output_returns b item b1 :
  get_raw_llm_output b = (Done item, b1) ->
  exists q rest,
    raw_llm_output_queue b = Some q /\ items q = item :: rest
    /\ assistant_response item <> None
    /\ b1 = set_raw b {| maxsize := maxsize q; items := rest;
                         unfinished_tasks := unfinished_tasks q |}.
Proof.
  unfold get_raw_llm_output, get.
  destruct (raw_llm_output_queue b) as [q|] eqn:Hq; [|discriminate].
  destruct (items q) as [|x rest] eqn:Hi; [discriminate|].
  destruct (assistant_response x) eqn:Hr; [|discriminate].
  intros [= <- <-]. exists q, rest. repeat split; congruence.
Qed.

(** On an empty channel the get waits. *)
Lemma get_raw_llm_output_waits b q :
  raw_llm_output_queue b = Some q -> items q = [] ->
  fst (get_raw_llm_output b) = Suspended.
Proof. intros Hq Hi. unfold get_raw_llm_output, get. now rewrite Hq, Hi. Qed.

End QueueFacts.

Module HistoryFacts.
Import PyStr ChatHistory HistoryTerms.

Lemma store_history thread_id msg t0 t1 m :
  _history (store thread_id msg t0 t1 m) !! thread_id
  = Some (trimmed (max_history_per_thread m) (thread_history m thread_id ++ [msg]))
  /\ max_history_per_thread (store thread_id msg t0 t1 m) = max_history_per_thread m.
Proof.
  unfold store, thread_history.
  set (m1 := _ensure_thread_exists thread_id t0 m).
  assert (H1 : _history m1 !! thread_id = Some (default [] (_history m !! thread_id))
               /\ max_history_per_thread m1 = max_history_per_thread m).
  { unfold m1, _ensure_thread_exists.
    destruct (_history m !! thread_id) eqn:E; cbn; [now rewrite E|].
    now rewrite lookup_insert_eq. }
  destruct H1 as [H1 M1].
  set (m2 := append_to_thread thread_id msg m1).
  assert (H2 : _history m2 !! thread_id
               = Some (default [] (_history m !! thread_id) ++ [msg])
               /\ max_history_per_thread m2 = max_history_per_thread m).
  { unfold m2, append_to_thread. rewrite H1. cbn. now rewrite lookup_insert_eq. }
  destruct H2 as [H2 M2].
  set (m3 := _update_thread_activity thread_id t1 m2).
  assert (H3 : _history m3 = _history m2
               /\ max_history_per_thread m3 = max_history_per_thread m).
  { unfold m3, _update_thread_activity.
    destruct (_thread_metadata m2 !! thread_id); cbn; auto. }
  destruct H3 as [H3 M3].
  unfold _trim_history_if_needed, trimmed. rewrite H3, H2, M3.
  destruct (_ <? _)%Z; cbn; [rewrite lookup_insert_eq|rewrite H3, H2]; auto.
Qed.

Lemma run_op_store thread_id op t0 t1 m :
  run_op thread_id op t0 t1 m = store thread_id (formatted op) t0 t1 m.
Proof. destruct op; reflexivity. Qed.

Lemma trimmed_length max l :
  (0 <= max)%Z -> (Z.of_nat (length (trimmed max l)) <= max)%Z.
Proof.
  intros Hm. unfold trimmed.
  destruct (Z.ltb_spec max (Z.of_nat (length l))); [|lia].
  rewrite length_drop. lia.
Qed.

Lemma trimmed_drop max l :
  (0 <= max)%Z -> trimmed max l = drop (length l - Z.to_nat max) l.
Proof.
  intros Hm. unfold trimmed.
  destruct (Z.ltb_spec max (Z.of_nat (length l))).
  - f_equal. lia.
  - replace (length l - Z.to_nat max) with 0 by lia. reflexivity.
Qed.

(** C5: after any append on a thread, with a maximum that is not
    negative, the thread holds the messages it had followed by the new
    one, cut at the head down to the maximum: its length does not
    exceed the maximum, what is left is a suffix in the same order, and
    a thread that held exactly the maximum holds exactly the maximum
    again, having lost its oldest message only. *)
Theorem C5_append_trims_oldest (m : ChatHistoryManager) (thread_id : pystr)
    (op : append_op) (t0 t1 : Z) :
  (0 <= max_history_per_thread m)%Z ->
  let max := max_history_per_thread m in
  let old := thread_history m thread_id in
  let m' := run_op thread_id op t0 t1 m in
  let new := thread_history m' thread_id in
  max_history_per_thread m' = max
  /\ _history m' !! thread_id = Some new
  /\ (Z.of_nat (length new) <= max)%Z
  /\ new = drop (length (old ++ [formatted op]) - Z.to_nat max) (old ++ [formatted op])
  /\ (Z.of_nat (length old) = max ->
      new = drop 1 (old ++ [formatted op]) /\ Z.of_nat (length new) = max).
Proof.
  intros Hm. cbv zeta. rewrite run_op_store.
  destruct (store_history thread_id (formatted op) t0 t1 m) as [H M].
  assert (Hnew : thread_history (store thread_id (formatted op) t0 t1 m) thread_id
                 = trimmed (max_history_per_thread m)
                     (thread_history m thread_id ++ [formatted op])).
  { unfold thread_history at 1. now rewrite H. }
  rewrite Hnew. repeat split; auto using trimmed_length, trimmed_drop.
  - rewrite trimmed_drop by assumption. f_equal. rewrite length_app. cbn. lia.
  - rewrite trimmed_drop by assumption. rewrite length_drop, length_app. cbn. lia.
Qed.

Lemma C5_append_trims_oldest_witness :
  thread_history (run_op (cp "t1") (AddUser (cp "third") None) 2 2 full_thread) (cp "t1")
  = [formatted (AddAssistant (cp "second") None); formatted (AddUser (cp "third") None)]
  /\ Z.of_nat (length (thread_history
                         (run_op (cp "t1") (AddUser (cp "third") None) 2 2 full_thread)
                         (cp "t1"))) = 2%Z.
Proof.
  destruct (C5_append_trims_oldest full_thread (cp "t1") (AddUser (cp "third") None) 2 2)
    as (_ & _ & _ & _ & H).
  - vm_compute. discriminate.
  - destruct H as [H1 H2]; [vm_compute; reflexivity|].
    split; [rewrite H1; vm_compute; reflexivity|exact H2].
Defined.

End HistoryFacts.

Module LoopFacts.
Import PyStr Py Schemas DecisionLoop LoopTerms TranscriptTerms.

Lemma spoken_app cb a b : spoken cb (a ++ b) = spoken cb a ++ spoken cb b.
Proof. destruct cb; [reflexivity|]. reflexivity. Qed.

Lemma takes_app cb a b : takes cb (a ++ b) <-> takes cb a /\ takes cb b.
Proof.
  unfold takes. split.
  - intros H. split; intros f t Hf Ht; apply (H f t Hf); apply in_or_app; auto.
  - intros [Ha Hb] f t Hf Ht. apply in_app_or in Ht as [Ht|Ht]; eauto.
Qed.

Lemma takes_nil cb : takes cb [].
Proof. intros f t _ []. Qed.

Section Loop.

Variable voice_injection_callback : option (option pystr -> option exn).
Variable decode_args : pystr -> option parsed_args.
Variable rounds : nat -> round.

(** ** The callback *)

Lemma narrate_takes t said :
  takes voice_injection_callback [t] ->
  narrate voice_injection_callback t said
  = (Returned tt, said ++ spoken voice_injection_callback [t]).
Proof.
  intros H. unfold narrate, spoken. destruct voice_injection_callback as [f|] eqn:E.
  - now rewrite (H f t eq_refl (or_introl eq_refl)).
  - now rewrite app_nil_r.
Qed.

Lemma narrate_refuses t said e :
  refuses voice_injection_callback t e ->
  narrate voice_injection_callback t said = (Raised e, said ++ [t]).
Proof. intros (f & Hf & He). unfold narrate. now rewrite Hf, He. Qed.

(** The stream is read to its end when the callback takes what it
    hears. *)
Lemma consume_takes ds : forall st said,
  takes voice_injection_callback (heard ds st) ->
  consume voice_injection_callback ds st said
  = (Returned (scan ds st), said ++ spoken voice_injection_callback (heard ds st)).
Proof.
  induction ds as [|d ds IH]; intros st said H; cbn [consume heard scan fold_left].
  - destruct voice_injection_callback; cbn; now rewrite app_nil_r.
  - destruct d as [d|]; cbn [on_delta]; [|now apply IH].
    cbn [heard] in H. apply takes_app in H as [H1 H2].
    destruct (truthy_content d && negb (is_function_call (absorb d st))).
    + rewrite (narrate_takes _ _ H1), (IH _ _ H2), spoken_app, app_assoc. reflexivity.
    + now apply IH.
Qed.

(** It is left at the first content the callback raises on. *)
Lemma consume_refuses ds : forall st said before t after e,
  heard ds st = before ++ t :: after ->
  takes voice_injection_callback before -> refuses voice_injection_callback t e ->
  consume voice_injection_callback ds st said = (Raised e, said ++ before ++ [t]).
Proof.
  induction ds as [|d ds IH]; intros st said before t after e Hh Hb Hr;
    cbn [consume heard] in *.
  - now destruct before.
  - destruct d as [d|]; cbn [on_delta]; [|now apply (IH _ _ _ _ after)].
    destruct (truthy_content d && negb (is_function_call (absorb d st))).
    + destruct before as [|u before]; cbn [app] in Hh; injection Hh as Hu Hh.
      * subst t. now rewrite (narrate_refuses _ said e Hr).
      * subst u. change (d_content d :: before) with ([d_content d] ++ before) in Hb.
        apply takes_app in Hb as [Hb1 Hb2].
        rewrite (narrate_takes _ _ Hb1), (IH _ _ _ _ after e Hh Hb2 Hr).
        destruct Hr as (f & -> & _). cbn [spoken app]. now rewrite <- app_assoc.
    + now apply (IH _ _ _ _ after).
Qed.

(** ** One round *)

Lemma run_round_tool r resp tools said :
  calls_tool voice_injection_callback decode_args r ->
  run_round voice_injection_callback decode_args r resp tools said
  = (Continue (tools ++ [named r]),
     said ++ spoken voice_injection_callback (announced r)).
Proof.
  intros ((Hh & He) & Hf & Hn & Ha & Ht). unfold run_round, announced, named in *.
  rewrite (consume_takes _ _ _ Hh), He, Hf.
  destruct (decode_args _) as [[a| |e]|] eqn:D; cbn [from_option id];
    try (now specialize (Ha e));
    (destruct (decide _) as [E|_]; [contradiction|]);
    rewrite (narrate_takes _ _ Ht), spoken_app, app_assoc; reflexivity.
Qed.

Lemma handle_breaks e : is_Exception e = true -> handle e = Break.
Proof. intros H. unfold handle. now rewrite H. Qed.

Lemma run_round_breaks r resp tools said :
  breaks voice_injection_callback decode_args r ->
  exists said',
    run_round voice_injection_callback decode_args r resp tools said = (Break, said').
Proof.
  intros H. unfold run_round.
  destruct H as [before after t e Hh Hb Hr Hx
                | e Hh He Hx
                | e [Hh He] Hf Hd Hx
                | e [Hh He] Hf Hn Ha Hr Hx
                | [Hh He] Hf Hn Hd
                | a t e [Hh He] (_ & Hf & Hn & Hd) Ht Hr Hx].
  - rewrite (consume_refuses _ _ _ _ _ _ _ Hh Hb Hr), (handle_breaks _ Hx). eauto.
  - rewrite (consume_takes _ _ _ Hh), He, (handle_breaks _ Hx). eauto.
  - rewrite (consume_takes _ _ _ Hh), He, Hf, Hd. cbn [from_option id].
    rewrite (handle_breaks _ Hx). eauto.
  - unfold named in *. rewrite (consume_takes _ _ _ Hh), He, Hf.
    destruct (decode_args _) as [[a| |e']|] eqn:D; cbn [from_option id];
      try (now specialize (Ha e'));
      (destruct (decide _) as [E|_]; [contradiction|]);
      rewrite (narrate_refuses _ _ _ Hr), (handle_breaks _ Hx); eauto.
  - unfold named in *. rewrite (consume_takes _ _ _ Hh), He, Hf, Hd. cbn [from_option id].
    destruct (decide _) as [_|E]; [eauto|contradiction].
  - unfold named in *. rewrite (consume_takes _ _ _ Hh), He, Hf, Hd.
    destruct (decide _) as [_|E]; [|contradiction].
    unfold narration_of, decision_of in Ht. cbn [displayEnhancement voiceOverText] in Ht.
    destruct Hr as (f & Hcb & Hr). rewrite Hcb. cbn [displayEnhancement voiceOverText].
    rewrite andb_true_r. revert Ht.
    destruct (_ && negb _); [|discriminate].
    intros [= <-]. unfold narrate. rewrite Hr, (handle_breaks _ Hx). eauto.
Qed.

(** These are the only rounds that break the loop, and the only ones
    that count as a tool used. *)
Lemma narrate_cases t said :
  (takes voice_injection_callback [t]
   /\ narrate voice_injection_callback t said
      = (Returned tt, said ++ spoken voice_injection_callback [t]))
  \/ exists e, refuses voice_injection_callback t e
               /\ narrate voice_injection_callback t said = (Raised e, said ++ [t]).
Proof.
  unfold narrate, takes, refuses, spoken.
  destruct voice_injection_callback as [f|].
  - destruct (f t) as [e|] eqn:F.
    + right. eauto.
    + left. split; [|reflexivity]. intros f' t' [= <-] [<-|[]]. exact F.
  - left. split; [discriminate|]. now rewrite app_nil_r.
Qed.

Lemma consume_cases ds : forall st said,
  (takes voice_injection_callback (heard ds st)
   /\ consume voice_injection_callback ds st said
      = (Returned (scan ds st), said ++ spoken voice_injection_callback (heard ds st)))
  \/ exists before t after e,
       heard ds st = before ++ t :: after
       /\ takes voice_injection_callback before /\ refuses voice_injection_callback t e
       /\ consume voice_injection_callback ds st said = (Raised e, said ++ before ++ [t]).
Proof.
  induction ds as [|d ds IH]; intros st said.
  - left. split; [apply takes_nil|]. now apply consume_takes, takes_nil.
  - destruct d as [d|]; [|exact (IH st said)].
    assert (Hh : heard (Some d :: ds) st
                 = (if truthy_content d && negb (is_function_call (absorb d st))
                    then [d_content d] else []) ++ heard ds (absorb d st)) by reflexivity.
    assert (Hfirst :
      (takes voice_injection_callback
         (if truthy_content d && negb (is_function_call (absorb d st))
          then [d_content d] else []))
      \/ exists e, truthy_content d && negb (is_function_call (absorb d st)) = true
                   /\ refuses voice_injection_callback (d_content d) e).
    { destruct (truthy_content d && negb (is_function_call (absorb d st)));
        [|left; apply takes_nil].
      destruct (narrate_cases (d_content d) said) as [[Hn _]|(e & Hr & _)]; eauto. }
    destruct Hfirst as [Hfirst|(e & E & Hr)].
    + destruct (IH (absorb d st) said)
        as [[Ht _]|(before & t & after & e & Hhd & Hb & Hr & _)].
      * assert (H : takes voice_injection_callback (heard (Some d :: ds) st))
          by (rewrite Hh; apply takes_app; auto).
        left. split; [exact H|]. now apply consume_takes.
      * right.
        exists ((if truthy_content d && negb (is_function_call (absorb d st))
                 then [d_content d] else []) ++ before), t, after, e.
        assert (Hh' : heard (Some d :: ds) st
                      = ((if truthy_content d && negb (is_function_call (absorb d st))
                          then [d_content d] else []) ++ before) ++ t :: after)
          by (rewrite Hh, Hhd; now rewrite app_assoc).
        assert (Hb' : takes voice_injection_callback
                        ((if truthy_content d && negb (is_function_call (absorb d st))
                          then [d_content d] else []) ++ before))
          by (apply takes_app; auto).
        repeat split; auto. now apply (consume_refuses _ _ _ _ _ after).
    + right. exists [], (d_content d), (heard ds (absorb d st)), e.
      assert (Hh' : heard (Some d :: ds) st = [] ++ d_content d :: heard ds (absorb d st))
        by (rewrite Hh, E; reflexivity).
      split; [exact Hh'|]. split; [apply takes_nil|]. split; [exact Hr|].
      apply (consume_refuses _ _ _ _ _ (heard ds (absorb d st))); auto using takes_nil.
Qed.

Lemma handle_cases e :
  (is_Exception e = true /\ handle e = Break)
  \/ (is_Exception e = false /\ handle e = Propagate e).
Proof. unfold handle. destruct (is_Exception e); auto. Qed.

Lemma run_round_exits r resp tools said exit said' :
  run_round voice_injection_callback decode_args r resp tools said = (exit, said') ->
  match exit with
  | Break => breaks voice_injection_callback decode_args r
  | Continue tools' =>
      calls_tool voice_injection_callback decode_args r /\ tools' = tools ++ [named r]
  | _ => True
  end.
Proof.
  unfold run_round.
  assert (Hh : forall e s0, (handle e, s0) = (exit, said') ->
                 (is_Exception e = true -> breaks voice_injection_callback decode_args r) ->
                 match exit with
                 | Break => breaks voice_injection_callback decode_args r
                 | Continue tools' =>
                     calls_tool voice_injection_callback decode_args r
                     /\ tools' = tools ++ [named r]
                 | _ => True
                 end).
  { intros e s0 [= <- _] Hb. destruct (handle_cases e) as [[X ->]|[X ->]]; auto. }
  destruct (consume_cases (deltas r) stream_start said)
    as [[Ht ->]|(before & t & after & e & Hhd & Hb & Hr & ->)].
  - destruct (stream_error r) as [e|] eqn:S.
    + intros H. apply (Hh _ _ H). intros X. now apply (breaks_in_stream _ _ _ e).
    + assert (Hrd : reads voice_injection_callback r) by (split; assumption).
      destruct (is_function_call (scan (deltas r) stream_start)) eqn:F;
        [|intros [= <- _]; exact I].
      assert (Htool : named r <> finalize_name ->
                (forall e, decode_args (func_args_buffer (scan (deltas r) stream_start))
                           <> Some (BadArgs e)) ->
                (let (r0, said2) :=
                   narrate voice_injection_callback
                     (Some (tool_announcement (func_name (scan (deltas r) stream_start))))
                     (said ++ spoken voice_injection_callback
                                (heard (deltas r) stream_start)) in
                 match r0 with
                 | Returned _ =>
                     (Continue (tools ++ [func_name (scan (deltas r) stream_start)]), said2)
                 | Raised e0 => (handle e0, said2)
                 end) = (exit, said') ->
                match exit with
                | Break => breaks voice_injection_callback decode_args r
                | Continue tools' =>
                    calls_tool voice_injection_callback decode_args r
                    /\ tools' = tools ++ [named r]
                | _ => True
                end).
      { intros Hn Ha.
        destruct (narrate_cases (Some (tool_announcement (named r)))
                    (said ++ spoken voice_injection_callback
                               (heard (deltas r) stream_start)))
          as [[Hk E]|(e & Hr & E)]; unfold named in E; rewrite E.
        - intros [= <- _]. split; [|reflexivity]. repeat split; auto.
        - intros H. apply (Hh _ _ H). intros X.
          now apply (breaks_on_announcement _ _ _ e). }
      destruct (decode_args (func_args_buffer (scan (deltas r) stream_start)))
        as [[a| |e]|] eqn:D; cbn [from_option id].
      * destruct (decide _) as [En|En]; [|apply Htool; [exact En|discriminate]].
        assert (Hd : decides decode_args r a).
        { repeat split; auto. now rewrite D. }
        destruct (displayEnhancement _ && _ && negb _) eqn:C; [|intros [= <- _]; exact I].
        apply andb_true_iff in C as [C C3]. apply andb_true_iff in C as [C1 C2].
        match goal with |- context [narrate _ ?t ?s0] =>
          destruct (narrate_cases t s0) as [[_ E]|(e & Hr & E)]; rewrite E
        end; [intros [= <- _]; exact I|].
        intros H. apply (Hh _ _ H). intros X.
        eapply (breaks_on_voice_over _ _ _ a _ e Hrd Hd); [|exact Hr|exact X].
        unfold narration_of, decision_of. cbn [displayEnhancement voiceOverText] in *.
        now rewrite C1, C3.
      * destruct (decide _) as [En|En]; [|apply Htool; [exact En|discriminate]].
        intros [= <- _]. now apply breaks_in_decision.
      * intros H. apply (Hh _ _ H). intros X. now apply (breaks_in_arguments _ _ _ e).
      * destruct (decide _) as [En|En]; [|apply Htool; [exact En|discriminate]].
        assert (Hd : decides decode_args r empty_args).
        { repeat split; auto. now rewrite D. }
        destruct (displayEnhancement _ && _ && negb _) eqn:C; [|intros [= <- _]; exact I].
        discriminate C.
  - intros H. apply (Hh _ _ H). intros X.
    now apply (breaks_on_content _ _ _ before after t e).
Qed.

(** ** The rounds in a row *)

(** [n] rounds that call tools use up [n] iterations, add their [n]
    tools and hand their contents and announcements to the callback. *)
Lemma loop_tool_rounds resp n : forall budget iteration tools said,
  (forall i, iteration < i <= iteration + n ->
     calls_tool voice_injection_callback decode_args (rounds i)) ->
  loop voice_injection_callback decode_args rounds (n + budget) iteration resp tools said
  = loop voice_injection_callback decode_args rounds budget (iteration + n) resp
      (tools ++ tools_of rounds (S iteration) n)
      (said ++ spoken voice_injection_callback (said_in rounds (S iteration) n)).
Proof.
  induction n as [|n IH]; intros budget iteration tools said H.
  - unfold tools_of, said_in. cbn [seq List.map List.concat Nat.add].
    rewrite Nat.add_0_r, !app_nil_r.
    destruct voice_injection_callback; cbn [spoken]; now rewrite app_nil_r.
  - cbn [Nat.add loop]. rewrite run_round_tool by (apply H; lia).
    rewrite IH by (intros i Hi; apply H; lia).
    unfold tools_of, said_in. cbn [seq List.map List.concat].
    rewrite spoken_app, <- !app_assoc. cbn [app].
    replace (S iteration + n) with (iteration + S n) by lia. reflexivity.
Qed.

Lemma tools_of_length first n : length (tools_of rounds first n) = n.
Proof. unfold tools_of. now rewrite length_map, length_seq. Qed.

(** C4: let the first [k] rounds each call a real tool, and let either
    the budget of five rounds be used up ([k = 5]) or the next round
    time out or error, whatever raises the [Exception]: the request or
    the stream, the voice callback, [json.loads] on the arguments of a
    function call, or the decision model.  The loop then ends with the
    fallback decision: [displayEnhancement] says whether a tool was
    called ([0 < k]), [displayEnhancedText] is the original text, and
    [voiceOverText] is the fixed acknowledgment when a tool was called
    and empty otherwise.  A round that asks for a tool and breaks before
    the call (on its arguments or on the announcement) is the round that
    errors, not one of the [k]. *)
Theorem C4_fallback_decision (resp : pystr) (k : nat) :
  k <= 5 ->
  (forall i, 1 <= i <= k -> calls_tool voice_injection_callback decode_args (rounds i)) ->
  k = 5 \/ breaks voice_injection_callback decode_args (rounds (S k)) ->
  fst (make_enhancement_decision_streaming voice_injection_callback decode_args rounds
         true None resp)
  = Returned {| displayEnhancement := (0 <? k);
                displayEnhancedText := resp;
                voiceOverText := Some (if (0 <? k) then tools_acknowledgment else []) |}.
Proof.
  intros Hk Htools Hend.
  unfold make_enhancement_decision_streaming, max_iterations. cbn [negb].
  replace 5 with (k + (5 - k)) by lia.
  rewrite loop_tool_rounds by (intros i Hi; apply Htools; lia).
  cbn [Nat.add app].
  assert (Hdec : forced_decision (tools_of rounds 1 k) resp
            = {| displayEnhancement := (0 <? k);
                 displayEnhancedText := resp;
                 voiceOverText := Some (if (0 <? k) then tools_acknowledgment else []) |}).
  { unfold forced_decision. pose proof (tools_of_length 1 k) as L. rewrite L.
    destruct (tools_of rounds 1 k); cbn in L; subst k; reflexivity. }
  destruct (5 - k) as [|b] eqn:Eb.
  - cbn. now rewrite Hdec.
  - destruct Hend as [->|Hb]; [discriminate Eb|].
    cbn [loop].
    destruct (run_round_breaks (rounds (S k)) resp (tools_of rounds 1 k)
                (spoken voice_injection_callback (said_in rounds 1 k)) Hb) as [said' ->].
    cbn. now rewrite Hdec.
Qed.

End Loop.

Lemma busy_rounds_call_tool decode_args i :
  (forall s e, decode_args s <> Some (BadArgs e)) ->
  calls_tool listener decode_args (busy_rounds i).
Proof.
  intros Hd. repeat split; try (intros f t [= <-] _; reflexivity); try apply Hd.
  intros H. vm_compute in H. discriminate H.
Qed.

Lemma C4_fallback_decision_witness :
  fst (make_enhancement_decision_streaming listener (fun _ => None) stalling_rounds
         true None (cp "It is sunny."))
  = Returned {| displayEnhancement := true;
                displayEnhancedText := cp "It is sunny.";
                voiceOverText := Some tools_acknowledgment |}
  /\ fst (make_enhancement_decision_streaming listener failing_decode busy_rounds
            true None (cp "It is sunny."))
     = Returned {| displayEnhancement := false;
                   displayEnhancedText := cp "It is sunny.";
                   voiceOverText := Some [] |}.
Proof.
  split.
  - apply (C4_fallback_decision listener (fun _ => None) stalling_rounds
             (cp "It is sunny.") 2).
    + lia.
    + intros i Hi.
      assert (E : stalling_rounds i = busy_rounds 2).
      { unfold stalling_rounds, busy_rounds.
        destruct i as [|[|[|i]]]; [lia|reflexivity|reflexivity|lia]. }
      rewrite E. apply busy_rounds_call_tool. discriminate.
    + right. apply (breaks_in_stream _ _ _ TimeoutError); [|reflexivity|reflexivity].
      intros f t _ [].
  - apply (C4_fallback_decision listener failing_decode busy_rounds
             (cp "It is sunny.") 0).
    + lia.
    + intros i Hi. lia.
    + right. apply (breaks_in_arguments _ _ _ RuntimeError);
        [split; [intros f t _ []|reflexivity]|reflexivity|reflexivity|reflexivity].
Defined.

End LoopFacts.

Module BroadcastFacts.
Import PyStr Py VisProcessor BroadcastTerms.

Lemma truthy_strip_empty : truthy (strip []) = false.
Proof. reflexivity. Qed.

(** C9: the broadcast returns without raising in every case.  For a
    text that is empty or white space only, or an empty registry, no
    sink is invoked.  Otherwise the entrypoint of every registered sink
    is invoked with the text, and every sink whose injection does not
    fail has it delivered, whatever the other sinks do. *)
Theorem C9_broadcast_isolates_failures (r : registry) (voice_text : pystr) :
  fst (inject_voice_over_to_all_agents r voice_text) = Returned tt
  /\ (truthy (strip voice_text) = false \/ r = [] ->
      snd (inject_voice_over_to_all_agents r voice_text) = [])
  /\ (truthy (strip voice_text) = true ->
      forall a, In a r ->
        In (Invoked (agent_id a) voice_text)
           (snd (inject_voice_over_to_all_agents r voice_text))
        /\ (inject_tts_voice_over a voice_text = Delivers ->
            In (Delivered (agent_id a) voice_text)
               (snd (inject_voice_over_to_all_agents r voice_text)))).
Proof.
  unfold inject_voice_over_to_all_agents.
  destruct (truthy voice_text) eqn:Et; cbn [negb orb].
  2:{ destruct voice_text; [|discriminate Et].
      split; [reflexivity|]. split; [reflexivity|]. intros Hs. discriminate Hs. }
  destruct (truthy (strip voice_text)) eqn:Es; cbn [negb].
  2:{ split; [reflexivity|]. split; [reflexivity|]. intros Hs. discriminate Hs. }
  destruct r as [|a0 r0] eqn:Er.
  { split; [reflexivity|]. split; [reflexivity|]. intros _ a []. }
  rewrite <- Er. assert (Hne : r <> []) by (rewrite Er; discriminate).
  clear Er a0 r0.
  assert (Hinv : forall a, In a r ->
            In (Invoked (agent_id a) voice_text)
               (List.map (fun a => Invoked (agent_id a) voice_text) r)).
  { intros a Ha. apply in_map_iff. eauto. }
  assert (Hdel : forall a, In a r -> inject_tts_voice_over a voice_text = Delivers ->
            In a (injection_tasks r voice_text)
            /\ In (Delivered (agent_id a) voice_text)
                  (gather (injection_tasks r voice_text) voice_text)).
  { intros a Ha Hd.
    assert (In a (injection_tasks r voice_text)).
    { unfold injection_tasks. apply filter_In. split; [assumption|]. now rewrite Hd. }
    split; [assumption|]. unfold gather. apply in_map_iff. exists a. split; [reflexivity|].
    apply filter_In. split; [assumption|]. now rewrite Hd. }
  destruct (injection_tasks r voice_text) as [|t ts] eqn:Eq.
  - split; [reflexivity|]. split.
    + intros [Hs|Hr]; [discriminate Hs|contradiction].
    + intros _ a Ha. split; [now apply Hinv|].
      intros Hd. now destruct (Hdel a Ha Hd) as [[] _].
  - split; [reflexivity|]. split.
    + intros [Hs|Hr]; [discriminate Hs|contradiction].
    + intros _ a Ha. split.
      * apply in_or_app. left. now apply Hinv.
      * intros Hd. apply in_or_app. right. now apply Hdel.
Qed.

Lemma C9_broadcast_isolates_failures_witness :
  In (Delivered 2 (cp "Hello"))
     (snd (inject_voice_over_to_all_agents [failing_sink; working_sink] (cp "Hello"))).
Proof.
  apply (proj2 (proj2 (proj2 (C9_broadcast_isolates_failures
                                [failing_sink; working_sink] (cp "Hello")))
                  eq_refl working_sink (or_intror (or_introl eq_refl)))).
  reflexivity.
Defined.

End BroadcastFacts.

Module WorkerFacts.
Import PyStr Py Schemas Queues VisProcessor WorkerTerms QueueFacts.

(** ** The frame of an iteration *)

Lemma acknowledged_finally got_item r s : acknowledged (finally got_item r s) = got_item.
Proof.
  unfold finally. destruct got_item; [|reflexivity].
  now destruct (mark_raw_llm_output_done (ws_bus s)).
Qed.

(** The flag [got_item] of an iteration is its acknowledgment. *)
Lemma acknowledged_got_item w s :
  acknowledged (iteration w s) = snd (fst (try_block w s)).
Proof.
  unfold iteration. destruct (try_block w s) as [[item got] [r s1]]. cbn [fst snd].
  destruct r as [u|e]; [apply acknowledged_finally|].
  destruct (is_Exception e); [|apply acknowledged_finally].
  destruct (on_exception item s1). apply acknowledged_finally.
Qed.

(** [mark_raw_llm_output_done] is called if and only if
    [get_raw_llm_output] returned an item. *)
Lemma acknowledged_iff_returned (w : world) (s : wstate) :
  acknowledged (iteration w s) = true
  <-> exists item b, get_raw_llm_output (ws_bus s) = (Done item, b).
Proof.
  rewrite acknowledged_got_item. unfold try_block.
  destruct (get_raw_llm_output (ws_bus s)) as [[item|e|] b]; cbn.
  - split; eauto.
  - split; [discriminate|]. intros (i & b' & H). discriminate H.
  - split; [discriminate|]. intros (i & b' & H). discriminate H.
Qed.

(** A cancellation while the get waits leaves the loop with no
    acknowledgment and with the channels untouched. *)
Lemma cancelled_while_waiting (w : world) (s : wstate) :
  fst (get_raw_llm_output (ws_bus s)) = Suspended ->
  acknowledged (iteration w s) = false
  /\ propagated (iteration w s) = Some CancelledError
  /\ final (iteration w s) = s.
Proof.
  unfold iteration, try_block.
  destruct (get_raw_llm_output (ws_bus s)) as [[item|e|] b]; cbn; try discriminate.
  auto.
Qed.

Lemma finally_fields g r s :
  ws_sent (final (finally g r s)) = ws_sent s
  /\ ws_uuids (final (finally g r s)) = ws_uuids s
  /\ ws_decisions (final (finally g r s)) = ws_decisions s
  /\ llm_message_queue (ws_bus (final (finally g r s))) = llm_message_queue (ws_bus s)
  /\ acknowledged (finally g r s) = g.
Proof.
  unfold finally. destruct g; [|easy].
  unfold mark_raw_llm_output_done.
  destruct (raw_llm_output_queue (ws_bus s)) as [q|]; [|easy].
  destruct (task_done q) as [d q']. easy.
Qed.

Lemma finally_propagated r s q :
  raw_llm_output_queue (ws_bus s) = Some q -> 0 < unfinished_tasks q ->
  propagated (finally true r s) = match r with Raised e => Some e | Returned _ => None end.
Proof.
  intros Hq Hpos. unfold finally, mark_raw_llm_output_done, task_done. rewrite Hq.
  destruct (unfinished_tasks q); [lia|]. reflexivity.
Qed.

(** The [finally] clause on the channel: one unfinished task less. *)
Lemma finally_on_channel r s q :
  raw_llm_output_queue (ws_bus s) = Some q -> 0 < unfinished_tasks q ->
  raw_llm_output_queue (ws_bus (final (finally true r s)))
  = Some {| maxsize := maxsize q; items := items q;
            unfinished_tasks := pred (unfinished_tasks q) |}.
Proof.
  intros Hq Hpos. unfold finally, mark_raw_llm_output_done, task_done.
  rewrite Hq. destruct (unfinished_tasks q); [lia|]. reflexivity.
Qed.

Lemma get_then_done b item b1 :
  counted b -> get_raw_llm_output b = (Done item, b1) ->
  llm_message_queue b1 = llm_message_queue b
  /\ exists b2, mark_raw_llm_output_done b1 = (Returned tt, b2)
                /\ llm_message_queue b2 = llm_message_queue b.
Proof.
  intros Hc Hget.
  apply get_raw_llm_output_returns in Hget as (q & rest & Hq & Hi & _ & ->).
  specialize (Hc q Hq). rewrite Hi in Hc. cbn in Hc.
  split; [reflexivity|].
  unfold mark_raw_llm_output_done, task_done. cbn.
  destruct (unfinished_tasks q); [lia|]. eexists. split; reflexivity.
Qed.

Lemma get_counted b item b1 :
  counted b -> get_raw_llm_output b = (Done item, b1) ->
  llm_message_queue b1 = llm_message_queue b
  /\ exists q1, raw_llm_output_queue b1 = Some q1 /\ 0 < unfinished_tasks q1.
Proof.
  intros Hc Hget.
  apply get_raw_llm_output_returns in Hget as (q & rest & Hq & Hi & _ & ->).
  specialize (Hc q Hq). rewrite Hi in Hc. cbn in Hc.
  split; [reflexivity|]. eexists. split; [reflexivity|]. cbn. lia.
Qed.

Lemma counted_waiting turn : counted (ws_bus (waiting turn)).
Proof. intros q H. inversion H. cbn. lia. Qed.

(** ** The steps leave the channel of raw turns alone *)

Lemma keeps_raw_ret {A : Type} (a : A) : keeps_raw (ret a).
Proof. intros s. reflexivity. Qed.

Lemma keeps_raw_raise {A : Type} (e : exn) : keeps_raw (@raise A e).
Proof. intros s. reflexivity. Qed.

Lemma keeps_raw_bind {A B : Type} (m : M A) (k : A -> M B) :
  keeps_raw m -> (forall a, keeps_raw (k a)) -> keeps_raw (bind m k).
Proof.
  intros Hm Hk s. unfold bind. specialize (Hm s).
  destruct (m s) as [[a|e] s']; cbn in *; [|assumption].
  rewrite (Hk a s'). assumption.
Qed.

Lemma keeps_raw_try_except {A : Type} (body : M A) (handler : exn -> M A) :
  keeps_raw body -> (forall e, keeps_raw (handler e)) -> keeps_raw (try_except body handler).
Proof.
  intros Hb Hh s. unfold try_except. specialize (Hb s).
  destruct (body s) as [[a|e] s']; cbn in *; [assumption|].
  destruct (is_Exception e); [|assumption].
  rewrite (Hh e s'). assumption.
Qed.

Lemma keeps_raw_uuid4 : keeps_raw uuid4.
Proof. intros s. reflexivity. Qed.

Lemma keeps_raw_count_decision : keeps_raw count_decision.
Proof. intros s. reflexivity. Qed.

Lemma keeps_raw_enqueue m : keeps_raw (enqueue m).
Proof.
  intros s. unfold enqueue, enqueue_llm_message.
  destruct (llm_message_queue (ws_bus s)) as [q|]; [|reflexivity].
  destruct (put q m) as [[u|e|] q']; reflexivity.
Qed.

Lemma keeps_raw_for_each {A : Type} (l : list A) (f : A -> M unit) :
  (forall x, keeps_raw (f x)) -> keeps_raw (for_each l f).
Proof.
  intros Hf. induction l as [|x l IH]; cbn.
  - apply keeps_raw_ret.
  - apply keeps_raw_bind; auto.
Qed.

Create HintDb raw discriminated.
#[local] Hint Resolve keeps_raw_ret keeps_raw_raise keeps_raw_uuid4
  keeps_raw_count_decision keeps_raw_enqueue : raw.

Lemma keeps_raw_process_item w item : keeps_raw (process_item w item).
Proof.
  unfold process_item.
  destruct (meta item) as [md|]; [|auto with raw].
  destruct (source md) as [src|]; [|auto with raw].
  destruct (assistant_response item) as [response|]; [|auto with raw].
  destruct (negb (truthy response)); [auto with raw|].
  apply keeps_raw_bind.
  - unfold step1. apply keeps_raw_try_except; [|auto with raw].
    destruct (negb _); [|auto with raw].
    apply keeps_raw_bind; [auto with raw|]. intros _ s. reflexivity.
  - intros decision. unfold after_decision.
    destruct (displayEnhancement decision); [|auto with raw].
    apply keeps_raw_bind; [auto with raw|]. intros u.
    apply keeps_raw_bind; [auto with raw|]. intros _.
    destruct (_ && _); [auto with raw|].
    assert (Hm : forall c, keeps_raw (message_for_frontend src md c)).
    { intros c. unfold message_for_frontend. apply keeps_raw_bind; auto with raw. }
    destruct (thesys_client w) as [fragments|].
    + apply keeps_raw_try_except.
      * unfold stream_to_frontend. destruct (prepare w); [auto with raw|].
        apply keeps_raw_bind; [auto with raw|]. intros v.
        apply keeps_raw_bind; [|auto with raw].
        apply keeps_raw_for_each. auto with raw.
      * intros e. apply keeps_raw_bind; auto with raw.
    + apply keeps_raw_bind; auto with raw.
Qed.

Lemma keeps_raw_on_exception item : keeps_raw (on_exception item).
Proof.
  unfold on_exception. destruct item as [it|].
  - destruct (meta it); [|auto with raw].
    apply keeps_raw_bind; [auto with raw|]. intros u.
    apply keeps_raw_try_except; auto with raw.
  - apply keeps_raw_bind; [auto with raw|]. intros u.
    apply keeps_raw_try_except; auto with raw.
Qed.

(** ** The steps that ask for no decision *)

Lemma reports_ret {A : Type} (a : A) : reports (ret a).
Proof. intros s. split; [reflexivity|]. exists []. cbn. now rewrite app_nil_r. Qed.

Lemma reports_raise {A : Type} (e : exn) : reports (@raise A e).
Proof. intros s. split; [reflexivity|]. exists []. cbn. now rewrite app_nil_r. Qed.

Lemma reports_bind {A B : Type} (m : M A) (k : A -> M B) :
  reports m -> (forall a, reports (k a)) -> reports (bind m k).
Proof.
  intros Hm Hk s. unfold bind. destruct (Hm s) as (H1 & l & H2).
  destruct (m s) as [[a|e] s']; cbn [snd] in *; [|eauto].
  destruct (Hk a s') as (H3 & l' & H4). split; [congruence|].
  exists (l ++ l'). now rewrite H4, H2, app_assoc.
Qed.

Lemma reports_try_except {A : Type} (body : M A) (handler : exn -> M A) :
  reports body -> (forall e, reports (handler e)) -> reports (try_except body handler).
Proof.
  intros Hb Hh s. unfold try_except. destruct (Hb s) as (H1 & l & H2).
  destruct (body s) as [[a|e] s']; cbn [snd] in *; [eauto|].
  destruct (is_Exception e); [|eauto].
  destruct (Hh e s') as (H3 & l' & H4). split; [congruence|].
  exists (l ++ l'). now rewrite H4, H2, app_assoc.
Qed.

Lemma reports_uuid4 : reports uuid4.
Proof. intros s. split; [reflexivity|]. exists []. cbn. now rewrite app_nil_r. Qed.

Lemma reports_enqueue m : reports (enqueue m).
Proof.
  intros s. unfold enqueue.
  destruct (enqueue_llm_message m (ws_bus s)) as [[u|e|] b]; cbn [snd ws_decisions ws_sent];
    (split; [reflexivity|]); [now exists [m]| |]; exists []; now rewrite app_nil_r.
Qed.

Lemma reports_for_each {A : Type} (l : list A) (f : A -> M unit) :
  (forall x, reports (f x)) -> reports (for_each l f).
Proof.
  intros Hf. induction l as [|x l IH]; cbn.
  - apply reports_ret.
  - apply reports_bind; auto.
Qed.

Create HintDb sent discriminated.
#[local] Hint Resolve reports_ret reports_raise reports_uuid4 reports_enqueue : sent.

Lemma reports_on_exception item : reports (on_exception item).
Proof.
  unfold on_exception. destruct item as [it|].
  - destruct (meta it); [|auto with sent].
    apply reports_bind; [auto with sent|]. intros u.
    apply reports_try_except; auto with sent.
  - apply reports_bind; [auto with sent|]. intros u.
    apply reports_try_except; auto with sent.
Qed.

(** What follows the indicator of a decision for the enhancement. *)
Lemma reports_rendering w src md d :
  reports (match thesys_client w with
           | Some fragments =>
               try_except (stream_to_frontend w fragments md)
                 (fun e =>
                    m <- message_for_frontend src md
                           (Callout (cp "warning") (cp "Visualization Error")
                                    (cp "Failed to generate UI: " ++ exn_text w e)) ;;
                    enqueue m)
           | None =>
               m <- message_for_frontend src md (SimpleCard (displayEnhancedText d)) ;;
               enqueue m
           end).
Proof.
  assert (Hm : forall c, reports (message_for_frontend src md c)).
  { intros c. unfold message_for_frontend. apply reports_bind; auto with sent. }
  destruct (thesys_client w) as [fragments|].
  - apply reports_try_except.
    + unfold stream_to_frontend. destruct (prepare w); [auto with sent|].
      apply reports_bind; [auto with sent|]. intros v.
      apply reports_bind; [|auto with sent].
      apply reports_for_each. auto with sent.
    + intros e. apply reports_bind; auto with sent.
  - apply reports_bind; auto with sent.
Qed.

(** ** The acknowledgment on the channel *)

(** An iteration on a channel that holds a turn takes the turn off the
    channel.  It acknowledges it, which comes to one unfinished task
    less, exactly when the turn has a response text: for a turn without
    one [get_raw_llm_output] raises with the turn off the queue, and
    [got_item] is never set. *)
Lemma acknowledgment_on_channel (w : world) (s : wstate) (q : queue RawLLMOutput)
    (item : RawLLMOutput) (rest : list RawLLMOutput) :
  raw_llm_output_queue (ws_bus s) = Some q -> items q = item :: rest ->
  0 < unfinished_tasks q ->
  acknowledged (iteration w s)
  = (match assistant_response item with Some _ => true | None => false end)
  /\ raw_llm_output_queue (ws_bus (final (iteration w s)))
     = Some {| maxsize := maxsize q; items := rest;
               unfinished_tasks := if acknowledged (iteration w s)
                                   then pred (unfinished_tasks q)
                                   else unfinished_tasks q |}.
Proof.
  intros Hq Hi Hpos.
  assert (Ha : acknowledged (iteration w s)
               = match assistant_response item with Some _ => true | None => false end).
  { rewrite acknowledged_got_item. unfold try_block.
    rewrite (get_raw_llm_output_first _ q item rest Hq Hi).
    now destruct (assistant_response item). }
  split; [exact Ha|]. rewrite Ha.
  unfold iteration, try_block. rewrite (get_raw_llm_output_first _ q item rest Hq Hi).
  set (s1 := {| ws_bus := _; ws_sent := ws_sent s; ws_uuids := _; ws_decisions := _ |}).
  assert (Hb : raw_llm_output_queue (ws_bus s1)
               = Some {| maxsize := maxsize q; items := rest;
                         unfinished_tasks := unfinished_tasks q |}) by reflexivity.
  destruct (assistant_response item) as [response|].
  - pose proof (keeps_raw_process_item w item s1) as Hp.
    destruct (process_item w item s1) as [[u|e] s2]; cbn [snd] in Hp.
    + rewrite (finally_on_channel _ s2 _ (eq_trans Hp Hb) Hpos). reflexivity.
    + destruct (is_Exception e).
      * pose proof (keeps_raw_on_exception (Some item) s2) as Ho.
        destruct (on_exception (Some item) s2) as [r3 s3]; cbn [snd] in Ho.
        rewrite (finally_on_channel _ s3 _ (eq_trans Ho (eq_trans Hp Hb)) Hpos).
        reflexivity.
      * rewrite (finally_on_channel _ s2 _ (eq_trans Hp Hb) Hpos). reflexivity.
  - cbn [is_Exception]. pose proof (keeps_raw_on_exception None s1) as Ho.
    destruct (on_exception None s1) as [r3 s3]; cbn [snd] in Ho.
    cbn [finally final]. now rewrite Ho.
Qed.

(** A cancellation that arrives while the decision is awaited leaves
    the processing of the item. *)
Lemma cancelled_decision (w : world) (item : RawLLMOutput) (md : metadata)
    (src response : pystr) (s : wstate) :
  meta item = Some md -> source md = Some src -> src <> text_chat ->
  assistant_response item = Some response -> truthy response = true ->
  make_decision w response (history item) = Raised CancelledError ->
  process_item w item s
  = (Raised CancelledError,
     {| ws_bus := ws_bus s; ws_sent := ws_sent s; ws_uuids := ws_uuids s;
        ws_decisions := S (ws_decisions s) |}).
Proof.
  intros Hmd Hsrc Hne Hresp Ht Hdec.
  unfold process_item. rewrite Hmd, Hsrc, Hresp, Ht. cbn [negb].
  unfold bind at 1. unfold step1, try_except.
  rewrite bool_decide_eq_false_2 by assumption.
  cbn [negb]. unfold bind at 1. unfold count_decision.
  rewrite Hdec. reflexivity.
Qed.

(** The item being dequeued already, the cancellation leaves the loop,
    and the [finally] clause acknowledges the item. *)
Lemma cancelled_after_dequeue (w : world) (s : wstate) (item : RawLLMOutput)
    (b : bus) (md : metadata) (src response : pystr) :
  counted (ws_bus s) ->
  get_raw_llm_output (ws_bus s) = (Done item, b) ->
  meta item = Some md -> source md = Some src -> src <> text_chat ->
  assistant_response item = Some response -> truthy response = true ->
  make_decision w response (history item) = Raised CancelledError ->
  acknowledged (iteration w s) = true
  /\ propagated (iteration w s) = Some CancelledError
  /\ ws_sent (final (iteration w s)) = ws_sent s
  /\ ws_decisions (final (iteration w s)) = S (ws_decisions s).
Proof.
  intros Hc Hget Hmd Hsrc Hne Hresp Ht Hdec.
  destruct (get_counted _ _ _ Hc Hget) as (_ & q1 & Hq1 & Hpos).
  unfold iteration, try_block. rewrite Hget.
  rewrite (cancelled_decision w item md src response) by assumption.
  cbn [is_Exception ws_bus ws_sent ws_uuids ws_decisions].
  match goal with |- context [finally true ?r ?st] =>
    destruct (finally_fields true r st) as (-> & _ & -> & _ & ->);
    rewrite (finally_propagated r st q1 Hq1 Hpos)
  end.
  auto.
Qed.

(** C7 (the code against the claim): an iteration on a channel that
    holds a turn always takes the turn off the channel, but the
    acknowledgment does not follow the dequeue.  A turn without a
    response text is dequeued and never acknowledged: the count of
    unfinished tasks stays as it was.  And a cancellation that arrives
    once the turn is dequeued, while the decision is awaited, leaves the
    loop with the turn acknowledged, though it was not processed. *)
Theorem C7_acknowledgment_misses_the_dequeue (w : world) (s : wstate)
    (q : queue RawLLMOutput) (item : RawLLMOutput) (rest : list RawLLMOutput) :
  raw_llm_output_queue (ws_bus s) = Some q -> items q = item :: rest ->
  0 < unfinished_tasks q ->
  (raw_llm_output_queue (ws_bus (final (iteration w s)))
   = Some {| maxsize := maxsize q; items := rest;
             unfinished_tasks := if acknowledged (iteration w s)
                                 then pred (unfinished_tasks q)
                                 else unfinished_tasks q |})
  /\ (assistant_response item = None -> acknowledged (iteration w s) = false)
  /\ (forall md src response,
        meta item = Some md -> source md = Some src -> src <> text_chat ->
        assistant_response item = Some response -> truthy response = true ->
        make_decision w response (history item) = Raised CancelledError ->
        acknowledged (iteration w s) = true
        /\ propagated (iteration w s) = Some CancelledError
        /\ ws_sent (final (iteration w s)) = ws_sent s
        /\ ws_decisions (final (iteration w s)) = S (ws_decisions s)).
Proof.
  intros Hq Hi Hpos.
  destruct (acknowledgment_on_channel w s q item rest Hq Hi Hpos) as [Ha Hc].
  split; [exact Hc|]. split.
  - intros Hr. now rewrite Ha, Hr.
  - intros md src response Hmd Hsrc Hne Hresp Ht Hdec.
    pose proof (get_raw_llm_output_first _ q item rest Hq Hi) as Hget.
    rewrite Hresp in Hget.
    unfold iteration, try_block. rewrite Hget.
    rewrite (cancelled_decision w item md src response) by assumption.
    cbn [is_Exception ws_bus ws_sent ws_uuids ws_decisions].
    match goal with |- context [finally true ?r ?st] =>
      destruct (finally_fields true r st) as (-> & _ & -> & _ & ->);
      rewrite (finally_propagated r st
                 {| maxsize := maxsize q; items := rest;
                    unfinished_tasks := unfinished_tasks q |} eq_refl Hpos)
    end.
    auto.
Qed.

Lemma C7_acknowledgment_misses_the_dequeue_witness :
  (raw_llm_output_queue (ws_bus (final (iteration plain_world (waiting null_turn))))
   = Some {| maxsize := 100; items := []; unfinished_tasks := 1 |}
   /\ acknowledged (iteration plain_world (waiting null_turn)) = false)
  /\ (raw_llm_output_queue (ws_bus (final (iteration cancelled_world (waiting voice_turn))))
      = Some {| maxsize := 100; items := []; unfinished_tasks := 0 |}
      /\ acknowledged (iteration cancelled_world (waiting voice_turn)) = true
      /\ propagated (iteration cancelled_world (waiting voice_turn)) = Some CancelledError
      /\ ws_sent (final (iteration cancelled_world (waiting voice_turn))) = []
      /\ ws_decisions (final (iteration cancelled_world (waiting voice_turn))) = 1).
Proof.
  assert (Hv : voice_agent <> text_chat) by discriminate.
  destruct (C7_acknowledgment_misses_the_dequeue plain_world (waiting null_turn)
              {| maxsize := 100; items := [null_turn]; unfinished_tasks := 1 |}
              null_turn [] eq_refl eq_refl (Nat.lt_0_succ 0)) as (N1 & N2 & _).
  destruct (C7_acknowledgment_misses_the_dequeue cancelled_world (waiting voice_turn)
              {| maxsize := 100; items := [voice_turn]; unfinished_tasks := 1 |}
              voice_turn [] eq_refl eq_refl (Nat.lt_0_succ 0)) as (V1 & _ & V3).
  destruct (V3 voice_metadata voice_agent (cp "It is sunny.")
              eq_refl eq_refl Hv eq_refl eq_refl eq_refl) as (V4 & V5 & V6 & V7).
  split.
  - split; [|exact (N2 eq_refl)]. rewrite N1, (N2 eq_refl). reflexivity.
  - split; [|repeat split; assumption]. rewrite V1, V4. reflexivity.
Defined.

(** The turn without a response text is answered with the system-error
    warning. *)
Lemma missing_response_is_reported :
  ws_sent (final (iteration plain_world (waiting null_turn)))
  = [VoiceResponse (Uuid4 0) system_error None false]
  /\ propagated (iteration plain_world (waiting null_turn)) = None.
Proof. split; reflexivity. Qed.

(** ** Turns with an empty response *)

Lemma empty_response_stops w item s :
  assistant_response item = Some [] ->
  process_item w item s
  = (match meta item with
     | None => Raised OtherException
     | Some md => match source md with None => Raised KeyError | Some _ => Returned tt end
     end, s).
Proof.
  intros Hr. unfold process_item. destruct (meta item) as [md|]; [|reflexivity].
  destruct (source md); [|reflexivity]. now rewrite Hr.
Qed.




(** ** The turns of the text path *)

Lemma room_not_full q n : room q (S n) -> full q = false.
Proof.
  intros [H|H]; unfold full; apply andb_false_iff.
  - left. apply Z.ltb_ge. assumption.
  - right. apply Z.leb_gt. lia.
Qed.

Lemma room_pushed q m n : room q (S n) -> room (pushed q m) n.
Proof.
  intros [H|H]; [now left|right]. cbn. rewrite length_app. cbn. lia.
Qed.

Lemma enqueue_room m s q n :
  llm_message_queue (ws_bus s) = Some q -> room q (S n) ->
  enqueue m s
  = (Returned tt, {| ws_bus := set_llm (ws_bus s) (pushed q m);
                     ws_sent := ws_sent s ++ [m];
                     ws_uuids := ws_uuids s;
                     ws_decisions := ws_decisions s |}).
Proof.
  intros Hq Hr. unfold enqueue, enqueue_llm_message, put.
  rewrite Hq, (room_not_full q n Hr). reflexivity.
Qed.

Lemma process_item_decides w item md src response s :
  meta item = Some md -> source md = Some src ->
  assistant_response item = Some response -> truthy response = true ->
  process_item w item s
  = bind (step1 w (bool_decide (src = text_chat)) response (history item))
         (after_decision w src md) s.
Proof.
  intros Hmd Hsrc Hresp Ht. unfold process_item. now rewrite Hmd, Hsrc, Hresp, Ht.
Qed.

(** The enhancement is on: the indicator, then what follows it. *)
Lemma after_decision_on w src md d s q n :
  displayEnhancement d = true ->
  llm_message_queue (ws_bus s) = Some q -> room q (S n) ->
  after_decision w src md d s
  = (match thesys_client w with
     | Some fragments =>
         try_except (stream_to_frontend w fragments md)
           (fun e =>
              m <- message_for_frontend src md
                     (Callout (cp "warning") (cp "Visualization Error")
                              (cp "Failed to generate UI: " ++ exn_text w e)) ;;
              enqueue m)
     | None =>
         m <- message_for_frontend src md (SimpleCard (displayEnhancedText d)) ;;
         enqueue m
     end)
      {| ws_bus := set_llm (ws_bus s)
                     (pushed q (create_enhancement_started (Uuid4 (ws_uuids s)) default_note));
         ws_sent := ws_sent s ++ [create_enhancement_started (Uuid4 (ws_uuids s)) default_note];
         ws_uuids := S (ws_uuids s);
         ws_decisions := ws_decisions s |}.
Proof.
  intros Hd Hq Hr. unfold after_decision. rewrite Hd.
  unfold bind at 1. unfold uuid4.
  unfold bind at 1. erewrite enqueue_room by (cbn [ws_bus]; eauto).
  cbn [negb andb ws_bus ws_sent ws_uuids ws_decisions]. rewrite andb_false_r. reflexivity.
Qed.



(** With no rendering service set, and the channel to the frontend
    taking two messages, a turn of the text path is answered with the
    enhancement-started indicator and then exactly one static card
    wrapping the response text, as a text chat response for the thread
    of the turn; the item is acknowledged. *)
Lemma text_turn_static_card (w : world) (s : wstate) (item : RawLLMOutput)
    (b : bus) (md : metadata) (response : pystr) (q : queue message) :
  get_raw_llm_output (ws_bus s) = (Done item, b) ->
  meta item = Some md -> source md = Some text_chat ->
  assistant_response item = Some response -> truthy response = true ->
  thesys_client w = None ->
  llm_message_queue (ws_bus s) = Some q -> room q 2 ->
  ws_decisions (final (iteration w s)) = ws_decisions s
  /\ ws_sent (final (iteration w s))
     = ws_sent s
       ++ [create_enhancement_started (Uuid4 (ws_uuids s)) default_note;
           create_text_chat_response (Uuid4 (S (ws_uuids s))) (SimpleCard response)
             (thread_id md)]
  /\ acknowledged (iteration w s) = true.
Proof.
  intros Hget Hmd Hsrc Hresp Ht Hth Hq Hroom.
  assert (Hq1 : llm_message_queue b = Some q).
  { apply get_raw_llm_output_returns in Hget as (q0 & rest & _ & _ & _ & ->). exact Hq. }
  split; [|split]; [| |rewrite acknowledged_got_item; unfold try_block; now rewrite Hget].
  all: unfold iteration, try_block; rewrite Hget.
  all: unfold process_item; rewrite Hmd, Hsrc, Hresp, Ht; cbn [negb].
  all: replace (bool_decide (text_chat = text_chat)) with true by reflexivity.
  all: unfold bind at 1; unfold step1, try_except; cbn [negb ret].
  all: unfold after_decision; cbn [displayEnhancement displayEnhancedText].
  all: unfold bind at 1; unfold uuid4; cbn [ws_bus ws_sent ws_uuids ws_decisions].
  all: unfold bind at 1.
  all: erewrite enqueue_room by (cbn [ws_bus]; eauto).
  all: replace (bool_decide (text_chat = voice_agent)) with false by reflexivity.
  all: cbn [andb negb]; rewrite Hth.
  all: unfold bind at 1; unfold message_for_frontend.
  all: unfold bind at 1; unfold uuid4; cbn [ws_bus ws_sent ws_uuids ws_decisions ret].
  all: replace (bool_decide (text_chat = text_chat)) with true by reflexivity.
  all: erewrite enqueue_room
         by (cbn [ws_bus set_llm llm_message_queue]; eauto using room_pushed).
  all: unfold finally; cbn [ws_bus].
  all: destruct (mark_raw_llm_output_done _) as [done b']; cbn.
  - reflexivity.
  - now rewrite <- app_assoc.
Qed.

(** On the sample turn that comes to two messages, where the claim
    wants one. *)
Lemma text_turn_static_card_sample :
  ws_sent (final (iteration plain_world (waiting text_turn)))
  = [EnhancementStarted (Uuid4 0) default_note;
     TextChatResponse (Uuid4 1) (SimpleCard (cp "Here is the summary.")) (Some (cp "t1"))].
Proof. reflexivity. Qed.

End WorkerFacts.

Module StoreFacts.
Import PyStr ChatHistory ChatHistoryStore HistoryTerms StoreTerms HistoryFacts.

Lemma ensure_history thread_id now m :
  _history (_ensure_thread_exists thread_id now m) !! thread_id
  = Some (thread_history m thread_id).
Proof.
  unfold _ensure_thread_exists, thread_history.
  destruct (_history m !! thread_id) eqn:E; cbn; [now rewrite E|].
  now rewrite lookup_insert_eq.
Qed.

Lemma ensure_other thread_id other now m :
  other <> thread_id ->
  _history (_ensure_thread_exists thread_id now m) !! other = _history m !! other
  /\ _thread_metadata (_ensure_thread_exists thread_id now m) !! other
     = _thread_metadata m !! other.
Proof.
  intros Hne. unfold _ensure_thread_exists.
  destruct (_history m !! thread_id); cbn; [easy|].
  now rewrite !lookup_insert_ne by congruence.
Qed.

Lemma ensure_max thread_id now m :
  max_history_per_thread (_ensure_thread_exists thread_id now m) = max_history_per_thread m
  /\ max_inactive_time (_ensure_thread_exists thread_id now m) = max_inactive_time m.
Proof. unfold _ensure_thread_exists. destruct (_history m !! thread_id); easy. Qed.

Lemma update_other thread_id other now m :
  other <> thread_id ->
  _thread_metadata (_update_thread_activity thread_id now m) !! other
  = _thread_metadata m !! other.
Proof.
  intros Hne. unfold _update_thread_activity.
  destruct (_thread_metadata m !! thread_id); cbn; now rewrite lookup_insert_ne by congruence.
Qed.

Lemma update_history thread_id now m :
  _history (_update_thread_activity thread_id now m) = _history m
  /\ max_history_per_thread (_update_thread_activity thread_id now m) = max_history_per_thread m
  /\ max_inactive_time (_update_thread_activity thread_id now m) = max_inactive_time m
  /\ dom (_thread_metadata (_update_thread_activity thread_id now m))
     = {[thread_id]} ∪ dom (_thread_metadata m).
Proof.
  unfold _update_thread_activity.
  destruct (_thread_metadata m !! thread_id); cbn; rewrite dom_insert_L; easy.
Qed.

Lemma store_other thread_id other msg t0 t1 m :
  other <> thread_id ->
  _history (store thread_id msg t0 t1 m) !! other = _history m !! other
  /\ _thread_metadata (store thread_id msg t0 t1 m) !! other = _thread_metadata m !! other.
Proof.
  intros Hne. unfold store.
  set (m1 := _ensure_thread_exists thread_id t0 m).
  destruct (ensure_other thread_id other t0 m Hne) as [H1 M1]. fold m1 in H1, M1.
  set (m2 := append_to_thread thread_id msg m1).
  assert (H2 : _history m2 !! other = _history m !! other
               /\ _thread_metadata m2 = _thread_metadata m1).
  { unfold m2, append_to_thread. destruct (_history m1 !! thread_id); cbn; [|easy].
    now rewrite lookup_insert_ne by congruence. }
  destruct H2 as [H2 M2].
  set (m3 := _update_thread_activity thread_id t1 m2).
  destruct (update_history thread_id t1 m2) as (H3 & _).
  pose proof (update_other thread_id other t1 m2 Hne) as M3. fold m3 in H3, M3.
  unfold _trim_history_if_needed.
  destruct (_history m3 !! thread_id); [|split; congruence].
  destruct (_ <? _)%Z; cbn; [|split; congruence].
  rewrite lookup_insert_ne by congruence. split; congruence.
Qed.

Lemma store_dom thread_id msg t0 t1 m :
  dom (_history (store thread_id msg t0 t1 m)) = {[thread_id]} ∪ dom (_history m)
  /\ dom (_thread_metadata (store thread_id msg t0 t1 m))
     = {[thread_id]} ∪ dom (_thread_metadata m)
  /\ max_inactive_time (store thread_id msg t0 t1 m) = max_inactive_time m.
Proof.
  assert (Hh : forall other, is_Some (_history (store thread_id msg t0 t1 m) !! other)
                 <-> other = thread_id \/ is_Some (_history m !! other)).
  { intros other. destruct (decide (other = thread_id)) as [->|Hne].
    - destruct (store_history thread_id msg t0 t1 m) as [-> _]. split; eauto.
    - destruct (store_other thread_id other msg t0 t1 m Hne) as [-> _]. tauto. }
  split; [|split].
  - apply set_eq. intros other. rewrite elem_of_union, elem_of_singleton, !elem_of_dom.
    apply Hh.
  - unfold store.
    set (m1 := _ensure_thread_exists thread_id t0 m).
    set (m2 := append_to_thread thread_id msg m1).
    set (m3 := _update_thread_activity thread_id t1 m2).
    assert (E3 : _thread_metadata (_trim_history_if_needed thread_id m3) = _thread_metadata m3).
    { unfold _trim_history_if_needed. destruct (_history m3 !! thread_id); [|easy].
      now destruct (_ <? _)%Z. }
    rewrite E3. unfold m3. destruct (update_history thread_id t1 m2) as (_ & _ & _ & ->).
    assert (E2 : _thread_metadata m2 = _thread_metadata m1).
    { unfold m2, append_to_thread. now destruct (_history m1 !! thread_id). }
    rewrite E2. unfold m1, _ensure_thread_exists.
    destruct (_history m !! thread_id); cbn; [easy|].
    rewrite !dom_insert_L. apply set_eq. intros x. rewrite !elem_of_union. tauto.
  - unfold store.
    set (m1 := _ensure_thread_exists thread_id t0 m).
    set (m2 := append_to_thread thread_id msg m1).
    set (m3 := _update_thread_activity thread_id t1 m2).
    assert (E3 : max_inactive_time (_trim_history_if_needed thread_id m3) = max_inactive_time m3).
    { unfold _trim_history_if_needed. destruct (_history m3 !! thread_id); [|easy].
      now destruct (_ <? _)%Z. }
    rewrite E3. unfold m3. destruct (update_history thread_id t1 m2) as (_ & _ & -> & _).
    assert (E2 : max_inactive_time m2 = max_inactive_time m1).
    { unfold m2, append_to_thread. now destruct (_history m1 !! thread_id). }
    rewrite E2. apply ensure_max.
Qed.

Lemma store_metadata thread_id msg t0 t1 m :
  exists created,
    _thread_metadata (store thread_id msg t0 t1 m) !! thread_id
    = Some {| created_at := created; last_activity := t1 |}.
Proof.
  unfold store.
  set (m1 := _ensure_thread_exists thread_id t0 m).
  set (m2 := append_to_thread thread_id msg m1).
  set (m3 := _update_thread_activity thread_id t1 m2).
  assert (E3 : _thread_metadata (_trim_history_if_needed thread_id m3) = _thread_metadata m3).
  { unfold _trim_history_if_needed. destruct (_history m3 !! thread_id); [|easy].
    now destruct (_ <? _)%Z. }
  rewrite E3. unfold m3, _update_thread_activity.
  destruct (_thread_metadata m2 !! thread_id) as [md|]; cbn;
    rewrite lookup_insert_eq; eauto.
Qed.

(** Removing a list of threads. *)
Lemma remove_threads ids : forall m,
  let m' := fold_left (fun acc thread_id => remove_thread thread_id acc) ids m in
  (forall thread_id,
     _history m' !! thread_id
     = if decide (thread_id ∈ ids) then None else _history m !! thread_id)
  /\ (forall thread_id,
     _thread_metadata m' !! thread_id
     = if decide (thread_id ∈ ids) then None else _thread_metadata m !! thread_id)
  /\ max_history_per_thread m' = max_history_per_thread m
  /\ max_inactive_time m' = max_inactive_time m.
Proof.
  induction ids as [|i ids IH]; intros m; cbn.
  - repeat split; intros; now rewrite decide_False by apply not_elem_of_nil.
  - destruct (IH (remove_thread i m)) as (H & M & X & Y). cbn in H, M, X, Y.
    repeat split; [| |exact X|exact Y]; intros t; [rewrite H|rewrite M]; cbn;
      destruct (decide (t ∈ ids)) as [Hin|Hin].
    + rewrite decide_True; [easy|now apply list_elem_of_further].
    + destruct (decide (t = i)) as [->|Hne].
      * rewrite lookup_delete_eq, decide_True; [easy|apply list_elem_of_here].
      * rewrite lookup_delete_ne by congruence.
        rewrite decide_False; [easy|]. rewrite elem_of_cons. tauto.
    + rewrite decide_True; [easy|now apply list_elem_of_further].
    + destruct (decide (t = i)) as [->|Hne].
      * rewrite lookup_delete_eq, decide_True; [easy|apply list_elem_of_here].
      * rewrite lookup_delete_ne by congruence.
        rewrite decide_False; [easy|]. rewrite elem_of_cons. tauto.
Qed.

Lemma threads_to_delete_spec now m thread_id :
  thread_id ∈ threads_to_delete now m
  <-> exists md, _thread_metadata m !! thread_id = Some md
                 /\ inactive (max_inactive_time m) now md = true.
Proof.
  unfold threads_to_delete. rewrite list_elem_of_In, in_map_iff. split.
  - intros ([k md] & <- & Hin). apply filter_In in Hin as [Hin Hst]. cbn in *.
    exists md. split; [|easy]. apply elem_of_map_to_list. now apply list_elem_of_In.
  - intros (md & Hl & Hst). exists (thread_id, md). split; [easy|].
    apply filter_In. split; [|easy]. apply list_elem_of_In. now apply elem_of_map_to_list.
Qed.

Lemma threads_to_delete_NoDup now m : NoDup (threads_to_delete now m).
Proof.
  unfold threads_to_delete.
  pose proof (NoDup_fst_map_to_list (_thread_metadata m)) as H.
  induction (map_to_list (_thread_metadata m)) as [|[k md] l IH]; cbn in *.
  - constructor.
  - apply NoDup_cons in H as [Hk Hl].
    destruct (inactive _ _ md); cbn; [|auto].
    apply NoDup_cons. split; [|auto].
    intros Hin. apply Hk. apply list_elem_of_In in Hin. apply in_map_iff in Hin.
    destruct Hin as ([k' md'] & <- & Hin). apply filter_In in Hin as [Hin _].
    apply list_elem_of_fmap. exists (k', md'). split; [easy|]. now apply list_elem_of_In.
Qed.

Lemma remove_threads_size ids : forall m,
  NoDup ids ->
  (forall k, k ∈ ids -> is_Some (_thread_metadata m !! k)) ->
  length ids + size (_thread_metadata
                       (fold_left (fun acc thread_id => remove_thread thread_id acc) ids m))
  = size (_thread_metadata m).
Proof.
  induction ids as [|i ids IH]; intros m Hnd Hin; cbn; [easy|].
  apply NoDup_cons in Hnd as [Hi Hnd].
  destruct (Hin i (list_elem_of_here _ _)) as [md Hmd].
  assert (Hs : size (_thread_metadata m) = S (size (delete i (_thread_metadata m)))).
  { rewrite <- (insert_delete_id (_thread_metadata m) i md Hmd) at 1.
    apply map_size_insert_None, lookup_delete_eq. }
  rewrite Hs. f_equal. apply (IH (remove_thread i m) Hnd).
  intros k Hk. cbn. rewrite lookup_delete_ne; [|intros ->; easy].
  apply Hin. now apply list_elem_of_further.
Qed.

Lemma cleanup_lookup now m thread_id :
  let m' := snd (cleanup_inactive_threads now m) in
  match _thread_metadata m !! thread_id with
  | Some md =>
      if inactive (max_inactive_time m) now md
      then _thread_metadata m' !! thread_id = None /\ _history m' !! thread_id = None
      else _thread_metadata m' !! thread_id = Some md
           /\ _history m' !! thread_id = _history m !! thread_id
  | None => _thread_metadata m' !! thread_id = None
            /\ _history m' !! thread_id = _history m !! thread_id
  end.
Proof.
  cbn. destruct (remove_threads (threads_to_delete now m) m) as (H & M & _). cbn in H, M.
  rewrite H, M. pose proof (threads_to_delete_spec now m thread_id) as S.
  destruct (_thread_metadata m !! thread_id) as [md|] eqn:E.
  - destruct (inactive _ _ md) eqn:I.
    + assert (Hin : thread_id ∈ threads_to_delete now m) by (apply S; eauto).
      now rewrite !decide_True by exact Hin.
    + assert (Hin : thread_id ∉ threads_to_delete now m).
      { intros Hin. apply S in Hin as (md' & Hmd & I'). congruence. }
      now rewrite !decide_False by exact Hin.
  - assert (Hin : thread_id ∉ threads_to_delete now m).
    { intros Hin. apply S in Hin as (md' & Hmd & _). congruence. }
    now rewrite !decide_False by exact Hin.
Qed.

Lemma cleanup_settings now m :
  max_history_per_thread (snd (cleanup_inactive_threads now m)) = max_history_per_thread m
  /\ max_inactive_time (snd (cleanup_inactive_threads now m)) = max_inactive_time m.
Proof.
  cbn. destruct (remove_threads (threads_to_delete now m) m) as (_ & _ & X & Y). easy.
Qed.

(** The slice [l[-limit:]] is a suffix of the list. *)
Lemma last_slice_suffix {A : Type} (limit : Z) (l : list A) :
  exists older, l = older ++ last_slice limit l.
Proof.
  unfold last_slice. destruct (0 <? limit)%Z; eexists; symmetry; apply take_drop.
Qed.

Lemma after_settings c m :
  max_history_per_thread (after c m) = max_history_per_thread m
  /\ max_inactive_time (after c m) = max_inactive_time m.
Proof.
  destruct c; cbn [after snd get_history get_recent_history].
  - rewrite run_op_store. split; [apply store_history|apply store_dom].
  - apply ensure_max.
  - apply ensure_max.
  - unfold clear_history. destruct (_history m !! thread_id); [|easy].
    destruct (update_history thread_id now
                (with_history m (<[thread_id:=[]]> (_history m)))) as (_ & -> & -> & _).
    easy.
  - unfold delete_thread. now destruct (_history m !! thread_id).
  - apply cleanup_settings.
Qed.

Lemma after_consistent c m :
  (0 <= max_history_per_thread m)%Z -> consistent m -> consistent (after c m).
Proof.
  intros Hmax [Hdom Hlen].
  destruct (after_settings c m) as [Hs _].
  split; [|rewrite Hs]; destruct c; cbn [after snd get_history get_recent_history] in *.
  - rewrite run_op_store.
    destruct (store_dom thread_id (formatted op) t0 t1 m) as (-> & -> & _). now rewrite Hdom.
  - unfold _ensure_thread_exists. destruct (_history m !! thread_id); cbn; [easy|].
    rewrite !dom_insert_L. now rewrite Hdom.
  - unfold _ensure_thread_exists. destruct (_history m !! thread_id); cbn; [easy|].
    rewrite !dom_insert_L. now rewrite Hdom.
  - unfold clear_history. destruct (_history m !! thread_id) eqn:E; [|easy].
    destruct (update_history thread_id now
                (with_history m (<[thread_id:=[]]> (_history m)))) as (-> & _ & _ & ->).
    cbn. rewrite dom_insert_L, Hdom. reflexivity.
  - unfold delete_thread. destruct (_history m !! thread_id); [|easy].
    cbn. rewrite !dom_delete_L. now rewrite Hdom.
  - apply set_eq. intros t. rewrite !elem_of_dom.
    pose proof (cleanup_lookup current_time m t) as L. cbn zeta in L.
    assert (D : is_Some (_history m !! t) <-> is_Some (_thread_metadata m !! t)).
    { rewrite <- !elem_of_dom. now rewrite Hdom. }
    destruct (_thread_metadata m !! t) as [md|].
    + destruct (inactive _ _ md); destruct L as [-> ->].
      * split; intros [? [=]].
      * split; eauto. intros _. now apply D.
    + destruct L as [-> ->]. exact D.
  - intros t h. rewrite run_op_store.
    destruct (decide (t = thread_id)) as [->|Hne].
    + destruct (store_history thread_id (formatted op) t0 t1 m) as [-> _].
      intros [= <-]. now apply trimmed_length.
    + destruct (store_other thread_id t (formatted op) t0 t1 m Hne) as [-> _]. apply Hlen.
  - intros t h. destruct (decide (t = thread_id)) as [->|Hne].
    + rewrite ensure_history. intros [= <-]. unfold thread_history.
      destruct (_history m !! thread_id) eqn:E; cbn; [eauto|lia].
    + destruct (ensure_other thread_id t now m Hne) as [-> _]. apply Hlen.
  - intros t h. destruct (decide (t = thread_id)) as [->|Hne].
    + rewrite ensure_history. intros [= <-]. unfold thread_history.
      destruct (_history m !! thread_id) eqn:E; cbn; [eauto|lia].
    + destruct (ensure_other thread_id t now m Hne) as [-> _]. apply Hlen.
  - intros t h. unfold clear_history. destruct (_history m !! thread_id) eqn:E; [|apply Hlen].
    destruct (update_history thread_id now
                (with_history m (<[thread_id:=[]]> (_history m)))) as (-> & _).
    cbn. destruct (decide (t = thread_id)) as [->|Hne].
    + rewrite lookup_insert_eq. intros [= <-]. cbn. lia.
    + rewrite lookup_insert_ne by congruence. apply Hlen.
  - intros t h. unfold delete_thread. destruct (_history m !! thread_id); [|apply Hlen].
    cbn. destruct (decide (t = thread_id)) as [->|Hne].
    + now rewrite lookup_delete_eq.
    + rewrite lookup_delete_ne by congruence. apply Hlen.
  - intros t h. pose proof (cleanup_lookup current_time m t) as L. cbn zeta in L.
    destruct (_thread_metadata m !! t) as [md|].
    + destruct (inactive _ _ md); destruct L as [_ ->]; [easy|apply Hlen].
    + destruct L as [_ ->]. apply Hlen.
Qed.

Lemma new_manager_consistent max inact : consistent (new_manager max inact).
Proof. split; [easy|]. intros t h. cbn. now rewrite lookup_empty. Qed.

Lemma calls_consistent calls : forall m,
  (0 <= max_history_per_thread m)%Z -> consistent m ->
  consistent (fold_left (fun m c => after c m) calls m)
  /\ max_history_per_thread (fold_left (fun m c => after c m) calls m)
     = max_history_per_thread m.
Proof.
  induction calls as [|c calls IH]; intros m Hmax Hc; cbn; [easy|].
  destruct (after_settings c m) as [Hs _].
  destruct (IH (after c m)) as [H1 H2]; [lia|now apply after_consistent|].
  split; [easy|congruence].
Qed.

(** X1: whatever calls are made on a new store whose maximum is not
    negative, the store stays consistent: the histories and the thread
    metadata have the same thread ids, and no thread holds more
    messages than the maximum, which never changes. *)
Theorem store_stays_consistent (max inact : Z) (calls : list call) :
  (0 <= max)%Z ->
  let m := fold_left (fun m c => after c m) calls (new_manager max inact) in
  dom (_history m) = dom (_thread_metadata m)
  /\ (forall thread_id, (Z.of_nat (length (thread_history m thread_id)) <= max)%Z)
  /\ max_history_per_thread m = max.
Proof.
  intros Hmax m.
  destruct (calls_consistent calls (new_manager max inact) Hmax
              (new_manager_consistent max inact)) as [[Hd Hl] Hm]. fold m in Hd, Hl, Hm.
  cbn in Hm. repeat split; [easy| |easy].
  intros t. unfold thread_history. destruct (_history m !! t) eqn:E; cbn; [|lia].
  rewrite <- Hm. eauto.
Qed.

Lemma store_stays_consistent_witness :
  let m := fold_left (fun m c => after c m)
             [Append (cp "a") (AddUser (cp "one") None) 0 0;
              Append (cp "a") (AddAssistant (cp "two") None) 1 1;
              GetHistory (cp "b") 2;
              CleanupInactiveThreads 100]
             (new_manager 1 50) in
  dom (_history m) = dom (_thread_metadata m)
  /\ (forall thread_id, (Z.of_nat (length (thread_history m thread_id)) <= 1)%Z)
  /\ max_history_per_thread m = 1%Z.
Proof. apply (store_stays_consistent 1 50). lia. Defined.

(** X2: a call that names a thread leaves every other thread as it was:
    its messages and its time stamps. *)
Theorem calls_touch_one_thread (c : call) (thread_id other : pystr)
    (m : ChatHistoryManager) :
  target c = Some thread_id -> other <> thread_id ->
  _history (after c m) !! other = _history m !! other
  /\ _thread_metadata (after c m) !! other = _thread_metadata m !! other.
Proof.
  intros Ht Hne.
  destruct c; cbn in Ht; try discriminate; injection Ht as ->;
    cbn [after snd get_history get_recent_history].
  - rewrite run_op_store. now apply store_other.
  - now apply ensure_other.
  - now apply ensure_other.
  - unfold clear_history. destruct (_history m !! thread_id); [|easy].
    destruct (update_history thread_id now
                (with_history m (<[thread_id:=[]]> (_history m)))) as (-> & _).
    rewrite update_other by easy. cbn. now rewrite lookup_insert_ne by congruence.
  - unfold delete_thread. destruct (_history m !! thread_id); [|easy].
    cbn. now rewrite !lookup_delete_ne by congruence.
Qed.

Lemma calls_touch_one_thread_witness :
  _history (after (DeleteThread (cp "old")) two_threads) !! cp "new"
  = _history two_threads !! cp "new"
  /\ _thread_metadata (after (DeleteThread (cp "old")) two_threads) !! cp "new"
     = _thread_metadata two_threads !! cp "new".
Proof.
  apply (calls_touch_one_thread (DeleteThread (cp "old")) (cp "old") (cp "new"));
    [reflexivity|discriminate].
Defined.

(** X3: [cleanup_inactive_threads] removes a thread, from the histories and
    from the metadata, exactly when its metadata shows it idle for
    longer than [max_inactive_time]; every other thread keeps its
    messages and its time stamps; the number returned is the number of
    threads removed, and cleaning up again at the same time removes
    nothing. *)
Theorem cleanup_removes_the_inactive (m : ChatHistoryManager) (now : Z) :
  let n := fst (cleanup_inactive_threads now m) in
  let m' := snd (cleanup_inactive_threads now m) in
  (forall thread_id,
     match _thread_metadata m !! thread_id with
     | Some md =>
         if (max_inactive_time m <? now - last_activity md)%Z
         then _thread_metadata m' !! thread_id = None /\ _history m' !! thread_id = None
         else _thread_metadata m' !! thread_id = Some md
              /\ _history m' !! thread_id = _history m !! thread_id
     | None => _thread_metadata m' !! thread_id = None
               /\ _history m' !! thread_id = _history m !! thread_id
     end)
  /\ n + size (_thread_metadata m') = size (_thread_metadata m)
  /\ fst (cleanup_inactive_threads now m') = 0.
Proof.
  cbv zeta. split; [|split].
  - intros t. apply (cleanup_lookup now m t).
  - cbn. apply remove_threads_size; [apply threads_to_delete_NoDup|].
    intros k Hk. apply threads_to_delete_spec in Hk as (md & -> & _). eauto.
  - cbn [fst cleanup_inactive_threads].
    destruct (threads_to_delete now _) as [|t l] eqn:E; [easy|exfalso].
    assert (Hin : t ∈ threads_to_delete now (snd (cleanup_inactive_threads now m))).
    { rewrite E. apply list_elem_of_here. }
    apply threads_to_delete_spec in Hin as (md & Hmd & I).
    destruct (cleanup_settings now m) as [_ Hs]. rewrite Hs in I.
    pose proof (cleanup_lookup now m t) as L. cbn zeta in L.
    destruct (_thread_metadata m !! t) as [md0|].
    + destruct (inactive _ _ md0) eqn:I0; destruct L as [L _]; congruence.
    + destruct L as [L _]. congruence.
Qed.

(** X4: after an append on a thread at time [t1], a cleanup at a time not
    more than [max_inactive_time] later keeps the thread with all its
    messages; a cleanup later than that removes it, and the thread is
    then reported as not existing. *)
Theorem cleanup_after_append (m : ChatHistoryManager) (thread_id : pystr)
    (op : append_op) (t0 t1 now : Z) :
  let m1 := run_op thread_id op t0 t1 m in
  let m2 := snd (cleanup_inactive_threads now m1) in
  ((now - t1 <= max_inactive_time m)%Z ->
     _history m2 !! thread_id = _history m1 !! thread_id
     /\ info_exists (get_thread_info thread_id m2) = true
     /\ message_count (get_thread_info thread_id m2) = length (thread_history m1 thread_id))
  /\ ((max_inactive_time m < now - t1)%Z ->
     _history m2 !! thread_id = None
     /\ get_thread_info thread_id m2
        = {| info_exists := false; message_count := 0;
             info_last_activity := None; info_created_at := None |}).
Proof.
  cbv zeta. rewrite run_op_store.
  set (m1 := store thread_id (formatted op) t0 t1 m).
  destruct (store_metadata thread_id (formatted op) t0 t1 m) as [created Hmd].
  destruct (store_dom thread_id (formatted op) t0 t1 m) as (_ & _ & Hs).
  fold m1 in Hmd, Hs.
  pose proof (cleanup_lookup now m1 thread_id) as L. cbn zeta in L.
  rewrite Hmd, Hs in L. unfold inactive in L. cbn [last_activity] in L.
  split; intros Hlt.
  - destruct (Z.ltb_spec (max_inactive_time m) (now - t1)); [lia|].
    destruct L as [L1 L2]. unfold get_thread_info. rewrite L1, L2. cbn.
    repeat split; easy.
  - destruct (Z.ltb_spec (max_inactive_time m) (now - t1)); [|lia].
    destruct L as [L1 L2]. unfold get_thread_info. now rewrite L1, L2.
Qed.

Lemma cleanup_after_append_witness :
  let m1 := run_op (cp "t") (AddUser (cp "hello") None) 10 10 (new_manager 5 50) in
  _history (snd (cleanup_inactive_threads 60 m1)) !! cp "t" = _history m1 !! cp "t"
  /\ _history (snd (cleanup_inactive_threads 61 m1)) !! cp "t" = None.
Proof.
  split.
  - apply (proj1 (cleanup_after_append (new_manager 5 50) (cp "t")
                    (AddUser (cp "hello") None) 10 10 60)). cbn. lia.
  - apply (proj2 (cleanup_after_append (new_manager 5 50) (cp "t")
                    (AddUser (cp "hello") None) 10 10 61)). cbn. lia.
Defined.

(** X5: [get_recent_history] with a limit returns a suffix of the thread,
    in order: the last [limit] messages (all of them when there are
    fewer) for a positive limit, but the whole thread for the limit 0,
    and the thread without its first [-limit] messages for a negative
    limit.  The store is left as [get_history] leaves it. *)
Theorem get_recent_history_slice (m : ChatHistoryManager) (thread_id : pystr)
    (limit now : Z) :
  let h := thread_history m thread_id in
  let r := fst (get_recent_history thread_id (Some limit) now m) in
  (exists older, h = older ++ r)
  /\ length r = (if (0 <? limit)%Z then Nat.min (length h) (Z.to_nat limit)
                 else length h - Z.to_nat (- limit))
  /\ (limit = 0%Z -> r = h)
  /\ snd (get_recent_history thread_id (Some limit) now m)
     = snd (get_history thread_id now m).
Proof.
  cbv zeta. cbn [fst snd get_recent_history get_history].
  assert (E : thread_history (_ensure_thread_exists thread_id now m) thread_id
              = thread_history m thread_id).
  { unfold thread_history at 1. now rewrite ensure_history. }
  rewrite E. split; [apply last_slice_suffix|]. split; [|split; [|reflexivity]].
  - unfold last_slice. destruct (0 <? limit)%Z eqn:L; rewrite length_drop; [|easy].
    apply Z.ltb_lt in L. lia.
  - intros ->. reflexivity.
Qed.

Lemma get_recent_history_slice_witness :
  fst (get_recent_history (cp "new") (Some 0%Z) 200 two_threads)
  = thread_history two_threads (cp "new").
Proof.
  apply (proj1 (proj2 (proj2 (get_recent_history_slice two_threads (cp "new") 0%Z 200)))).
  reflexivity.
Defined.

Lemma last_slice_all {A : Type} (limit : Z) (l : list A) :
  (Z.of_nat (length l) <= limit)%Z -> last_slice limit l = l.
Proof.
  intros H. unfold last_slice. destruct (Z.ltb_spec 0 limit).
  - replace (length l - Z.to_nat limit) with 0 by lia. reflexivity.
  - destruct l; cbn in *; [apply drop_nil|lia].
Qed.

(** X6: in a consistent store, [get_recent_history] without a limit returns
    the complete thread, as [get_history] does. *)
Theorem get_recent_history_default (m : ChatHistoryManager) (thread_id : pystr) (now : Z) :
  consistent m ->
  get_recent_history thread_id None now m = get_history thread_id now m.
Proof.
  intros [_ Hlen]. unfold get_recent_history, get_history. f_equal.
  assert (E : thread_history (_ensure_thread_exists thread_id now m) thread_id
              = thread_history m thread_id).
  { unfold thread_history at 1. now rewrite ensure_history. }
  rewrite E. destruct (ensure_max thread_id now m) as [-> _].
  unfold thread_history. destruct (_history m !! thread_id) eqn:H; cbn.
  - apply last_slice_all. eauto.
  - unfold last_slice. destruct (_ <? _)%Z; apply drop_nil.
Qed.

Lemma get_recent_history_default_witness :
  get_recent_history (cp "new") None 200 two_threads = get_history (cp "new") 200 two_threads.
Proof.
  apply get_recent_history_default.
  apply (calls_consistent
           [Append (cp "old") (AddUser (cp "hi") None) 10 10;
            Append (cp "new") (AddUser (cp "hello") None) 100 100]
           (new_manager 5 50)); [cbn; lia|apply new_manager_consistent].
Defined.

Lemma append_all_history thread_id ops : forall m,
  (0 <= max_history_per_thread m)%Z ->
  (Z.of_nat (length (thread_history m thread_id)) <= max_history_per_thread m)%Z ->
  let all := thread_history m thread_id ++ List.map (fun o => formatted (fst o)) ops in
  thread_history (append_all thread_id ops m) thread_id
  = drop (length all - Z.to_nat (max_history_per_thread m)) all
  /\ max_history_per_thread (append_all thread_id ops m) = max_history_per_thread m.
Proof.
  induction ops as [|[op [t0 t1]] ops IH] using rev_ind; intros m Hmax Hlen; cbn zeta.
  - cbn. rewrite app_nil_r. split; [|easy].
    replace (_ - _) with 0 by lia. reflexivity.
  - destruct (IH m Hmax Hlen) as [IH1 IH2]. cbn zeta in IH1.
    unfold append_all in *. rewrite fold_left_app. cbn [fold_left fst snd].
    set (mk := fold_left _ ops m) in *.
    rewrite run_op_store.
    destruct (store_history thread_id (formatted op) t0 t1 mk) as [Hs ->].
    split; [|easy]. unfold thread_history at 1. rewrite Hs. cbn [default].
    rewrite trimmed_drop by lia. rewrite IH2, IH1.
    rewrite map_app, app_assoc. cbn [List.map fst].
    set (A := thread_history m thread_id ++ List.map (fun o => formatted (fst o)) ops).
    set (M := Z.to_nat (max_history_per_thread m)).
    rewrite <- drop_app_le by lia. rewrite drop_drop. unfold Datatypes.id. f_equal.
    rewrite !length_drop, !length_app. cbn [length]. lia.
Qed.

(** X7: appending a run of messages to a thread and then reading the thread
    gives back the messages it held followed by the new ones, in the
    order they were appended, cut at the head down to the maximum. *)
Theorem appended_messages_are_read_back (m : ChatHistoryManager) (thread_id : pystr)
    (ops : list (append_op * (Z * Z))) (now : Z) :
  (0 <= max_history_per_thread m)%Z ->
  (Z.of_nat (length (thread_history m thread_id)) <= max_history_per_thread m)%Z ->
  let all := thread_history m thread_id ++ List.map (fun o => formatted (fst o)) ops in
  fst (get_history thread_id now (append_all thread_id ops m))
  = drop (length all - Z.to_nat (max_history_per_thread m)) all.
Proof.
  intros Hmax Hlen. cbv zeta. cbn [fst get_history].
  unfold thread_history at 1. rewrite ensure_history. cbn [default].
  now apply append_all_history.
Qed.

Lemma appended_messages_are_read_back_witness :
  fst (get_history (cp "t") 9
         (append_all (cp "t")
            [(AddUser (cp "one") None, (1, 1)%Z);
             (AddAssistant (cp "two") None, (2, 2)%Z);
             (AddUser (cp "three") None, (3, 3)%Z)] (new_manager 2 50)))
  = [formatted (AddAssistant (cp "two") None); formatted (AddUser (cp "three") None)].
Proof.
  apply (appended_messages_are_read_back (new_manager 2 50) (cp "t")
           [(AddUser (cp "one") None, (1, 1)%Z);
            (AddAssistant (cp "two") None, (2, 2)%Z);
            (AddUser (cp "three") None, (3, 3)%Z)] 9); vm_compute; discriminate.
Defined.

End StoreFacts.

Module ChannelFacts.
Import PyStr Py Queues WorkerTerms WorkerFacts ChannelTerms.

Lemma put_within {A : Type} (size : Z) (q : queue A) (x : A) :
  within size (Some q) -> within size (Some (snd (put q x))).
Proof.
  intros (q0 & [= <-] & Hm & Hl). unfold put, full.
  destruct (Z.ltb_spec 0 (maxsize q)); cbn [andb].
  - destruct (Z.leb_spec (maxsize q) (Z.of_nat (length (items q)))); cbn [snd].
    + exists q. auto.
    + eexists. split; [reflexivity|]. cbn. split; [easy|].
      intros _. rewrite length_app. cbn. lia.
  - eexists. split; [reflexivity|]. cbn. split; [easy|]. lia.
Qed.

Lemma get_within {A : Type} (size : Z) (q : queue A) :
  within size (Some q) -> within size (Some (snd (get q))).
Proof.
  intros (q0 & [= <-] & Hm & Hl). unfold get.
  destruct (items q) as [|x rest] eqn:E; cbn [snd].
  - exists q. rewrite E. auto.
  - eexists. split; [reflexivity|]. cbn. split; [easy|].
    intros H. specialize (Hl H). cbn in Hl. lia.
Qed.

Lemma task_done_within {A : Type} (size : Z) (q : queue A) :
  within size (Some q) -> within size (Some (snd (task_done q))).
Proof.
  intros (q0 & [= <-] & Hm & Hl). unfold task_done.
  destruct (unfinished_tasks q); cbn [snd]; eexists; eauto.
Qed.

Lemma after_within c llm_size raw_size b :
  within llm_size (llm_message_queue b) -> within raw_size (raw_llm_output_queue b) ->
  within llm_size (llm_message_queue (after c b))
  /\ within raw_size (raw_llm_output_queue (after c b)).
Proof.
  intros Hl Hr.
  destruct Hl as (ql & El & Hl). destruct Hr as (qr & Er & Hr).
  assert (Wl : within llm_size (Some ql)) by (exists ql; auto).
  assert (Wr : within raw_size (Some qr)) by (exists qr; auto).
  assert (Wl' : within llm_size (llm_message_queue b)) by (rewrite El; exact Wl).
  assert (Wr' : within raw_size (raw_llm_output_queue b)) by (rewrite Er; exact Wr).
  destruct c; cbn [after].
  - unfold enqueue_llm_message. rewrite El.
    pose proof (put_within llm_size ql m Wl) as W.
    destruct (put ql m) as [o q']. cbn in *. now split.
  - unfold enqueue_raw_llm_output. rewrite Er.
    pose proof (put_within raw_size qr
                  {| assistant_response := Some response; history := h; meta := md |} Wr) as W.
    destruct (put qr _) as [o q']. cbn in *. now split.
  - unfold get_llm_message. rewrite El.
    pose proof (get_within llm_size ql Wl) as W.
    destruct (get ql) as [o q']. cbn in *. now split.
  - unfold get_raw_llm_output. rewrite Er.
    pose proof (get_within raw_size qr Wr) as W.
    destruct (get qr) as [[item|e|] q']; [destruct (assistant_response item)| |];
      cbn in *; now split.
  - unfold mark_llm_message_done. rewrite El.
    pose proof (task_done_within llm_size ql Wl) as W.
    destruct (task_done ql) as [o q']. cbn in *. now split.
  - unfold mark_raw_llm_output_done. rewrite Er.
    pose proof (task_done_within raw_size qr Wr) as W.
    destruct (task_done qr) as [o q']. cbn in *. now split.
Qed.

(** X8: once [initialize_queues] has run, whatever calls are made on the
    two channels, both stay initialised with the sizes they were made
    with, and a channel of positive size never holds more items than
    its size. *)
Theorem channels_stay_within_their_sizes (llm_size raw_size : Z) (b0 : bus)
    (calls : list call) :
  let b := fold_left (fun b c => after c b) calls
             (initialize_queues llm_size raw_size b0) in
  (exists q, llm_message_queue b = Some q /\ maxsize q = llm_size
             /\ ((0 < llm_size)%Z -> (Z.of_nat (length (items q)) <= llm_size)%Z))
  /\ (exists q, raw_llm_output_queue b = Some q /\ maxsize q = raw_size
             /\ ((0 < raw_size)%Z -> (Z.of_nat (length (items q)) <= raw_size)%Z)).
Proof.
  cbv zeta.
  assert (H0 : within llm_size (llm_message_queue (initialize_queues llm_size raw_size b0))
               /\ within raw_size
                    (raw_llm_output_queue (initialize_queues llm_size raw_size b0))).
  { split; eexists; (split; [reflexivity|]); cbn; split; auto; lia. }
  revert H0. generalize (initialize_queues llm_size raw_size b0).
  induction calls as [|c calls IH]; intros b [Hl Hr]; cbn [fold_left].
  - split; assumption.
  - apply IH. now apply after_within.
Qed.

Lemma channels_stay_within_their_sizes_witness :
  let b := fold_left (fun b c => after c b)
             [EnqueueLlmMessage (ChatToken (Uuid4 0) (cp "a"));
              EnqueueLlmMessage (ChatToken (Uuid4 1) (cp "b"));
              GetLlmMessage]
             (initialize_queues 1 1 uninitialized) in
  exists q, llm_message_queue b = Some q /\ maxsize q = 1%Z
            /\ ((0 < 1)%Z -> (Z.of_nat (length (items q)) <= 1)%Z).
Proof.
  exact (proj1 (channels_stay_within_their_sizes 1 1 uninitialized
                  [EnqueueLlmMessage (ChatToken (Uuid4 0) (cp "a"));
                   EnqueueLlmMessage (ChatToken (Uuid4 1) (cp "b"));
                   GetLlmMessage])).
Defined.

Lemma enqueue_all_room ms : forall b q,
  llm_message_queue b = Some q -> room q (length ms) ->
  enqueue_all ms b
  = set_llm b {| maxsize := maxsize q; items := items q ++ ms;
                 unfinished_tasks := unfinished_tasks q + length ms |}.
Proof.
  unfold enqueue_all.
  induction ms as [|m ms IH]; intros b q Hq Ht; cbn [fold_left length].
  - rewrite app_nil_r, Nat.add_0_r. destruct b, q. cbn in *. now subst.
  - unfold enqueue_llm_message at 2. rewrite Hq. unfold put.
    rewrite (room_not_full q (length ms) Ht). cbn [snd].
    erewrite IH; [|reflexivity|].
    + unfold set_llm. cbn. rewrite <- app_assoc. cbn.
      repeat f_equal. lia.
    + destruct Ht as [H|H]; [now left|right]. cbn in *. rewrite length_app. cbn. lia.
Qed.

Lemma receive_items ms : forall b q,
  llm_message_queue b = Some q -> items q = ms ->
  receive (length ms) b
  = (List.map Done ms,
     set_llm b {| maxsize := maxsize q; items := [];
                  unfinished_tasks := unfinished_tasks q |}).
Proof.
  induction ms as [|m ms IH]; intros b q Hq Hi; cbn [receive length List.map].
  - destruct b, q. cbn in *. now subst.
  - unfold get_llm_message. rewrite Hq. unfold get. rewrite Hi.
    erewrite IH; [|reflexivity|reflexivity]. reflexivity.
Qed.

(** X9: the channel to the frontend is first in, first out: messages
    enqueued while the channel has room for them are all accepted, and
    the calls of [get_llm_message] then return what the channel held
    followed by the new messages, each once and in the order they were
    enqueued; one more call finds the channel empty and waits.  The
    channel of raw turns is not touched. *)
Theorem frontend_channel_is_fifo (b : bus) (q : queue message) (ms : list message) :
  llm_message_queue b = Some q ->
  (maxsize q <= 0)%Z \/ (Z.of_nat (length (items q)) + Z.of_nat (length ms) <= maxsize q)%Z ->
  let '(received, b') := receive (length (items q) + length ms) (enqueue_all ms b) in
  received = List.map Done (items q ++ ms)
  /\ fst (get_llm_message b') = Suspended
  /\ raw_llm_output_queue b' = raw_llm_output_queue b.
Proof.
  intros Hq Ht. rewrite (enqueue_all_room ms b q Hq Ht).
  rewrite <- length_app.
  erewrite receive_items; [|reflexivity|reflexivity].
  repeat split.
Qed.

Lemma frontend_channel_is_fifo_witness :
  fst (receive 2 (enqueue_all [ChatToken (Uuid4 0) (cp "a"); ChatDone (Uuid4 0) None]
                    (initialize_queues 2 2 uninitialized)))
  = [Done (ChatToken (Uuid4 0) (cp "a")); Done (ChatDone (Uuid4 0) None)].
Proof.
  pose proof (frontend_channel_is_fifo (initialize_queues 2 2 uninitialized) (new_queue 2)
                [ChatToken (Uuid4 0) (cp "a"); ChatDone (Uuid4 0) None] eq_refl) as H.
  cbn [new_queue items length Nat.add] in H.
  destruct (receive 2 _) as [received b'].
  apply H. right. cbn. lia.
Defined.

End ChannelFacts.

Module GeneratorFacts.
Import PyStr Py Schemas StreamingParser ParserTerms ParserFacts StreamingGenerator
  GeneratorTerms.

(** ** The words of [split] *)

Lemma split_aux_words s : forall cur w,
  forallb (fun c => negb (is_space c)) cur = true ->
  In w (split_aux cur s) -> word w.
Proof.
  induction s as [|c s IH]; intros cur w Hcur; cbn.
  - destruct cur as [|x cur]; [easy|]. intros [<-|[]]. split.
    + intros H. apply (f_equal (@length N)) in H. rewrite length_rev in H. discriminate.
    + rewrite forallb_forall in *. intros y Hy. apply Hcur. now apply in_rev.
  - destruct (is_space c) eqn:E.
    + destruct cur as [|x cur]; [now apply IH|]. intros [<-|H]; [|now apply (IH [])].
      split.
      * intros H. apply (f_equal (@length N)) in H. rewrite length_rev in H. discriminate.
      * rewrite forallb_forall in *. intros y Hy. apply Hcur. now apply in_rev.
    + apply IH. cbn. now rewrite E.
Qed.

Lemma word_strip w : word w -> strip w = w.
Proof.
  intros [Hne Hw]. unfold strip, rstrip, lstrip.
  assert (D : forall v, v <> [] -> forallb (fun c => negb (is_space c)) v = true ->
                drop_while is_space v = v).
  { intros [|x v] H1 H2; [congruence|]. cbn in *.
    apply andb_true_iff in H2 as [H2 _]. now destruct (is_space x). }
  rewrite (D w Hne Hw). rewrite D, rev_involutive; [reflexivity| |].
  - intros H. apply Hne. apply (f_equal (@rev N)) in H. now rewrite rev_involutive in H.
  - rewrite forallb_forall in *. intros y Hy. apply Hw. now apply in_rev.
Qed.

Lemma filter_words l :
  (forall w, In w l -> word w) ->
  List.filter (fun w => truthy (strip w)) l = l.
Proof.
  induction l as [|w l IH]; intros H; cbn; [reflexivity|].
  rewrite (word_strip w) by (apply H; now left).
  destruct w as [|x w]; [destruct (H [] (or_introl eq_refl)); congruence|].
  cbn. f_equal. apply IH. intros v Hv. apply H. now right.
Qed.

Lemma injected_words_split callback text :
  injected_words callback text
  = if callback then List.map (fun w => w ++ [space]) (split text) else [].
Proof.
  unfold injected_words. destruct callback; [|reflexivity].
  rewrite filter_words; [reflexivity|].
  intros w. now apply split_aux_words.
Qed.

(** ** The steps of the parser *)

Lemma follows_refl p : follows p p.
Proof. repeat split; auto. Qed.

Lemma follows_trans p q r : follows p q -> follows q r -> follows p r.
Proof.
  intros (A1 & A2 & A3) (B1 & B2 & B3). repeat split; try congruence.
  intros g. destruct (B3 g) as [H|H]; rewrite H; [apply A3|right; now rewrite A2].
Qed.

Lemma extract_follows f p : follows p (fst (_extract_streaming_field_content f p)).
Proof.
  unfold _extract_streaming_field_content, captured, follows.
  destruct (re_search (field_name f) (buffer p)) as [cur|] eqn:E; [|cbn; auto].
  destruct (length (fb_get (field_buffers p) f) <? length cur)%nat; cbn; [|auto].
  repeat split. intros g.
  destruct f, g; cbn; auto; right; unfold captured; now rewrite E.
Qed.

Lemma follows_lags p p' : follows p p' -> lags p -> lags p'.
Proof.
  intros (_ & Hb & Hf) Hl g. rewrite Hb.
  destruct (Hf g) as [-> | ->]; [apply Hl|]. exists []. now rewrite app_nil_r.
Qed.

Lemma append_lags p chunk : lags p -> lags (append_buffer p chunk).
Proof.
  intros Hl g. cbn. destruct (Hl g) as [d Hd].
  destruct (captured_app g (buffer p) chunk) as [d' Hd'].
  exists (d ++ d'). now rewrite Hd', Hd, app_assoc.
Qed.

Section Steps.

Variable json_loads : pystr -> option pyval.

Lemma extract_display_follows p : follows p (next (extract_display p)).
Proof.
  unfold extract_display. pose proof (extract_follows DisplayEnhancedText p) as H.
  destruct (_extract_streaming_field_content DisplayEnhancedText p) as [p3 m].
  now destruct (truthy_opt m).
Qed.

Lemma extract_enhancement_follows p : follows p (next (extract_enhancement json_loads p)).
Proof.
  unfold extract_enhancement. pose proof (extract_follows DisplayEnhancement p) as H.
  destruct (_extract_streaming_field_content DisplayEnhancement p) as [p2 m]. cbn [fst] in H.
  assert (Hd : forall q, follows p q -> follows p (next (extract_display q))).
  { intros q Hq. apply (follows_trans p q); [assumption|apply extract_display_follows]. }
  destruct (truthy_opt m); [|now apply Hd].
  destruct (json_loads _); [exact H|].
  apply Hd. destruct (is_False _); exact H.
Qed.

Lemma extract_field_content_follows p :
  follows p (next (_extract_field_content json_loads p)).
Proof.
  unfold _extract_field_content. pose proof (extract_follows VoiceOverText p) as H.
  destruct (_extract_streaming_field_content VoiceOverText p) as [p1 m]. cbn [fst] in H.
  destruct (_ && _); [exact H|].
  apply (follows_trans p p1); [assumption|apply extract_enhancement_follows].
Qed.

Lemma process_chunk_lags p chunk :
  lags p -> lags (next (process_chunk json_loads p chunk)).
Proof.
  intros Hl. unfold process_chunk. destruct (truthy chunk); [|exact Hl].
  apply (follows_lags (append_buffer p chunk)); [apply extract_field_content_follows|].
  now apply append_lags.
Qed.

Lemma process_chunk_words p chunk :
  let r := process_chunk json_loads p chunk in
  injected r
  = if has_callback p then List.map (fun w => w ++ [space]) (split (delta_of r)) else [].
Proof.
  cbv zeta. unfold process_chunk.
  destruct (truthy chunk); [|now destruct (has_callback p)].
  unfold _extract_field_content.
  pose proof (extract_follows VoiceOverText (append_buffer p chunk)) as (Hc & _).
  destruct (_extract_streaming_field_content VoiceOverText (append_buffer p chunk))
    as [p1 m]. cbn [fst] in Hc.
  change (has_callback (append_buffer p chunk)) with (has_callback p) in Hc.
  destruct (_ && _).
  - cbn. rewrite Hc. apply injected_words_split.
  - destruct (extract_enhancement_facts json_loads p1) as (_ & _ & _ & _ & _ & -> & ->).
    now destruct (has_callback p).
Qed.

Lemma process_chunks_text chunks : forall p,
  in_step p -> lags p ->
  let '(p', rs) := process_chunks json_loads p chunks in
  buffer p' = buffer p ++ List.concat chunks /\ in_step p' /\ lags p'
  /\ has_callback p' = has_callback p.
Proof.
  induction chunks as [|c rest IH]; intros p Hs Hl; cbn [process_chunks List.concat].
  - rewrite app_nil_r. auto.
  - destruct (process_chunk_facts json_loads p c Hs) as (G1 & G2 & G3 & _).
    pose proof (process_chunk_lags p c Hl) as G4.
    specialize (IH (next (process_chunk json_loads p c)) G1 G4).
    destruct (process_chunks json_loads (next (process_chunk json_loads p c)) rest)
      as [p' rs].
    destruct IH as (I1 & I2 & I3 & I4).
    rewrite I1, G2, <- app_assoc. repeat split; auto. congruence.
Qed.

End Steps.

Lemma init_in_step callback : in_step (init callback) /\ lags (init callback).
Proof. split; [reflexivity|]. intros g. exists []. now destruct g. Qed.

(** X10: the parser keeps up with the text however it is cut into
    fragments: after any run of [process_chunk] on a new parser the
    buffer is the concatenation of the fragments, the narration value
    held is the one the field pattern captures in the whole text, and
    the value held for each other field is a prefix of the one captured
    in the whole text. *)
Theorem parser_follows_the_text (json_loads : pystr -> option pyval) (callback : bool)
    (chunks : list pystr) :
  let p := fst (process_chunks json_loads (init callback) chunks) in
  let text := List.concat chunks in
  buffer p = text
  /\ fb_get (field_buffers p) VoiceOverText = captured VoiceOverText text
  /\ forall f, exists rest, captured f text = fb_get (field_buffers p) f ++ rest.
Proof.
  cbv zeta. destruct (init_in_step callback) as [Hs Hl].
  pose proof (process_chunks_text json_loads chunks (init callback) Hs Hl) as H.
  destruct (process_chunks json_loads (init callback) chunks) as [p rs].
  destruct H as (H1 & H2 & H3 & _). cbn [fst]. cbn in H1.
  split; [assumption|]. split.
  - unfold in_step, voice in H2. now rewrite <- H1.
  - intros f. rewrite <- H1. apply H3.
Qed.

(** X11: in every call of [process_chunk] the texts handed to the voice
    callback are the words of the narration delta the call returns, in
    order, each followed by one space: never an empty text, never a
    text with white space inside a word; without a callback, and in a
    call that returns no narration delta, nothing is handed over. *)
Theorem callback_gets_the_words_of_the_delta (json_loads : pystr -> option pyval)
    (p : parser) (chunk : pystr) :
  let r := process_chunk json_loads p chunk in
  injected r
  = (if has_callback p then List.map (fun w => w ++ [space]) (split (delta_of r)) else [])
  /\ forall t, In t (injected r) ->
       exists w, t = w ++ [space] /\ w <> []
                 /\ forallb (fun c => negb (is_space c)) w = true.
Proof.
  cbv zeta. pose proof (process_chunk_words json_loads p chunk) as H. cbv zeta in H.
  split; [exact H|]. rewrite H. destruct (has_callback p); [|easy].
  intros t Ht. apply in_map_iff in Ht as (w & <- & Hw).
  exists w. split; [reflexivity|]. exact (split_aux_words _ [] w eq_refl Hw).
Qed.

Lemma callback_gets_the_words_of_the_delta_witness :
  injected (process_chunk literal_loads (init true)
              (cp "{" ++ open_field "voiceOverText" "Hello  the"))
  = [cp "Hello "; cp "the "].
Proof.
  exact (proj1 (callback_gets_the_words_of_the_delta literal_loads (init true)
                  (cp "{" ++ open_field "voiceOverText" "Hello  the"))).
Defined.

(** X12: [reset()] does not switch narration back on: on a parser whose
    narration was disabled, no call of [process_chunk] after a reset
    hands a text to the voice callback, whatever the fragments. *)
Theorem reset_keeps_narration_disabled (json_loads : pystr -> option pyval)
    (p : parser) (chunks : list pystr) :
  voice_disabled p = true ->
  narration_injected (snd (process_chunks json_loads (reset p) chunks)) = []
  /\ voice_disabled (fst (process_chunks json_loads (reset p) chunks)) = true.
Proof.
  intros Hd.
  assert (Hs : in_step (reset p)) by reflexivity.
  pose proof (process_chunks_facts json_loads chunks (reset p) Hs) as H.
  destruct (process_chunks json_loads (reset p) chunks) as [p' rs].
  destruct H as (_ & H & _). destruct (H Hd) as [H1 H2]. now split.
Qed.

Lemma reset_keeps_narration_disabled_witness :
  narration_injected
    (snd (process_chunks literal_loads (reset (disable_voice (init true))) hello_stream)) = []
  /\ voice_disabled
       (fst (process_chunks literal_loads (reset (disable_voice (init true))) hello_stream))
     = true.
Proof.
  apply (reset_keeps_narration_disabled literal_loads (disable_voice (init true)) hello_stream).
  reflexivity.
Defined.

(** ** The generator *)

Lemma process_chunk_callback (json_loads : pystr -> option pyval) p chunk :
  has_callback (next (process_chunk json_loads p chunk)) = has_callback p.
Proof.
  unfold process_chunk. destruct (truthy chunk); [|reflexivity].
  now destruct (extract_field_content_follows json_loads (append_buffer p chunk)) as (-> & _).
Qed.

(** The word loop lets out nothing but what is not an [Exception], and
    that comes from the callback. *)
Lemma inject_words_raises f texts : forall e said,
  inject_words f texts = (Some e, said) ->
  is_Exception e = false /\ exists t, f t = Some e.
Proof.
  induction texts as [|t texts IH]; intros e said; cbn [inject_words]; [discriminate|].
  destruct (inject_words f texts) as [r said0].
  destruct (f t) as [e0|] eqn:F.
  - destruct (is_Exception e0) eqn:X.
    + intros [= -> _]. now apply (IH e said0).
    + intros [= -> _]. eauto.
  - intros [= -> _]. now apply (IH e said0).
Qed.

(** With a callback that raises nothing but [Exception]s it calls the
    callback on every text and goes through. *)
Lemma inject_words_through f texts :
  (forall t e, f t = Some e -> is_Exception e = true) ->
  inject_words f texts = (None, texts).
Proof.
  intros H. induction texts as [|t texts IH]; cbn [inject_words]; [reflexivity|].
  rewrite IH. destruct (f t) as [e|] eqn:F; [|reflexivity].
  now rewrite (H t e F).
Qed.

Section Feed.

Variable json_loads : pystr -> option pyval.
Variable voice_injection_callback : option (pystr -> option exn).

Lemma feed_raises chunks : forall p e said,
  feed json_loads voice_injection_callback p chunks = (Raised e, said) ->
  is_Exception e = false
  /\ exists f t, voice_injection_callback = Some f /\ f t = Some e.
Proof.
  induction chunks as [|c chunks IH]; intros p e said; cbn [feed]; [discriminate|].
  destruct voice_injection_callback as [f|] eqn:Ecb.
  - destruct (inject_words f (injected (process_chunk json_loads p c)))
      as [[e0|] said0] eqn:I.
    + intros [= -> _]. apply inject_words_raises in I as (X & t & Ht). eauto.
    + destruct (feed json_loads (Some f) (next (process_chunk json_loads p c)) chunks)
        as [o said'] eqn:F.
      intros [= -> _]. now apply IH in F.
  - destruct (feed json_loads None (next (process_chunk json_loads p c)) chunks)
      as [o said'] eqn:F.
    intros [= -> _]. now apply IH in F.
Qed.

(** With such a callback, the stream is fed to the parser to its end,
    and the callback is called with the texts the parser hands over. *)
Lemma feed_through chunks : forall p,
  raises_exceptions_only voice_injection_callback ->
  has_callback p = (match voice_injection_callback with Some _ => true | None => false end) ->
  feed json_loads voice_injection_callback p chunks
  = (Returned (fst (process_chunks json_loads p chunks)),
     narration_injected (snd (process_chunks json_loads p chunks))).
Proof.
  intros p Hx. revert p.
  induction chunks as [|c chunks IH]; intros p Hp; cbn [feed process_chunks]; [reflexivity|].
  pose proof (process_chunk_words json_loads p c) as Hw. cbv zeta in Hw.
  specialize (IH (next (process_chunk json_loads p c))).
  rewrite process_chunk_callback in IH. specialize (IH Hp). rewrite IH.
  destruct (process_chunks json_loads (next (process_chunk json_loads p c)) chunks)
    as [p' rs].
  cbn [fst snd]. unfold narration_injected. cbn [List.map List.concat].
  destruct voice_injection_callback as [f|] eqn:Ecb.
  - rewrite inject_words_through; [reflexivity|].
    intros t e. now apply (Hx f t e).
  - rewrite Hw, Hp. reflexivity.
Qed.

End Feed.

(** X13: [stream_enhancement_decision] lets no [Exception] out: whatever the
    completion service, the callback and the decoder do, it returns a
    decision, or it raises something that is not an [Exception] (a
    cancellation, also one that reaches the callback while the parser
    hands it a word); and when the service, the callback on whatever
    text it is called with, and the decoder raise nothing but
    [Exception]s, it returns a decision. *)
Theorem generator_lets_no_exception_out (json_loads : pystr -> option pyval)
    (decode_decision : pystr -> result EnhancementDecision) (functions : bool)
    (voice_injection_callback : option (pystr -> option exn)) (sv : service) :
  let outcome := fst (stream_enhancement_decision json_loads decode_decision functions
                        voice_injection_callback sv) in
  (forall e, outcome = Raised e -> is_Exception e = false)
  /\ ((forall e, first_completion sv = Raised e -> is_Exception e = true) ->
      (forall e, stream_failure sv = Some e -> is_Exception e = true) ->
      (forall f t e, voice_injection_callback = Some f -> f t = Some e ->
                     is_Exception e = true) ->
      (forall s e, decode_decision s = Raised e -> is_Exception e = true) ->
      exists d, outcome = Returned d).
Proof.
  cbv zeta. unfold stream_enhancement_decision.
  destruct (try_block json_loads decode_decision functions voice_injection_callback sv)
    as [[d|e] said] eqn:T; cbn [fst].
  - split; [discriminate|eauto].
  - destruct (is_Exception e) eqn:X; cbn [fst].
    + split; [discriminate|eauto].
    + split; [now intros e' [= <-]|]. intros H1 H2 H3 H4. exfalso.
      assert (S : fst (stream_and_finalize json_loads decode_decision
                         voice_injection_callback sv) = Raised e -> False).
      { unfold stream_and_finalize.
        destruct (feed _ _ _ _) as [[p|e'] said'] eqn:F; cbn [fst].
        - destruct (stream_failure sv) as [e'|] eqn:Fl; cbn [fst].
          + intros [= ->]. rewrite (H2 e eq_refl) in X. discriminate.
          + unfold finalize. destruct (endswith_char _ _); [|discriminate].
            destruct (decode_decision _) as [d|e'] eqn:D; [discriminate|].
            destruct (is_ValueError e'); [destruct (fallback_decision p); discriminate|].
            cbn [fst]. intros [= ->]. rewrite (H4 _ _ D) in X. discriminate.
        - intros [= ->]. apply feed_raises in F as (_ & f & t & Hf & Ht).
          rewrite (H3 f t e Hf Ht) in X. discriminate. }
      unfold try_block in T. destruct functions.
      * destruct (first_completion sv) as [[|ok]|e'] eqn:F.
        -- apply S. now rewrite T.
        -- destruct ok.
           ++ destruct voice_injection_callback as [f|]; [|discriminate].
              destruct (f tools_feedback) as [e'|] eqn:C; [|discriminate].
              injection T as -> _. rewrite (H3 f _ e eq_refl C) in X. discriminate.
           ++ injection T as <- _. discriminate.
        -- injection T as -> _. rewrite (H1 e eq_refl) in X. discriminate.
      * apply S. now rewrite T.
Qed.

Lemma generator_lets_no_exception_out_witness :
  is_Exception CancelledError = false
  /\ exists d, fst (stream_enhancement_decision literal_loads undecodable false
                      failing_callback hello_service) = Returned d.
Proof.
  split.
  - apply (proj1 (generator_lets_no_exception_out literal_loads undecodable false
                    cancelled_callback hello_service) CancelledError).
    vm_compute. reflexivity.
  - apply (proj2 (generator_lets_no_exception_out literal_loads undecodable false
                    failing_callback hello_service)); try discriminate.
    + intros f t e [= <-] [= <-]. reflexivity.
    + intros s e [= <-]. reflexivity.
Defined.

(** A callback that is cancelled on the first word of the narration:
    the cancellation leaves the generator, the callback having been
    called with that word only. *)
Lemma cancelled_on_a_word :
  stream_enhancement_decision literal_loads undecodable false cancelled_callback
    hello_service
  = (Raised CancelledError, [cp "Hel "]).
Proof. vm_compute. reflexivity. Qed.

(** X14: a structured response that is cut before its closing brace, the
    stream ending without an error and the callback raising nothing but
    [Exception]s, makes the generator return its own error decision,
    with no enhancement; the callback has been called with every text
    the parser handed over on the way, in order. *)
Theorem generator_on_a_truncated_response (json_loads : pystr -> option pyval)
    (decode_decision : pystr -> result EnhancementDecision) (functions : bool)
    (voice_injection_callback : option (pystr -> option exn)) (sv : service) :
  (functions = false \/ first_completion sv = Returned NoFunctionCall) ->
  stream_failure sv = None ->
  raises_exceptions_only voice_injection_callback ->
  endswith_char rbrace (strip (List.concat (chunk_contents (events sv)))) = false ->
  stream_enhancement_decision json_loads decode_decision functions
    voice_injection_callback sv
  = (Returned parsing_error_decision,
     narration_injected
       (snd (process_chunks json_loads
               (init (match voice_injection_callback with Some _ => true | None => false end))
               (chunk_contents (events sv))))).
Proof.
  intros Hf Hs Hx He. unfold stream_enhancement_decision.
  assert (T : try_block json_loads decode_decision functions voice_injection_callback sv
              = stream_and_finalize json_loads decode_decision voice_injection_callback sv).
  { unfold try_block. destruct Hf as [-> | ->]; [reflexivity|now destruct functions]. }
  rewrite T. unfold stream_and_finalize.
  set (callback := match voice_injection_callback with Some _ => true | None => false end).
  rewrite (feed_through json_loads voice_injection_callback _ (init callback) Hx eq_refl).
  destruct (init_in_step callback) as [Hi Hl].
  pose proof (process_chunks_text json_loads (chunk_contents (events sv)) (init callback)
                Hi Hl) as Hb.
  destruct (process_chunks _ _ _) as [p rs]. destruct Hb as (Hb & _).
  cbn [fst snd]. cbn [buffer init app] in Hb.
  rewrite Hs. unfold finalize. rewrite Hb, He. reflexivity.
Qed.

Lemma generator_on_a_truncated_response_witness :
  stream_enhancement_decision literal_loads undecodable true failing_callback
    truncated_service
  = (Returned parsing_error_decision, []).
Proof.
  apply (generator_on_a_truncated_response literal_loads undecodable true failing_callback
           truncated_service).
  - right. reflexivity.
  - reflexivity.
  - intros f t e [= <-] [= <-]. reflexivity.
  - vm_compute. reflexivity.
Defined.

End GeneratorFacts.

Module TranscriptFacts.
Import PyStr Py Schemas DecisionLoop LoopTerms LoopFacts TranscriptTerms.

Section Propagation.

Variable voice_injection_callback : option (option pystr -> option exn).
Variable decode_args : pystr -> option parsed_args.
Variable rounds : nat -> round.

Lemma handle_propagates e e' : handle e = Propagate e' -> is_Exception e' = false.
Proof. unfold handle. destruct (is_Exception e) eqn:X; [discriminate|]. now intros [= <-]. Qed.

Lemma narrate_raises t said e said' :
  narrate voice_injection_callback t said = (Raised e, said') ->
  exists f, voice_injection_callback = Some f /\ f t = Some e.
Proof.
  unfold narrate. destruct voice_injection_callback as [f|]; [|discriminate].
  destruct (f t) as [e'|] eqn:E; [|discriminate]. intros [= <- _]. eauto.
Qed.

Lemma consume_raises ds : forall st said e said',
  consume voice_injection_callback ds st said = (Raised e, said') ->
  exists f t, voice_injection_callback = Some f /\ f t = Some e.
Proof.
  induction ds as [|d ds IH]; intros st said e said'; cbn; [discriminate|].
  destruct d as [d|]; cbn; [|apply IH].
  destruct (truthy_content d && negb (is_function_call (absorb d st))); [|apply IH].
  destruct (narrate voice_injection_callback (d_content d) said) as [[u|e0] said0] eqn:N.
  - apply IH.
  - intros [= <- _]. apply narrate_raises in N as (f & Hf & Hr). eauto.
Qed.

(** Where the exception of a round that is not handled comes from. *)
Lemma run_round_propagates r resp tools said e said' :
  run_round voice_injection_callback decode_args r resp tools said = (Propagate e, said') ->
  is_Exception e = false
  /\ ((exists f t, voice_injection_callback = Some f /\ f t = Some e)
      \/ stream_error r = Some e
      \/ exists s, decode_args s = Some (BadArgs e)).
Proof.
  unfold run_round.
  assert (Hh : forall e0 said0, (handle e0, said0) = (Propagate e, said') ->
                 is_Exception e = false /\ e0 = e).
  { intros e0 said0 [= H _]. unfold handle in H.
    destruct (is_Exception e0) eqn:X; [discriminate|]. injection H as <-. auto. }
  assert (Hn : forall t said0,
            match narrate voice_injection_callback t said0 with
            | (Returned _, _) => True
            | (Raised e1, said2) =>
                (handle e1, said2) = (Propagate e, said') ->
                is_Exception e = false
                /\ exists f t, voice_injection_callback = Some f /\ f t = Some e
            end).
  { intros t said0.
    destruct (narrate voice_injection_callback t said0) as [[u|e1] said2] eqn:N; [easy|].
    intros H. apply Hh in H as [X ->].
    apply narrate_raises in N as (f & Hf & Hr). eauto. }
  destruct (consume voice_injection_callback (deltas r) stream_start said)
    as [[st|e0] said1] eqn:C.
  - destruct (stream_error r) as [e0|] eqn:S.
    + intros H. apply Hh in H as [X ->]. auto.
    + destruct (is_function_call st); [|discriminate].
      destruct (decode_args (func_args_buffer st)) as [[a| |e1]|] eqn:D;
        cbn [from_option id].
      * destruct (decide _).
        -- destruct (_ && _ && _); [|discriminate].
           match goal with |- context [narrate _ ?t ?s0] => specialize (Hn t s0) end.
           destruct (narrate _ _ _) as [[u|e1] said2]; [discriminate|].
           intros H. destruct (Hn H) as [X Y]. auto.
        -- match goal with |- context [narrate _ ?t ?s0] => specialize (Hn t s0) end.
           destruct (narrate _ _ _) as [[u|e1] said2]; [discriminate|].
           intros H. destruct (Hn H) as [X Y]. auto.
      * destruct (decide _); [discriminate|].
        match goal with |- context [narrate _ ?t ?s0] => specialize (Hn t s0) end.
        destruct (narrate _ _ _) as [[u|e1] said2]; [discriminate|].
        intros H. destruct (Hn H) as [X Y]. auto.
      * intros H. apply Hh in H as [X ->]. split; [easy|right; right]. eauto.
      * destruct (decide _).
        -- destruct (_ && _ && _); [|discriminate].
           match goal with |- context [narrate _ ?t ?s0] => specialize (Hn t s0) end.
           destruct (narrate _ _ _) as [[u|e1] said2]; [discriminate|].
           intros H. destruct (Hn H) as [X Y]. auto.
        -- match goal with |- context [narrate _ ?t ?s0] => specialize (Hn t s0) end.
           destruct (narrate _ _ _) as [[u|e1] said2]; [discriminate|].
           intros H. destruct (Hn H) as [X Y]. auto.
  - intros H. apply Hh in H as [X ->].
    apply consume_raises in C as (f & t & Hf & Hr). split; [easy|left; eauto].
Qed.

Lemma loop_raises resp budget : forall iteration tools said e,
  fst (loop voice_injection_callback decode_args rounds budget iteration resp tools said)
  = Raised e ->
  is_Exception e = false
  /\ ((exists f t, voice_injection_callback = Some f /\ f t = Some e)
      \/ (exists i, stream_error (rounds i) = Some e)
      \/ exists s, decode_args s = Some (BadArgs e)).
Proof.
  induction budget as [|budget IH]; intros iteration tools said e; cbn [loop];
    [discriminate|].
  destruct (run_round _ _ _ _ _ _) as [[d|tools'|  |e0] said'] eqn:R; cbn [fst];
    try discriminate.
  - apply IH.
  - intros [= <-]. apply run_round_propagates in R as (X & [H|[H|H]]); eauto 6.
Qed.

End Propagation.

(** X15: [make_enhancement_decision_streaming] lets no [Exception] out but
    the [RuntimeError] of a client that is not initialised: anything
    else it raises is not an [Exception] (a cancellation) and was raised
    by the voice callback, by a completion stream or by the reading of
    the arguments.  With the client initialised, and these three and the
    preparation of the request raising nothing but [Exception]s, it
    returns a decision. *)
Theorem decision_loop_lets_no_exception_out
    (voice_injection_callback : option (option pystr -> option exn))
    (decode_args : pystr -> option parsed_args) (rounds : nat -> round)
    (client_ready : bool) (prelude : option exn) (assistant_response : pystr) :
  let outcome := fst (make_enhancement_decision_streaming voice_injection_callback
                        decode_args rounds client_ready prelude assistant_response) in
  (forall e, outcome = Raised e ->
     (client_ready = false /\ e = RuntimeError) \/ is_Exception e = false)
  /\ (client_ready = true ->
      (forall e, prelude = Some e -> is_Exception e = true) ->
      (forall f t e, voice_injection_callback = Some f -> f t = Some e ->
                     is_Exception e = true) ->
      (forall i e, stream_error (rounds i) = Some e -> is_Exception e = true) ->
      (forall s e, decode_args s = Some (BadArgs e) -> is_Exception e = true) ->
      exists d, outcome = Returned d).
Proof.
  cbv zeta. unfold make_enhancement_decision_streaming.
  destruct client_ready; cbn [negb].
  - destruct prelude as [e0|].
    + destruct (is_Exception e0) eqn:X; cbn [fst].
      * split; [discriminate|eauto].
      * split; [intros e [= <-]; now right|].
        intros _ H. rewrite (H e0 eq_refl) in X. discriminate.
    + split.
      * intros e H. right. now apply loop_raises in H.
      * intros _ _ H1 H2 H3.
        destruct (fst (loop _ _ _ _ _ _ _ _)) as [d|e] eqn:L; [eauto|exfalso].
        apply loop_raises in L as (X & [(f & t & Hf & Hr)|[(i & Hi)|(s & Hs)]]).
        -- rewrite (H1 f t e Hf Hr) in X. discriminate.
        -- rewrite (H2 i e Hi) in X. discriminate.
        -- rewrite (H3 s e Hs) in X. discriminate.
  - split; [intros e [= <-]; now left|discriminate].
Qed.

Lemma decision_loop_lets_no_exception_out_witness :
  is_Exception CancelledError = false
  /\ exists d, fst (make_enhancement_decision_streaming None (fun _ => None) busy_rounds
                      true None (cp "It is sunny.")) = Returned d.
Proof.
  split.
  - destruct (proj1 (decision_loop_lets_no_exception_out None (fun _ => None)
                       cancelled_rounds true None (cp "It is sunny."))
                CancelledError eq_refl) as [[H _]|H]; [discriminate H|exact H].
  - apply (proj2 (decision_loop_lets_no_exception_out None (fun _ => None)
                    busy_rounds true None (cp "It is sunny."))); try discriminate.
    reflexivity.
Defined.

(** ** What the loop says when the callback takes every text *)

Section Quiet.

Variable voice_injection_callback : option (option pystr -> option exn).
Variable decode_args : pystr -> option parsed_args.
Variable rounds : nat -> round.

Hypothesis quiet : forall f, voice_injection_callback = Some f -> forall t, f t = None.

Lemma quiet_takes texts : takes voice_injection_callback texts.
Proof. intros f t Hf _. now apply quiet. Qed.

Lemma heard_content ds : forall st,
  is_function_call (scan ds st) = false ->
  is_function_call st = false
  /\ content_buffer (scan ds st)
     = content_buffer st ++ List.concat (List.map (default []) (heard ds st)).
Proof.
  induction ds as [|d ds IH]; intros st H.
  - cbn. now rewrite app_nil_r.
  - destruct d as [d|].
    + change (scan (Some d :: ds) st) with (scan ds (absorb d st)) in *.
      cbn [heard]. destruct (IH _ H) as [Hf Hc]. rewrite Hc.
      assert (Hst : is_function_call st = false).
      { revert Hf. unfold absorb. destruct (d_function_call d) as [[fname fargs]|];
          destruct (d_content d) as [c|]; try destruct (truthy c); cbn; congruence. }
      split; [exact Hst|].
      rewrite Hf. cbn [negb]. rewrite andb_true_r.
      unfold truthy_content, absorb in *.
      destruct (d_function_call d) as [[fname fargs]|];
        destruct (d_content d) as [c|]; try destruct (truthy c) eqn:T; cbn in *;
        try congruence; rewrite ?app_nil_r, <- ?app_assoc; reflexivity.
    + change (scan (None :: ds) st) with (scan ds st) in *. cbn [heard]. now apply IH.
Qed.

(** X16: when the model calls the synthetic function
    [process_enhancement_decision], after [k] rounds that each called a
    tool (a round that asks for a tool with arguments [json.loads]
    raises on is not one: it breaks the loop before the call) and the
    voice callback taking every text, the loop returns the decision the
    arguments make, a missing argument standing for no enhancement, the
    original text and the empty voice-over.  It has handed to the
    callback, in this order: for each tool round the contents that came
    before the call and the announcement of the tool; the contents that
    came before the last call; and the voice-over of the decision, when
    the enhancement is on and the voice-over is not the empty text. *)
Theorem decision_through_the_synthetic_function (assistant_response : pystr) (k : nat)
    (a : decision_args) :
  k <= 4 ->
  (forall i, 1 <= i <= k -> calls_tool voice_injection_callback decode_args (rounds i)) ->
  decides decode_args (rounds (S k)) a ->
  make_enhancement_decision_streaming voice_injection_callback decode_args rounds
    true None assistant_response
  = (Returned (decision_of a assistant_response),
     spoken voice_injection_callback
       (said_in rounds 1 k ++ heard (deltas (rounds (S k))) stream_start
        ++ narration_of (decision_of a assistant_response))).
Proof.
  intros Hk Htools (He & Hf & Hn & Ha).
  unfold make_enhancement_decision_streaming, max_iterations. cbn [negb].
  replace 5 with (k + S (4 - k)) by lia.
  rewrite loop_tool_rounds by (intros i Hi; apply Htools; lia).
  cbn [loop Nat.add app]. unfold run_round.
  rewrite (consume_takes _ _ _ _ (quiet_takes _)), He, Hf. unfold named in Hn.
  rewrite Hn, Ha.
  destruct (decide _) as [_|E]; [|contradiction].
  fold (decision_of a assistant_response).
  unfold narration_of. rewrite (narrate_takes _ _ _ (quiet_takes _)).
  destruct voice_injection_callback as [f|] eqn:Ecb; cbn [spoken].
  - rewrite andb_true_r.
    destruct (displayEnhancement _ && negb _); cbn [app].
    + now rewrite <- app_assoc.
    + now rewrite app_nil_r.
  - rewrite andb_false_r. reflexivity.
Qed.

(** X17: when the model answers with content and no function call, after
    [k] rounds that each called a tool (a round that asks for a tool
    with arguments [json.loads] raises on is not one) and the voice
    callback taking every text, the loop has handed every non-empty
    content of the answer to the callback, in order, and returns the
    text they make together (the original text when there is none) as
    the display text; the enhancement is on exactly when a tool was
    called. *)
Theorem decision_from_a_direct_answer (assistant_response : pystr) (k : nat) :
  k <= 4 ->
  (forall i, 1 <= i <= k -> calls_tool voice_injection_callback decode_args (rounds i)) ->
  answers (rounds (S k)) ->
  let texts := heard (deltas (rounds (S k))) stream_start in
  let content := List.concat (List.map (default []) texts) in
  make_enhancement_decision_streaming voice_injection_callback decode_args rounds
    true None assistant_response
  = (Returned
       {| displayEnhancement := (0 <? k);
          displayEnhancedText := if truthy content then content else assistant_response;
          voiceOverText := Some (if (0 <? k) then tools_acknowledgment else []) |},
     spoken voice_injection_callback (said_in rounds 1 k ++ texts)).
Proof.
  intros Hk Htools (He & Hf). cbv zeta.
  unfold make_enhancement_decision_streaming, max_iterations. cbn [negb].
  replace 5 with (k + S (4 - k)) by lia.
  rewrite loop_tool_rounds by (intros i Hi; apply Htools; lia).
  cbn [loop Nat.add app]. unfold run_round.
  rewrite (consume_takes _ _ _ _ (quiet_takes _)), He, Hf.
  destruct (heard_content _ _ Hf) as [_ Hc]. cbn [content_buffer stream_start app] in Hc.
  rewrite Hc, spoken_app. f_equal. f_equal.
  unfold forced_decision, tools_of. rewrite length_map, length_seq.
  destruct k; reflexivity.
Qed.

End Quiet.

Lemma listener_quiet f : listener = Some f -> forall t, f t = None.
Proof. intros [= <-] t. reflexivity. Qed.

Lemma decision_through_the_synthetic_function_witness :
  make_enhancement_decision_streaming listener sunny_decode deciding_rounds
    true None (cp "It is sunny.")
  = (Returned {| displayEnhancement := true;
                 displayEnhancedText := cp "Sunny, 72 degrees";
                 voiceOverText := Some (cp "It is sunny.") |},
     [Some (cp "I'm using the forecast tool. "); Some (cp "It is sunny.")]).
Proof.
  apply (decision_through_the_synthetic_function listener sunny_decode deciding_rounds
           listener_quiet
           (cp "It is sunny.") 1 sunny_args).
  - lia.
  - intros i Hi. replace i with 1 by lia.
    repeat split; try (intros f t [= <-] _; reflexivity).
    + intros H. vm_compute in H. discriminate H.
    + intros e H. vm_compute in H. discriminate H.
  - repeat split.
Defined.

Lemma decision_from_a_direct_answer_witness :
  make_enhancement_decision_streaming listener sunny_decode answering_rounds
    true None (cp "original")
  = (Returned {| displayEnhancement := false;
                 displayEnhancedText := cp "It is sunny.";
                 voiceOverText := Some [] |},
     [Some (cp "It is "); Some (cp "sunny.")]).
Proof.
  apply (decision_from_a_direct_answer listener sunny_decode answering_rounds
           listener_quiet
           (cp "original") 0).
  - lia.
  - intros i Hi. lia.
  - repeat split.
Defined.

End TranscriptFacts.

Module TurnFacts.
Import PyStr Py Schemas Queues VisProcessor WorkerTerms QueueFacts WorkerFacts TurnTerms.

(** ** The frame of an iteration *)

(** What an iteration leaves when the item is processed without an
    exception. *)
Lemma iteration_returns w s item b s2 :
  counted (ws_bus s) ->
  get_raw_llm_output (ws_bus s) = (Done item, b) ->
  process_item w item {| ws_bus := b; ws_sent := ws_sent s;
                         ws_uuids := ws_uuids s; ws_decisions := ws_decisions s |}
  = (Returned tt, s2) ->
  ws_sent (final (iteration w s)) = ws_sent s2
  /\ ws_decisions (final (iteration w s)) = ws_decisions s2
  /\ llm_message_queue (ws_bus (final (iteration w s))) = llm_message_queue (ws_bus s2)
  /\ acknowledged (iteration w s) = true
  /\ propagated (iteration w s) = None.
Proof.
  intros Hc Hget Hp.
  destruct (get_counted _ _ _ Hc Hget) as (_ & q1 & Hq1 & Hpos).
  pose proof (keeps_raw_process_item w item
                {| ws_bus := b; ws_sent := ws_sent s;
                   ws_uuids := ws_uuids s; ws_decisions := ws_decisions s |}) as Hk.
  rewrite Hp in Hk. cbn [snd ws_bus] in Hk.
  unfold iteration, try_block. rewrite Hget, Hp.
  destruct (finally_fields true (Returned tt) s2) as (F1 & _ & F3 & F4 & F5).
  rewrite (finally_propagated (Returned tt) s2 q1) by congruence. auto.
Qed.

(** What it leaves when the processing raises an [Exception]. *)
Lemma iteration_handles w s item b e s2 r3 s3 :
  counted (ws_bus s) ->
  get_raw_llm_output (ws_bus s) = (Done item, b) ->
  process_item w item {| ws_bus := b; ws_sent := ws_sent s;
                         ws_uuids := ws_uuids s; ws_decisions := ws_decisions s |}
  = (Raised e, s2) ->
  is_Exception e = true ->
  on_exception (Some item) s2 = (r3, s3) ->
  ws_sent (final (iteration w s)) = ws_sent s3
  /\ ws_decisions (final (iteration w s)) = ws_decisions s3
  /\ acknowledged (iteration w s) = true
  /\ propagated (iteration w s) = match r3 with Raised e' => Some e' | Returned _ => None end.
Proof.
  intros Hc Hget Hp He Ho.
  destruct (get_counted _ _ _ Hc Hget) as (_ & q1 & Hq1 & Hpos).
  pose proof (keeps_raw_process_item w item
                {| ws_bus := b; ws_sent := ws_sent s;
                   ws_uuids := ws_uuids s; ws_decisions := ws_decisions s |}) as Hk.
  rewrite Hp in Hk. cbn [snd ws_bus] in Hk.
  pose proof (keeps_raw_on_exception (Some item) s2) as Hk2.
  rewrite Ho in Hk2. cbn [snd] in Hk2.
  unfold iteration, try_block. rewrite Hget, Hp, He, Ho.
  destruct (finally_fields true r3 s3) as (F1 & _ & F3 & F4 & F5).
  rewrite (finally_propagated r3 s3 q1) by congruence. auto.
Qed.

(** ** The steps of [process_item] *)

Lemma step1_decided w src response h d s :
  decided w src response h d ->
  exists n, step1 w (bool_decide (src = text_chat)) response h s
            = (Returned d, {| ws_bus := ws_bus s; ws_sent := ws_sent s;
                              ws_uuids := ws_uuids s; ws_decisions := n |})
            /\ n = (if bool_decide (src = text_chat) then ws_decisions s
                    else S (ws_decisions s)).
Proof.
  intros [[-> ->]|[Hne Hd]]; unfold step1, try_except.
  - rewrite bool_decide_eq_true_2 by reflexivity. cbn.
    exists (ws_decisions s). split; [now destruct s|reflexivity].
  - rewrite bool_decide_eq_false_2 by assumption. cbn [negb].
    unfold bind, count_decision. cbn. rewrite Hd. eauto.
Qed.

Lemma for_each_enqueue (f : pystr -> message) l : forall s q k,
  llm_message_queue (ws_bus s) = Some q -> room q (length l + k) ->
  exists s',
    for_each l (fun c => enqueue (f c)) s = (Returned tt, s')
    /\ ws_sent s' = ws_sent s ++ List.map f l
    /\ ws_uuids s' = ws_uuids s /\ ws_decisions s' = ws_decisions s
    /\ exists q', llm_message_queue (ws_bus s') = Some q' /\ room q' k.
Proof.
  induction l as [|c l IH]; intros s q k Hq Hr; cbn [for_each length Nat.add List.map] in *.
  - exists s. rewrite app_nil_r. unfold ret. eauto 10.
  - unfold bind. rewrite (enqueue_room (f c) s q (length l + k) Hq Hr).
    destruct (IH {| ws_bus := set_llm (ws_bus s) (pushed q (f c));
                    ws_sent := ws_sent s ++ [f c];
                    ws_uuids := ws_uuids s; ws_decisions := ws_decisions s |}
                 (pushed q (f c)) k eq_refl (room_pushed q (f c) _ Hr))
      as (s' & E & S1 & S2 & S3 & S4).
    exists s'. rewrite E. cbn in S1. rewrite S1, <- app_assoc. auto.
Qed.

Lemma after_decision_off w src md d s :
  displayEnhancement d = false -> after_decision w src md d s = (Returned tt, s).
Proof. intros H. unfold after_decision. now rewrite H. Qed.

Lemma carried_message src md content s :
  message_for_frontend src md content s
  = (Returned (carried src md (Uuid4 (ws_uuids s)) content),
     {| ws_bus := ws_bus s; ws_sent := ws_sent s;
        ws_uuids := S (ws_uuids s); ws_decisions := ws_decisions s |}).
Proof.
  unfold message_for_frontend, bind, uuid4, ret, carried.
  now destruct (bool_decide (src = text_chat)).
Qed.

Lemma carried_enqueue src md content s q n :
  llm_message_queue (ws_bus s) = Some q -> room q (S n) ->
  exists s', bind (message_for_frontend src md content) (fun m => enqueue m) s
             = (Returned tt, s')
             /\ ws_sent s' = ws_sent s ++ [carried src md (Uuid4 (ws_uuids s)) content].
Proof.
  intros Hq Hr. unfold bind. rewrite carried_message.
  erewrite enqueue_room; [|exact Hq|exact Hr]. eauto.
Qed.

(** ** Turns *)

(** X18: a turn that is not of the text path, with a response text, for
    which the decision loop decides against an enhancement or raises an
    [Exception]: one decision is asked for, nothing is put on the
    channel to the frontend, the item is acknowledged and the loop goes
    on. *)
Theorem turn_without_enhancement (w : world) (s : wstate) (item : RawLLMOutput)
    (b : bus) (md : metadata) (src response : pystr) :
  counted (ws_bus s) ->
  get_raw_llm_output (ws_bus s) = (Done item, b) ->
  meta item = Some md -> source md = Some src -> src <> text_chat ->
  assistant_response item = Some response -> truthy response = true ->
  (exists d, make_decision w response (history item) = Returned d
             /\ displayEnhancement d = false)
  \/ (exists e, make_decision w response (history item) = Raised e
                /\ is_Exception e = true) ->
  ws_sent (final (iteration w s)) = ws_sent s
  /\ ws_decisions (final (iteration w s)) = S (ws_decisions s)
  /\ llm_message_queue (ws_bus (final (iteration w s))) = llm_message_queue (ws_bus s)
  /\ acknowledged (iteration w s) = true
  /\ propagated (iteration w s) = None.
Proof.
  intros Hc Hget Hmd Hsrc Hne Hresp Ht Hdec.
  destruct (get_counted _ _ _ Hc Hget) as (Hl & _).
  set (s1 := {| ws_bus := b; ws_sent := ws_sent s;
                ws_uuids := ws_uuids s; ws_decisions := ws_decisions s |}).
  assert (Hp : process_item w item s1
               = (Returned tt, {| ws_bus := b; ws_sent := ws_sent s;
                                  ws_uuids := ws_uuids s;
                                  ws_decisions := S (ws_decisions s) |})).
  { rewrite (process_item_decides w item md src response) by assumption.
    unfold bind, step1, try_except. rewrite bool_decide_eq_false_2 by assumption.
    cbn [negb]. unfold bind, count_decision. cbn [ws_bus ws_sent ws_uuids ws_decisions s1].
    destruct Hdec as [(d & -> & Hd)|(e & -> & He)].
    - now apply after_decision_off.
    - rewrite He. now apply after_decision_off. }
  destruct (iteration_returns w s item b _ Hc Hget Hp) as (R1 & R2 & R3 & R4 & R5).
  cbn [ws_sent ws_decisions ws_bus] in R1, R2, R3. repeat split; congruence.
Qed.

Lemma turn_without_enhancement_witness :
  ws_sent (final (iteration plain_world (queued [voice_turn]))) = []
  /\ acknowledged (iteration plain_world (queued [voice_turn])) = true.
Proof.
  assert (Hc : counted (ws_bus (queued [voice_turn]))).
  { intros q H. inversion H. cbn. lia. }
  destruct (turn_without_enhancement plain_world (queued [voice_turn]) voice_turn _
              voice_metadata voice_agent (cp "It is sunny.")
              Hc eq_refl eq_refl eq_refl) as (H1 & _ & _ & H4 & _).
  - discriminate.
  - reflexivity.
  - reflexivity.
  - left. eexists. split; reflexivity.
  - split; [exact H1|exact H4].
Defined.

(** X19: a turn for which the enhancement is on, a rendering service being
    set and the request for it built, the channel to the frontend
    having room: the worker emits the enhancement-started indicator,
    then one [c1_token] per fragment of the rendering, in order, then
    one [chat_done], the tokens and the end marker all under the
    message id of the turn (an identifier of their own when the turn
    has none); the item is acknowledged and the loop goes on. *)
Theorem enhanced_turn_is_streamed (w : world) (s : wstate) (item : RawLLMOutput)
    (b : bus) (md : metadata) (src response : pystr) (d : EnhancementDecision)
    (fragments : list pystr) (q : queue message) :
  counted (ws_bus s) ->
  get_raw_llm_output (ws_bus s) = (Done item, b) ->
  meta item = Some md -> source md = Some src ->
  assistant_response item = Some response -> truthy response = true ->
  decided w src response (history item) d -> displayEnhancement d = true ->
  thesys_client w = Some fragments -> prepare w = None ->
  llm_message_queue (ws_bus s) = Some q -> room q (length fragments + 2) ->
  let id := rendering_id md (Uuid4 (S (ws_uuids s))) in
  ws_sent (final (iteration w s))
  = ws_sent s
    ++ [create_enhancement_started (Uuid4 (ws_uuids s)) default_note]
    ++ List.map (create_c1_token id) fragments
    ++ [create_chat_done id None]
  /\ acknowledged (iteration w s) = true
  /\ propagated (iteration w s) = None.
Proof.
  intros Hc Hget Hmd Hsrc Hresp Ht Hdec Hd Hth Hpr Hq Hroom id.
  destruct (get_counted _ _ _ Hc Hget) as (Hl & _).
  set (s1 := {| ws_bus := b; ws_sent := ws_sent s;
                ws_uuids := ws_uuids s; ws_decisions := ws_decisions s |}).
  assert (Hp : exists s2, process_item w item s1 = (Returned tt, s2)
               /\ ws_sent s2
                  = ws_sent s
                    ++ [create_enhancement_started (Uuid4 (ws_uuids s)) default_note]
                    ++ List.map (create_c1_token id) fragments
                    ++ [create_chat_done id None]).
  { rewrite (process_item_decides w item md src response) by assumption.
    unfold bind at 1.
    destruct (step1_decided w src response (history item) d s1 Hdec) as (n & -> & _).
    erewrite after_decision_on with (n := length fragments + 1);
      [|assumption|cbn [ws_bus]; unfold s1; cbn [ws_bus]; rewrite Hl; exact Hq
       |replace (S (length fragments + 1)) with (length fragments + 2) by lia; exact Hroom].
    rewrite Hth. unfold try_except, stream_to_frontend. rewrite Hpr.
    unfold bind at 1. unfold uuid4 at 1.
    cbn [ws_bus ws_sent ws_uuids ws_decisions s1].
    fold id. unfold rendering_id in id. fold id.
    unfold bind at 1.
    match goal with |- context [for_each fragments ?f ?st] =>
      destruct (for_each_enqueue (create_c1_token id) fragments st
                  (pushed q (create_enhancement_started (Uuid4 (ws_uuids s)) default_note)) 1
                  eq_refl) as (s' & E & S1 & S2 & S3 & q' & Q1 & Q2)
    end.
    { apply room_pushed. replace (S (length fragments + 1)) with (length fragments + 2) by lia.
      exact Hroom. }
    rewrite E. rewrite (enqueue_room _ s' q' 0 Q1 Q2).
    eexists. split; [reflexivity|]. cbn [ws_sent]. rewrite S1. cbn [ws_sent].
    now rewrite <- !app_assoc. }
  destruct Hp as (s2 & Hp & Hs).
  destruct (iteration_returns w s item b s2 Hc Hget Hp) as (R1 & _ & _ & R4 & R5).
  rewrite R1, Hs. auto.
Qed.

Lemma enhanced_turn_is_streamed_witness :
  ws_sent (final (iteration rendering_world (queued [text_turn])))
  = [EnhancementStarted (Uuid4 0) default_note;
     C1Token (Ident (cp "m1")) (cp "<content>");
     C1Token (Ident (cp "m1")) (cp "</content>");
     ChatDone (Ident (cp "m1")) None].
Proof.
  assert (Hc : counted (ws_bus (queued [text_turn]))).
  { intros q H. inversion H. cbn. lia. }
  assert (Hr : room (new_queue 0) (2 + 2)) by (left; cbn; lia).
  exact (proj1 (enhanced_turn_is_streamed rendering_world (queued [text_turn]) text_turn _
                  text_metadata text_chat (cp "Here is the summary.") _
                  [cp "<content>"; cp "</content>"] (new_queue 0)
                  Hc eq_refl eq_refl eq_refl eq_refl eq_refl
                  (or_introl (conj eq_refl eq_refl)) eq_refl eq_refl eq_refl eq_refl Hr)).
Defined.

(** X20: a turn for which the enhancement is on and no rendering can be
    streamed, because no rendering service is set or because the
    request for it cannot be built: after the enhancement-started
    indicator the worker emits exactly one message with the fallback
    payload (the static card of the display text, or the warning that
    carries the text of the error): a text chat response with the
    thread id of the turn on the text path, a voice response with an
    empty voice text otherwise. *)
Theorem enhanced_turn_falls_back (w : world) (s : wstate) (item : RawLLMOutput)
    (b : bus) (md : metadata) (src response : pystr) (d : EnhancementDecision)
    (content : payload) (q : queue message) :
  counted (ws_bus s) ->
  get_raw_llm_output (ws_bus s) = (Done item, b) ->
  meta item = Some md -> source md = Some src ->
  assistant_response item = Some response -> truthy response = true ->
  decided w src response (history item) d -> displayEnhancement d = true ->
  fallback_payload w d = Some content ->
  llm_message_queue (ws_bus s) = Some q -> room q 2 ->
  ws_sent (final (iteration w s))
  = ws_sent s
    ++ [create_enhancement_started (Uuid4 (ws_uuids s)) default_note;
        if bool_decide (src = text_chat)
        then TextChatResponse (Uuid4 (S (ws_uuids s))) content (thread_id md)
        else VoiceResponse (Uuid4 (S (ws_uuids s))) content (Some []) false]
  /\ acknowledged (iteration w s) = true
  /\ propagated (iteration w s) = None.
Proof.
  intros Hc Hget Hmd Hsrc Hresp Ht Hdec Hd Hfb Hq Hroom.
  destruct (get_counted _ _ _ Hc Hget) as (Hl & _).
  set (s1 := {| ws_bus := b; ws_sent := ws_sent s;
                ws_uuids := ws_uuids s; ws_decisions := ws_decisions s |}).
  assert (Hp : exists s2, process_item w item s1 = (Returned tt, s2)
               /\ ws_sent s2
                  = ws_sent s
                    ++ [create_enhancement_started (Uuid4 (ws_uuids s)) default_note;
                        carried src md (Uuid4 (S (ws_uuids s))) content]).
  { rewrite (process_item_decides w item md src response) by assumption.
    unfold bind at 1.
    destruct (step1_decided w src response (history item) d s1 Hdec) as (n & -> & _).
    erewrite after_decision_on with (n := 1);
      [|assumption|cbn [ws_bus]; unfold s1; cbn [ws_bus]; rewrite Hl; exact Hq|exact Hroom].
    set (st := {| ws_bus := set_llm _ _; ws_sent := _; ws_uuids := _; ws_decisions := _ |}).
    assert (St1 : ws_sent st
                  = ws_sent s
                    ++ [create_enhancement_started (Uuid4 (ws_uuids s)) default_note])
      by reflexivity.
    assert (St2 : ws_uuids st = S (ws_uuids s)) by reflexivity.
    assert (Hm : forall c, exists s',
              bind (message_for_frontend src md c) (fun m => enqueue m) st
              = (Returned tt, s')
              /\ ws_sent s' = ws_sent st ++ [carried src md (Uuid4 (ws_uuids st)) c]).
    { intros c. eapply carried_enqueue; [reflexivity|apply room_pushed; exact Hroom]. }
    clearbody st. rewrite St1, St2 in Hm.
    unfold fallback_payload in Hfb.
    destruct (thesys_client w) as [fragments|].
    - destruct (prepare w) as [e|] eqn:Hpr; [|discriminate].
      destruct (is_Exception e) eqn:He; [|discriminate]. injection Hfb as <-.
      unfold try_except, stream_to_frontend. rewrite Hpr. unfold raise. rewrite He.
      destruct (Hm (Callout (cp "warning") (cp "Visualization Error")
                      (cp "Failed to generate UI: " ++ exn_text w e))) as (s' & E & S).
      cbv beta. rewrite E. eexists. split; [reflexivity|].
      rewrite S. now rewrite <- app_assoc.
    - injection Hfb as <-.
      destruct (Hm (SimpleCard (displayEnhancedText d))) as (s' & E & S).
      cbv beta. rewrite E. eexists. split; [reflexivity|].
      rewrite S. now rewrite <- app_assoc. }
  destruct Hp as (s2 & Hp & Hs).
  destruct (iteration_returns w s item b s2 Hc Hget Hp) as (R1 & _ & _ & R4 & R5).
  rewrite R1, Hs. unfold carried. auto.
Qed.

Lemma enhanced_turn_falls_back_witness :
  ws_sent (final (iteration broken_world (queued [voice_turn])))
  = [EnhancementStarted (Uuid4 0) default_note;
     VoiceResponse (Uuid4 1)
       (Callout (cp "warning") (cp "Visualization Error")
                (cp "Failed to generate UI: no prompt file")) (Some []) false].
Proof.
  assert (Hc : counted (ws_bus (queued [voice_turn]))).
  { intros q H. inversion H. cbn. lia. }
  assert (Hr : room (new_queue 0) 2) by (left; cbn; lia).
  assert (Hne : voice_agent <> text_chat) by discriminate.
  exact (proj1 (enhanced_turn_falls_back broken_world (queued [voice_turn]) voice_turn _
                  voice_metadata voice_agent (cp "It is sunny.") _ _ (new_queue 0)
                  Hc eq_refl eq_refl eq_refl eq_refl eq_refl
                  (or_intror (conj Hne eq_refl)) eq_refl eq_refl eq_refl Hr)).
Defined.

(** X21: turns that are not well formed.  Of the turns that
    [get_raw_llm_output] returns, which all have a response text, one
    whose metadata is [None] (the default of [enqueue_raw_llm_output])
    makes the handler of the loop raise in its turn: nothing is sent,
    the item is acknowledged, and the exception leaves the loop.  One
    whose metadata names no source is answered with the system-error
    warning as a voice response, and the loop goes on.  (A turn without
    a response text is not returned: [get_raw_llm_output] raises on
    it.) *)
Theorem malformed_turns (w : world) (s : wstate) (item : RawLLMOutput) (b : bus) :
  counted (ws_bus s) ->
  get_raw_llm_output (ws_bus s) = (Done item, b) ->
  assistant_response item <> None
  /\ (meta item = None ->
     ws_sent (final (iteration w s)) = ws_sent s
     /\ acknowledged (iteration w s) = true
     /\ propagated (iteration w s) = Some OtherException)
  /\ (forall md q,
        meta item = Some md -> source md = None ->
        llm_message_queue (ws_bus s) = Some q -> room q 1 ->
        ws_sent (final (iteration w s))
        = ws_sent s ++ [VoiceResponse (Uuid4 (ws_uuids s)) system_error None false]
        /\ acknowledged (iteration w s) = true
        /\ propagated (iteration w s) = None).
Proof.
  intros Hc Hget. destruct (get_counted _ _ _ Hc Hget) as (Hl & _).
  set (s1 := {| ws_bus := b; ws_sent := ws_sent s;
                ws_uuids := ws_uuids s; ws_decisions := ws_decisions s |}).
  split; [|split].
  - now apply get_raw_llm_output_returns in Hget as (q0 & rest & _ & _ & Hr & _).
  - intros Hmd.
    assert (Hp : process_item w item s1 = (Raised OtherException, s1)).
    { unfold process_item. now rewrite Hmd. }
    assert (Ho : on_exception (Some item) s1 = (Raised OtherException, s1)).
    { unfold on_exception. now rewrite Hmd. }
    destruct (iteration_handles w s item b _ s1 _ s1 Hc Hget Hp eq_refl Ho)
      as (R1 & _ & R3 & R4).
    auto.
  - intros md q Hmd Hsrc Hq Hroom.
    assert (Hp : process_item w item s1 = (Raised KeyError, s1)).
    { unfold process_item. now rewrite Hmd, Hsrc. }
    assert (Ho : exists s3, on_exception (Some item) s1 = (Returned tt, s3)
                 /\ ws_sent s3
                    = ws_sent s
                      ++ [VoiceResponse (Uuid4 (ws_uuids s)) system_error None false]).
    { unfold on_exception. rewrite Hmd, Hsrc. cbn [default].
      rewrite bool_decide_eq_false_2 by discriminate.
      unfold bind, uuid4, try_except.
      erewrite enqueue_room; [|cbn [ws_bus]; unfold s1; cbn [ws_bus]; rewrite Hl; exact Hq
                              |exact Hroom].
      eexists. split; reflexivity. }
    destruct Ho as (s3 & Ho & Hs).
    destruct (iteration_handles w s item b _ s1 _ s3 Hc Hget Hp eq_refl Ho)
      as (R1 & _ & R3 & R4).
    rewrite R1, Hs. auto.
Qed.

Lemma malformed_turns_witness :
  ws_sent (final (iteration plain_world (queued [bare_turn]))) = []
  /\ acknowledged (iteration plain_world (queued [bare_turn])) = true
  /\ propagated (iteration plain_world (queued [bare_turn])) = Some OtherException.
Proof.
  assert (Hc : counted (ws_bus (queued [bare_turn]))).
  { intros q H. inversion H. cbn. lia. }
  exact (proj1 (proj2 (malformed_turns plain_world (queued [bare_turn]) bare_turn _
                         Hc eq_refl))
           eq_refl).
Defined.

(** ** A run of iterations *)

Lemma tame_ret {A : Type} (a : A) : tame (ret a).
Proof. intros s H. split; [exact H|discriminate]. Qed.

Lemma tame_raise {A : Type} (e : exn) : is_Exception e = true -> tame (@raise A e).
Proof. intros He s H. split; [exact H|]. now intros e' [= <-]. Qed.

Lemma tame_bind {A B : Type} (m : M A) (k : A -> M B) :
  tame m -> (forall a, tame (k a)) -> tame (bind m k).
Proof.
  intros Hm Hk s H. unfold bind. destruct (Hm s H) as [H1 H2].
  destruct (m s) as [[a|e] s1]; cbn [fst snd] in *.
  - apply Hk. exact H1.
  - split; [exact H1|]. intros e' [= <-]. now apply H2.
Qed.

Lemma tame_try_except {A : Type} (body : M A) (handler : exn -> M A) :
  tame body -> (forall e, tame (handler e)) -> tame (try_except body handler).
Proof.
  intros Hb Hh s H. unfold try_except. destruct (Hb s H) as [H1 H2].
  destruct (body s) as [[a|e] s1]; cbn [fst snd] in *.
  - split; [exact H1|discriminate].
  - rewrite (H2 e eq_refl). apply Hh. exact H1.
Qed.

Lemma tame_uuid4 : tame uuid4.
Proof. intros s H. split; [exact H|discriminate]. Qed.

Lemma tame_count_decision : tame count_decision.
Proof. intros s H. split; [exact H|discriminate]. Qed.

Lemma tame_enqueue m : tame (enqueue m).
Proof.
  intros s H. unfold enqueue, enqueue_llm_message.
  destruct (llm_message_queue (ws_bus s)) as [q|] eqn:Hq; cbn [fst snd].
  - unfold put, full. specialize (H q eq_refl).
    replace (0 <? maxsize q)%Z with false by (symmetry; apply Z.ltb_ge; exact H).
    cbn [andb fst snd ws_bus set_llm llm_message_queue]. split; [|discriminate].
    intros q' [= <-]. exact H.
  - split; [|now intros e [= <-]]. intros q. rewrite Hq. discriminate.
Qed.

Lemma tame_for_each {A : Type} (l : list A) (f : A -> M unit) :
  (forall a, tame (f a)) -> tame (for_each l f).
Proof.
  intros Hf. induction l as [|a l IH]; cbn [for_each]; [apply tame_ret|].
  apply tame_bind; [apply Hf|]. intros _. exact IH.
Qed.

Lemma tame_process_item w item md :
  meta item = Some md ->
  (forall response h e, make_decision w response h = Raised e -> is_Exception e = true) ->
  (forall e, prepare w = Some e -> is_Exception e = true) ->
  tame (process_item w item).
Proof.
  intros Hmd Hdec Hpr. unfold process_item. rewrite Hmd.
  destruct (source md) as [src|]; [|now apply tame_raise].
  destruct (assistant_response item) as [response|]; [|apply tame_ret].
  destruct (negb (truthy response)); [apply tame_ret|].
  assert (Hm : forall c, tame (m <- message_for_frontend src md c ;; enqueue m)).
  { intros c. apply tame_bind; [|intros m; apply tame_enqueue].
    unfold message_for_frontend. apply tame_bind; [apply tame_uuid4|].
    intros u. apply tame_ret. }
  apply tame_bind.
  - unfold step1. apply tame_try_except; [|intros e; apply tame_ret].
    destruct (negb _); [|apply tame_ret].
    apply tame_bind; [apply tame_count_decision|]. intros _ s H. cbn [fst snd].
    split; [exact H|]. apply Hdec.
  - intros d. unfold after_decision.
    destruct (displayEnhancement d); [|apply tame_ret].
    apply tame_bind; [apply tame_uuid4|]. intros u.
    apply tame_bind; [apply tame_enqueue|]. intros _.
    destruct (_ && _); [apply tame_ret|].
    destruct (thesys_client w) as [fragments|]; [|apply Hm].
    apply tame_try_except; [|intros e; apply Hm].
    unfold stream_to_frontend. destruct (prepare w) as [e|] eqn:E.
    + apply tame_raise. now apply Hpr.
    + apply tame_bind; [apply tame_uuid4|]. intros v.
      apply tame_bind; [|intros _; apply tame_enqueue].
      apply tame_for_each. intros c. apply tame_enqueue.
Qed.

Lemma on_exception_returns item md s :
  meta item = Some md -> never_waits (ws_bus s) ->
  exists s', on_exception (Some item) s = (Returned tt, s') /\ never_waits (ws_bus s').
Proof.
  intros Hmd H. unfold on_exception. rewrite Hmd.
  unfold bind, uuid4.
  match goal with |- context [try_except (enqueue ?m) ?h ?st] =>
    pose proof (tame_enqueue m st) as T; unfold try_except;
    destruct (enqueue m st) as [[u|e] s1]
  end; cbn [fst snd ws_bus] in T; destruct (T H) as [T1 T2].
  - destruct u. eauto.
  - rewrite (T2 e eq_refl). unfold ret. eauto.
Qed.

(** One iteration on a channel that holds a turn with a response text
    and metadata. *)
Lemma iteration_takes_a_turn w s q item rest :
  (forall response h e, make_decision w response h = Raised e -> is_Exception e = true) ->
  (forall e, prepare w = Some e -> is_Exception e = true) ->
  never_waits (ws_bus s) ->
  raw_llm_output_queue (ws_bus s) = Some q -> items q = item :: rest ->
  0 < unfinished_tasks q -> complete item ->
  never_waits (ws_bus (final (iteration w s)))
  /\ raw_llm_output_queue (ws_bus (final (iteration w s)))
     = Some {| maxsize := maxsize q; items := rest;
               unfinished_tasks := pred (unfinished_tasks q) |}
  /\ acknowledged (iteration w s) = true
  /\ propagated (iteration w s) = None.
Proof.
  intros Hdec Hpr Hn Hq Hi Hpos [Hresp Hmeta].
  destruct (meta item) as [md|] eqn:Hmd; [clear Hmeta|congruence].
  destruct (assistant_response item) as [response|] eqn:Hr; [clear Hresp|congruence].
  pose proof (get_raw_llm_output_first _ q item rest Hq Hi) as Hget. rewrite Hr in Hget.
  destruct (acknowledgment_on_channel w s q item rest Hq Hi Hpos) as [Ha Hack].
  rewrite Hr in Ha. rewrite Ha in Hack.
  split; [|split; [exact Hack|]].
  - (* the channel to the frontend *)
    unfold iteration, try_block. rewrite Hget.
    set (s1 := {| ws_bus := _; ws_sent := ws_sent s; ws_uuids := _; ws_decisions := _ |}).
    assert (H1 : never_waits (ws_bus s1)) by exact Hn.
    destruct (tame_process_item w item md Hmd Hdec Hpr s1 H1) as [T1 T2].
    destruct (process_item w item s1) as [[u|e] s2]; cbn [fst snd] in T1, T2.
    + intros q'. destruct (finally_fields true (Returned u) s2) as (_ & _ & _ & -> & _).
      apply T1.
    + rewrite (T2 e eq_refl).
      destruct (on_exception_returns item md s2 Hmd T1) as (s3 & -> & T3).
      intros q'. destruct (finally_fields true (Returned tt) s3) as (_ & _ & _ & -> & _).
      apply T3.
  - rewrite acknowledged_got_item. unfold try_block. rewrite Hget. split; [reflexivity|].
    unfold iteration, try_block. rewrite Hget.
    set (s1 := {| ws_bus := _; ws_sent := ws_sent s; ws_uuids := _; ws_decisions := _ |}).
    assert (H1 : never_waits (ws_bus s1)) by exact Hn.
    assert (R1 : raw_llm_output_queue (ws_bus s1)
                 = Some {| maxsize := maxsize q; items := rest;
                           unfinished_tasks := unfinished_tasks q |}) by reflexivity.
    destruct (tame_process_item w item md Hmd Hdec Hpr s1 H1) as [T1 T2].
    pose proof (keeps_raw_process_item w item s1) as K1.
    destruct (process_item w item s1) as [[u|e] s2]; cbn [fst snd] in T1, T2, K1.
    + erewrite finally_propagated; [reflexivity|rewrite K1; exact R1|exact Hpos].
    + rewrite (T2 e eq_refl).
      destruct (on_exception_returns item md s2 Hmd T1) as (s3 & Ho & T3).
      pose proof (keeps_raw_on_exception (Some item) s2) as K2.
      rewrite Ho in K2 |- *. cbn [snd] in K2.
      erewrite finally_propagated; [reflexivity|rewrite K2, K1; exact R1|exact Hpos].
Qed.

Lemma iterations_drain w turns : forall s q,
  (forall response h e, make_decision w response h = Raised e -> is_Exception e = true) ->
  (forall e, prepare w = Some e -> is_Exception e = true) ->
  never_waits (ws_bus s) ->
  raw_llm_output_queue (ws_bus s) = Some q -> items q = turns ->
  length turns <= unfinished_tasks q ->
  Forall complete turns ->
  let '(s', acks, e) := iterations w (length turns) s in
  e = None /\ acks = length turns
  /\ raw_llm_output_queue (ws_bus s')
     = Some {| maxsize := maxsize q; items := [];
               unfinished_tasks := unfinished_tasks q - length turns |}.
Proof.
  induction turns as [|turn turns IH]; intros s q Hdec Hpr Hn Hq Hi Hu Hall;
    cbn [iterations length].
  - repeat split. rewrite Hq, Nat.sub_0_r, <- Hi. now destruct q.
  - apply Forall_cons in Hall as [Hm Hall]. cbn [length] in Hu.
    destruct (iteration_takes_a_turn w s q turn turns Hdec Hpr Hn Hq Hi) as (I1 & I2 & I3 & I4);
      [lia|exact Hm|].
    rewrite I4, I3.
    specialize (IH (final (iteration w s)) _ Hdec Hpr I1 I2 eq_refl).
    cbn [items unfinished_tasks maxsize] in IH.
    destruct (iterations w (length turns) (final (iteration w s))) as [[s' acks] e].
    destruct IH as (J1 & J2 & J3); [lia|exact Hall|].
    rewrite J1, J2, J3. repeat split.
    replace (pred (unfinished_tasks q) - length turns)
      with (unfinished_tasks q - S (length turns)) by lia.
    reflexivity.
Qed.

(** X22: the worker works off the channel: on a channel of raw turns that
    holds [n] turns, each with a response text (it may be empty) and
    with metadata, the decision loop and the preparation of the
    rendering raising nothing but [Exception]s and the channel to the
    frontend never making the worker wait, [n] iterations of the loop
    acknowledge [n] items, none of them lets an exception out, and they
    leave the channel empty with [n] unfinished tasks less -- so that a
    [join()] on a channel whose turns were all unfinished returns.  (A
    turn without a response text is taken off the channel and never
    acknowledged.) *)
Theorem worker_works_off_the_channel (w : world) (s : wstate)
    (q : queue RawLLMOutput) :
  (forall response h e, make_decision w response h = Raised e -> is_Exception e = true) ->
  (forall e, prepare w = Some e -> is_Exception e = true) ->
  (forall q', llm_message_queue (ws_bus s) = Some q' -> (maxsize q' <= 0)%Z) ->
  raw_llm_output_queue (ws_bus s) = Some q ->
  length (items q) <= unfinished_tasks q ->
  Forall complete (items q) ->
  let '(s', acks, e) := iterations w (length (items q)) s in
  e = None /\ acks = length (items q)
  /\ raw_llm_output_queue (ws_bus s')
     = Some {| maxsize := maxsize q; items := [];
               unfinished_tasks := unfinished_tasks q - length (items q) |}.
Proof.
  intros Hdec Hpr Hn Hq Hu Hall.
  exact (iterations_drain w (items q) s q Hdec Hpr Hn Hq eq_refl Hu Hall).
Qed.

Lemma worker_works_off_the_channel_witness :
  let '(s', acks, e) := iterations plain_world 2 (queued [voice_turn; text_turn]) in
  e = None /\ acks = 2
  /\ raw_llm_output_queue (ws_bus s')
     = Some {| maxsize := 100; items := []; unfinished_tasks := 0 |}.
Proof.
  apply (worker_works_off_the_channel plain_world (queued [voice_turn; text_turn])
           {| maxsize := 100; items := [voice_turn; text_turn]; unfinished_tasks := 2 |}).
  - discriminate.
  - discriminate.
  - intros q' [= <-]. cbn. lia.
  - reflexivity.
  - cbn. lia.
  - repeat constructor; discriminate.
Defined.

(** ** The narration path *)

Lemma drop_while_head f s :
  match drop_while f s with [] => True | c :: _ => f c = false end.
Proof.
  induction s as [|c s IH]; cbn; [exact I|].
  destruct (f c) eqn:E; [exact IH|exact E].
Qed.

Lemma drop_while_suffix f s : exists p, s = p ++ drop_while f s.
Proof.
  induction s as [|c s [p IH]]; cbn; [now exists []|].
  destruct (f c); [|now exists []]. exists (c :: p). cbn. now rewrite <- IH.
Qed.

Lemma drop_while_stays f s :
  match s with [] => True | c :: _ => f c = false end -> drop_while f s = s.
Proof. destruct s as [|c s]; cbn; [reflexivity|]. now intros ->. Qed.

Lemma rstrip_prefix s : exists d, s = rstrip s ++ d.
Proof.
  unfold rstrip. destruct (drop_while_suffix is_space (rev s)) as [p Hp].
  exists (rev p). rewrite <- rev_app_distr, <- Hp. now rewrite rev_involutive.
Qed.

Lemma rstrip_idem s : rstrip (rstrip s) = rstrip s.
Proof.
  unfold rstrip. rewrite rev_involutive. f_equal.
  apply drop_while_stays. apply drop_while_head.
Qed.

Lemma strip_idem s : strip (strip s) = strip s.
Proof.
  unfold strip, lstrip.
  assert (H : drop_while is_space (rstrip (drop_while is_space s))
              = rstrip (drop_while is_space s)).
  { apply drop_while_stays.
    pose proof (drop_while_head is_space s) as Hh.
    destruct (rstrip_prefix (drop_while is_space s)) as [d Hd].
    destruct (rstrip (drop_while is_space s)) as [|c r]; [exact I|].
    rewrite Hd in Hh. exact Hh. }
  rewrite H. apply rstrip_idem.
Qed.

Lemma strip_truthy s : truthy (strip s) = true -> truthy s = true.
Proof. destruct s; [discriminate|reflexivity]. Qed.

(** X23: the way of a narration text from the worker to the speech
    pipelines.  The callback of the worker hands a text that is not
    blank to every registered agent, stripped of the white space around
    it, and each agent whose pipeline takes the frame queues that text
    followed by one space; a blank text reaches no agent.  The callback
    never raises. *)
Theorem narration_reaches_the_agents (r : registry) (voice_text : pystr) :
  fst (Narration.voice_injection_callback r voice_text) = Returned tt
  /\ (truthy (strip voice_text) = false -> snd (Narration.voice_injection_callback r voice_text) = [])
  /\ (truthy (strip voice_text) = true ->
      forall a, In a r ->
        In (Invoked (agent_id a) (strip voice_text))
           (snd (Narration.voice_injection_callback r voice_text))
        /\ (inject_tts_voice_over a (strip voice_text) = Delivers ->
            In (Delivered (agent_id a) (strip voice_text))
               (snd (Narration.voice_injection_callback r voice_text)))
        /\ forall queue_frames,
             queue_frames (strip voice_text ++ [space]) = None ->
             Narration.inject_tts_voice_over (Some queue_frames) (strip voice_text)
             = (Returned tt, [strip voice_text ++ [space]])).
Proof.
  unfold Narration.voice_injection_callback, inject_voice_over_to_all_agents.
  rewrite strip_idem.
  destruct (truthy (strip voice_text)) eqn:Hs.
  - rewrite (strip_truthy _ Hs). cbn [andb negb orb].
    split; [|split; [discriminate|]].
    + destruct r as [|a0 r0]; [reflexivity|].
      now destruct (injection_tasks (a0 :: r0) (strip voice_text)).
    + intros _ a Ha.
      destruct r as [|a0 r0]; [destruct Ha|]. set (rr := a0 :: r0) in *.
      assert (Hi : In (Invoked (agent_id a) (strip voice_text))
                      (List.map (fun a => Invoked (agent_id a) (strip voice_text)) rr)).
      { apply in_map_iff. eauto. }
      split; [|split].
      * destruct (injection_tasks rr (strip voice_text)); cbn [snd]; [exact Hi|].
        apply in_or_app. now left.
      * intros Hd.
        assert (Ht : In a (injection_tasks rr (strip voice_text))).
        { unfold injection_tasks. apply filter_In. split; [exact Ha|]. now rewrite Hd. }
        destruct (injection_tasks rr (strip voice_text)) as [|t ts] eqn:E; [destruct Ht|].
        cbn [snd]. apply in_or_app. right. unfold gather. apply in_map_iff.
        exists a. split; [reflexivity|]. apply filter_In. split; [exact Ht|].
        now rewrite Hd.
      * intros queue_frames Hq. unfold Narration.inject_tts_voice_over.
        rewrite strip_idem, Hs. cbn [negb orb]. now rewrite Hq.
  - rewrite andb_false_r. split; [reflexivity|]. split; [reflexivity|discriminate].
Qed.

Lemma narration_reaches_the_agents_witness :
  In (Delivered 2 (cp "Hello"))
     (snd (Narration.voice_injection_callback [BroadcastTerms.failing_sink; BroadcastTerms.working_sink]
             (cp "Hello "))).
Proof.
  apply (proj2 (proj2 (narration_reaches_the_agents
                         [BroadcastTerms.failing_sink; BroadcastTerms.working_sink]
                         (cp "Hello ")))
           eq_refl BroadcastTerms.working_sink (or_intror (or_introl eq_refl))).
  reflexivity.
Defined.

(** ** Turns of the voice agent *)

(** X24: what the voice agent puts on the channel of raw turns always names
    its source and its thread, and carries the response stripped of
    surrounding white space; so a response that is blank is dropped by
    the worker: put on an empty channel that has room, the turn is
    taken by the next iteration, which asks for no decision, sends
    nothing, acknowledges the item and goes on. *)
Theorem blank_voice_response_is_dropped (w : world) (s : wstate) (thread response : pystr)
    (h : list history_entry) (q : queue RawLLMOutput) :
  raw_llm_output_queue (ws_bus s) = Some q -> items q = [] -> full q = false ->
  let turn := {| assistant_response := Some (strip response); history := h;
                 meta := Some {| source := Some voice_agent; thread_id := Some thread;
                                 message_id := None |} |} in
  let q1 := {| maxsize := maxsize q; items := [turn];
               unfinished_tasks := S (unfinished_tasks q) |} in
  let s1 := {| ws_bus := set_raw (ws_bus s) q1; ws_sent := ws_sent s;
               ws_uuids := ws_uuids s; ws_decisions := ws_decisions s |} in
  Narration.process_downstream_display thread (Some q) response h = (Done tt, Some q1)
  /\ (truthy (strip response) = false ->
      ws_sent (final (iteration w s1)) = ws_sent s
      /\ ws_decisions (final (iteration w s1)) = ws_decisions s
      /\ acknowledged (iteration w s1) = true
      /\ propagated (iteration w s1) = None).
Proof.
  intros Hq Hi Hf turn q1 s1. split.
  - unfold Narration.process_downstream_display, put. rewrite Hf, Hi. reflexivity.
  - intros Hb.
    assert (Hc : counted (ws_bus s1)).
    { intros q0 [= <-]. cbn. lia. }
    assert (Hget : get_raw_llm_output (ws_bus s1)
                   = (Done turn, set_raw (ws_bus s1)
                                   {| maxsize := maxsize q; items := [];
                                      unfinished_tasks := S (unfinished_tasks q) |}))
      by reflexivity.
    assert (Hp : forall st, process_item w turn st = (Returned tt, st)).
    { intros st. unfold process_item. cbn [meta source assistant_response turn].
      now rewrite Hb. }
    destruct (iteration_returns w s1 turn _ _ Hc Hget (Hp _)) as (R1 & R2 & _ & R4 & R5).
    auto.
Qed.

Lemma blank_voice_response_is_dropped_witness :
  let s1 := {| ws_bus := set_raw (ws_bus idle)
                           {| maxsize := 100;
                              items := [{| assistant_response := Some [];
                                           history := [];
                                           meta := Some {| source := Some voice_agent;
                                                           thread_id := Some (cp "t1");
                                                           message_id := None |} |}];
                              unfinished_tasks := 1 |};
               ws_sent := []; ws_uuids := 0; ws_decisions := 0 |} in
  ws_sent (final (iteration plain_world s1)) = []
  /\ ws_decisions (final (iteration plain_world s1)) = 0
  /\ acknowledged (iteration plain_world s1) = true
  /\ propagated (iteration plain_world s1) = None.
Proof.
  exact (proj2 (blank_voice_response_is_dropped plain_world idle (cp "t1") (cp "  ") []
                  (new_queue 100) eq_refl eq_refl eq_refl) eq_refl).
Defined.

(** ** The registry *)

Lemma registry_after_NoDup c r :
  NoDup (List.map agent_id r) -> NoDup (List.map agent_id (registry_after c r)).
Proof.
  intros H. destruct c as [a|a]; cbn [registry_after].
  - unfold register_voice_agent. destruct (registered a r) eqn:E; [exact H|].
    rewrite map_app. cbn [List.map].
    apply NoDup_app. split; [exact H|]. split; [|repeat constructor; easy].
    intros x Hx Hin. apply list_elem_of_In in Hx, Hin. destruct Hin as [<-|[]].
    apply in_map_iff in Hx as (b & Hb & Hin).
    assert (Ht : registered a r = true).
    { unfold registered. apply existsb_exists. exists b. split; [exact Hin|].
      now apply Nat.eqb_eq. }
    congruence.
  - unfold unregister_voice_agent. induction r as [|b r IH]; cbn in *; [exact H|].
    apply NoDup_cons in H as [Hb Hr].
    destruct (negb _); cbn; [|now apply IH].
    apply NoDup_cons. split; [|now apply IH].
    intros Hin. apply Hb. apply list_elem_of_In in Hin. apply list_elem_of_In.
    apply in_map_iff in Hin as (x & Hx & Hin). apply filter_In in Hin as [Hin _].
    apply in_map_iff. eauto.
Qed.

Lemma invocations_invoked id text r :
  NoDup (List.map agent_id r) ->
  invocations id (List.map (fun a => Invoked (agent_id a) text) r)
  = if existsb (fun b => Nat.eqb (agent_id b) id) r then 1 else 0.
Proof.
  unfold invocations. induction r as [|b r IH]; intros H; cbn; [reflexivity|].
  apply NoDup_cons in H as [Hb Hr]. specialize (IH Hr).
  destruct (Nat.eqb (agent_id b) id) eqn:E; cbn.
  - rewrite IH. apply Nat.eqb_eq in E. subst id.
    destruct (existsb _ r) eqn:X; [exfalso|reflexivity].
    apply existsb_exists in X as (c & Hc & Hid). apply Nat.eqb_eq in Hid.
    apply Hb. apply list_elem_of_In. apply in_map_iff. eauto.
  - exact IH.
Qed.

Lemma invocations_app id l1 l2 :
  invocations id (l1 ++ l2) = invocations id l1 + invocations id l2.
Proof. unfold invocations. now rewrite List.filter_app, length_app. Qed.

Lemma invocations_gather id tasks text : invocations id (gather tasks text) = 0.
Proof.
  unfold invocations, gather.
  induction (List.filter _ tasks) as [|a l IH]; cbn; [reflexivity|exact IH].
Qed.

(** X25: whatever calls of [register_voice_agent] and
    [unregister_voice_agent] were made, a broadcast of a text that is
    not blank calls the entrypoint of an agent exactly once when the
    agent is registered, and not at all when it is not: registering
    twice does not double the narration, and an agent that was
    unregistered hears nothing more. *)
Theorem registered_agents_are_called_once (calls : list registry_call) (a : agent)
    (voice_text : pystr) :
  truthy (strip voice_text) = true ->
  let r := fold_left (fun r c => registry_after c r) calls [] in
  invocations (agent_id a) (snd (inject_voice_over_to_all_agents r voice_text))
  = (if registered a r then 1 else 0)
  /\ registered a (register_voice_agent a r) = true
  /\ registered a (unregister_voice_agent a r) = false.
Proof.
  intros Hs r.
  assert (Hnd : NoDup (List.map agent_id r)).
  { unfold r. assert (H0 : NoDup (List.map agent_id [])) by constructor.
    revert H0. generalize (@nil agent).
    induction calls as [|c calls IH]; intros r0 H; cbn; [exact H|].
    apply IH. now apply registry_after_NoDup. }
  clearbody r. split; [|split].
  - unfold inject_voice_over_to_all_agents.
    rewrite Hs, (strip_truthy _ Hs). cbn [negb orb].
    destruct r as [|b r]; [reflexivity|].
    pose proof (invocations_invoked (agent_id a) voice_text (b :: r) Hnd) as Hi.
    destruct (injection_tasks (b :: r) voice_text); cbn [snd].
    + exact Hi.
    + rewrite invocations_app, invocations_gather, Nat.add_0_r. exact Hi.
  - unfold register_voice_agent. destruct (registered a r) eqn:E; [exact E|].
    unfold registered. rewrite existsb_app. cbn. rewrite Nat.eqb_refl.
    now rewrite orb_true_r.
  - unfold registered, unregister_voice_agent.
    destruct (existsb _ _) eqn:X; [exfalso|reflexivity].
    apply existsb_exists in X as (c & Hc & Hid).
    apply filter_In in Hc as [_ Hc]. rewrite Hid in Hc. discriminate.
Qed.

Lemma registered_agents_are_called_once_witness :
  invocations 2
    (snd (inject_voice_over_to_all_agents
            (fold_left (fun r c => registry_after c r)
               [Register BroadcastTerms.working_sink; Register BroadcastTerms.failing_sink;
                Register BroadcastTerms.working_sink; Unregister BroadcastTerms.failing_sink]
               [])
            (cp "Hello")))
  = 1.
Proof.
  exact (proj1 (registered_agents_are_called_once
                  [Register BroadcastTerms.working_sink; Register BroadcastTerms.failing_sink;
                   Register BroadcastTerms.working_sink; Unregister BroadcastTerms.failing_sink]
                  BroadcastTerms.working_sink (cp "Hello") eq_refl)).
Defined.

End TurnFacts.

Module McpFacts.
Import PyStr Py McpClient McpTerms.

(** ** Placeholders *)

Lemma take_drop_while f s : take_while f s ++ drop_while f s = s.
Proof.
  induction s as [|c s IH]; cbn; [reflexivity|].
  destruct (f c); cbn; [now rewrite IH|reflexivity].
Qed.

Lemma match_placeholder_Some s name rest :
  match_placeholder s = Some (name, rest) -> s = lbrace :: name ++ rbrace :: rest.
Proof.
  unfold match_placeholder. destruct s as [|b [|c t]]; try discriminate.
  destruct (N.eqb_spec b lbrace) as [->|]; [|discriminate]. cbn [andb].
  destruct (name_start c); [|discriminate].
  destruct (drop_while name_char t) as [|e r] eqn:D; [discriminate|].
  destruct (N.eqb_spec e rbrace) as [->|]; [|discriminate].
  intros [= <- <-]. cbn. rewrite <- D. now rewrite take_drop_while.
Qed.

Lemma rbrace_not_name_char : name_char rbrace = false.
Proof. reflexivity. Qed.

Lemma take_while_run f cs c post :
  forallb f cs = true -> f c = false ->
  take_while f (cs ++ c :: post) = cs /\ drop_while f (cs ++ c :: post) = c :: post.
Proof.
  intros Hcs Hc. induction cs as [|x cs IH]; cbn in *; [now rewrite Hc|].
  apply andb_true_iff in Hcs as [-> Hcs]. destruct (IH Hcs) as [-> ->]. easy.
Qed.

Lemma match_placeholder_name name post :
  variable_name name ->
  match_placeholder (lbrace :: name ++ rbrace :: post) = Some (name, post).
Proof.
  destruct name as [|c cs]; [intros []|]. intros [Hc Hcs]. cbn.
  rewrite Hc. cbn [andb].
  destruct (take_while_run name_char cs rbrace post Hcs rbrace_not_name_char) as [-> ->].
  reflexivity.
Qed.

Lemma match_placeholder_other c t : c <> lbrace -> match_placeholder (c :: t) = None.
Proof.
  intros H. unfold match_placeholder. destruct t as [|d t]; [reflexivity|].
  destruct (N.eqb_spec c lbrace); [contradiction|reflexivity].
Qed.

Lemma sub_placeholders_fuel getenv fuel : forall fuel' s,
  length s <= fuel -> length s <= fuel' ->
  sub_placeholders fuel getenv s = sub_placeholders fuel' getenv s.
Proof.
  induction fuel as [|fuel IH]; intros fuel' s H H'.
  - destruct s; [|cbn in H; lia]. now destruct fuel'.
  - destruct s as [|c t]; [now destruct fuel'|].
    destruct fuel' as [|fuel']; [cbn in H'; lia|].
    cbn [sub_placeholders]. cbn [length] in H, H'.
    destruct (match_placeholder (c :: t)) as [[name rest]|] eqn:M.
    + apply match_placeholder_Some in M. apply (f_equal (@length N)) in M.
      cbn [length] in M. rewrite length_app in M. cbn [length] in M.
      f_equal. apply IH; lia.
    + f_equal. apply IH; lia.
Qed.

Lemma substitute_cons_other getenv c t :
  c <> lbrace ->
  _substitute_env_vars getenv (c :: t) = c :: _substitute_env_vars getenv t.
Proof.
  intros H. unfold _substitute_env_vars. cbn [length sub_placeholders].
  now rewrite (match_placeholder_other c t H).
Qed.

Lemma substitute_placeholder getenv name post :
  variable_name name ->
  _substitute_env_vars getenv (lbrace :: name ++ rbrace :: post)
  = replace_var getenv name ++ _substitute_env_vars getenv post.
Proof.
  intros H. unfold _substitute_env_vars. cbn [length sub_placeholders].
  rewrite (match_placeholder_name name post H). f_equal.
  apply sub_placeholders_fuel; [|lia]. rewrite length_app. cbn. lia.
Qed.

(** X26: [_substitute_env_vars] changes nothing in a text when no variable
    is set, the placeholders being kept as they are, and nothing in a
    text without an opening brace, whatever the environment. *)
Theorem substitution_keeps_what_it_cannot_resolve (getenv : pystr -> option pystr)
    (text : pystr) :
  (forall name, getenv name = None) \/ (forall c, In c text -> c <> lbrace) ->
  _substitute_env_vars getenv text = text.
Proof.
  intros H. unfold _substitute_env_vars.
  assert (G : forall fuel s, length s <= fuel ->
            (forall name, getenv name = None) \/ (forall c, In c s -> c <> lbrace) ->
            sub_placeholders fuel getenv s = s).
  { clear. induction fuel as [|fuel IH]; intros s Hl Hs; [reflexivity|].
    destruct s as [|c t]; [reflexivity|]. cbn [sub_placeholders]. cbn [length] in Hl.
    destruct (match_placeholder (c :: t)) as [[name rest]|] eqn:M.
    - pose proof (match_placeholder_Some _ _ _ M) as E.
      destruct Hs as [Hs|Hs].
      + unfold replace_var. rewrite Hs. rewrite IH; [|clear IH|now left].
        * rewrite E. cbn. now rewrite <- app_assoc.
        * apply (f_equal (@length N)) in E. cbn [length] in E. rewrite length_app in E.
          cbn [length] in E. lia.
      + exfalso. injection E as -> _. apply (Hs lbrace); [now left|reflexivity].
    - f_equal. apply IH; [lia|]. destruct Hs as [Hs|Hs]; [now left|right].
      intros d Hd. apply Hs. now right. }
  now apply G.
Qed.

Lemma substitution_keeps_what_it_cannot_resolve_witness :
  _substitute_env_vars (fun _ => None) (cp "https://{HOST}/mcp?key={API_KEY}")
  = cp "https://{HOST}/mcp?key={API_KEY}".
Proof.
  apply substitution_keeps_what_it_cannot_resolve. now left.
Defined.

(** X27: the first placeholder of a text is replaced by the value of its
    variable, and the substitution goes on in what follows the
    placeholder: the value is put in as it is, a placeholder inside a
    value is not resolved. *)
Theorem substitution_is_one_pass (getenv : pystr -> option pystr)
    (before name value after : pystr) :
  (forall c, In c before -> c <> lbrace) ->
  variable_name name -> getenv name = Some value ->
  _substitute_env_vars getenv (before ++ lbrace :: name ++ rbrace :: after)
  = before ++ value ++ _substitute_env_vars getenv after.
Proof.
  intros Hb Hn Hv. induction before as [|c before IH]; cbn [app].
  - rewrite substitute_placeholder by assumption. unfold replace_var. now rewrite Hv.
  - rewrite substitute_cons_other by (apply Hb; now left).
    f_equal. apply IH. intros d Hd. apply Hb. now right.
Qed.

Lemma substitution_is_one_pass_witness :
  _substitute_env_vars one_variable (cp "key={API_KEY}&host={HOST}")
  = cp "key={HOST}&host={HOST}".
Proof.
  apply (substitution_is_one_pass one_variable (cp "key=") (cp "API_KEY") (cp "{HOST}")
           (cp "&host={HOST}")).
  - intros c Hc. cbn in Hc. intros ->. repeat (destruct Hc as [Hc|Hc]; [discriminate Hc|]).
    exact Hc.
  - split; reflexivity.
  - reflexivity.
Defined.

(** ** Tool calls *)

Lemma text_of_cases r :
  match text_of r with
  | Returned text => (isError r = true /\ error_text text)
                     \/ (isError r = false /\ text = plain_text r)
  | Raised e => is_Exception e = true
  end.
Proof.
  unfold text_of, plain_text. destruct (result_content r) as [|[text|] l].
  - destruct (isError r); [left|right]; split; try reflexivity.
    now exists (cp ": Unknown error").
  - destruct (isError r); [left|right]; split; try reflexivity.
    now exists (cp ": " ++ text).
  - reflexivity.
Qed.

(** X28: [_call_tool] always answers with a text: it lets no [Exception]
    out (a time-out, a failure to connect and any error of the call
    become texts), and the text begins with [Error] unless the tool is
    known, its server was reached and it answered without the error
    flag, in which case the text is the first text of the content, or
    [No result] when the content is empty.  A tool that is not known is
    answered with the error text that names it. *)
Theorem call_tool_always_answers (arguments : Type) (in_body : arguments -> arguments)
    (available_tools : gmap pystr tool_info) (connect : pystr -> option exn)
    (call_tool : pystr -> arguments -> result tool_result) (exn_text : exn -> pystr)
    (tool_key : pystr) (args : arguments) :
  let answer := _call_tool arguments in_body available_tools connect call_tool exn_text
                  tool_key args in
  (forall e, answer = Raised e -> is_Exception e = false)
  /\ (available_tools !! tool_key = None ->
      answer = Returned (cp "Error: Tool " ++ tool_key ++ cp " not found"))
  /\ (forall text, answer = Returned text ->
      error_text text
      \/ exists info sent r,
           available_tools !! tool_key = Some info
           /\ call_tool (tool_name info) sent = Returned r
           /\ isError r = false /\ text = plain_text r).
Proof.
  cbv zeta. unfold _call_tool.
  destruct (available_tools !! tool_key) as [info|] eqn:L.
  - assert (B : match call_body arguments in_body connect call_tool tool_key info args with
                | Returned text =>
                    error_text text
                    \/ exists sent r, call_tool (tool_name info) sent = Returned r
                                      /\ isError r = false /\ text = plain_text r
                | Raised _ => True
                end).
    { unfold call_body, call_and_read.
      assert (C : forall sent,
                match match call_tool (tool_name info) sent with
                      | Returned r => text_of r
                      | Raised e => Raised e
                      end with
                | Returned text =>
                    error_text text
                    \/ exists sent r, call_tool (tool_name info) sent = Returned r
                                      /\ isError r = false /\ text = plain_text r
                | Raised _ => True
                end).
      { intros sent. destruct (call_tool (tool_name info) sent) as [r|e] eqn:E; [|exact I].
        pose proof (text_of_cases r) as T. destruct (text_of r) as [text|e]; [|exact I].
        destruct T as [[_ T]|[T1 T2]]; [now left|right; eauto]. }
      destruct (via info) as [|[|]].
      - destruct (connect tool_key); [exact I|apply C].
      - apply C.
      - left. now exists (cp ": No session available for tool " ++ tool_key). }
    destruct (call_body arguments in_body connect call_tool tool_key info args)
      as [text|e].
    + split; [discriminate|]. split; [discriminate|].
      intros text' [= <-]. destruct B as [B|(sent & r & B)]; [now left|right; eauto].
    + assert (E : forall text,
                (if is_Exception e then Returned (cp "Error calling tool: " ++ exn_text e)
                 else Raised e) = Returned text -> error_text text).
      { intros text. destruct (is_Exception e); [|discriminate].
        intros [= <-]. now exists (cp " calling tool: " ++ exn_text e). }
      assert (X : forall e',
                (if is_Exception e then Returned (cp "Error calling tool: " ++ exn_text e)
                 else Raised e) = Raised e' -> is_Exception e' = false).
      { intros e'. destruct (is_Exception e) eqn:Y; [discriminate|]. now intros [= <-]. }
      destruct e; (split; [first [exact X|discriminate]|]);
        (split; [discriminate|]); intros text H; left;
        first [apply (E text H)
              |injection H as <-; now exists (cp ": Tool call timed out after 20 seconds")].
  - split; [discriminate|]. split; [reflexivity|].
    intros text [= <-]. left. now exists (cp ": Tool " ++ tool_key ++ cp " not found").
Qed.

Lemma call_tool_always_answers_witness :
  _call_tool unit (fun a => a) one_tool (fun _ => None) timing_out (fun _ => [])
    (cp "crm_lookup") tt
  = Returned (cp "Error: Tool crm_lookup not found")
  /\ is_Exception CancelledError = false.
Proof.
  split.
  - apply (proj1 (proj2 (call_tool_always_answers unit (fun a => a) one_tool (fun _ => None)
                           timing_out (fun _ => []) (cp "crm_lookup") tt))).
    vm_compute. reflexivity.
  - apply (proj1 (call_tool_always_answers unit (fun a => a) one_tool (fun _ => None)
                    (fun _ _ => Raised CancelledError) (fun _ => []) (cp "crm_search") tt)
             CancelledError).
    vm_compute. reflexivity.
Defined.

End McpFacts.

Module ChatFacts.
Import PyStr Py Queues ChatHistory ChatHistoryStore HistoryTerms HistoryFacts StoreTerms
  StoreFacts ChatRoute ChatTerms.

Lemma stored_user_message (msg thread_id : pystr) (is_c1_action : bool) (t : readings)
    (m : ChatHistoryManager) :
  (if is_c1_action
   then add_c1_action thread_id msg (at_user_0 t) (at_user_1 t) m
   else add_user_message thread_id msg None (at_user_0 t) (at_user_1 t) m)
  = store thread_id (user_entry msg) (at_user_0 t) (at_user_1 t) m.
Proof. now destruct is_c1_action. Qed.

Lemma recent_after_store (thread_id : pystr) (msg : message) (t0 t1 now : Z)
    (m : ChatHistoryManager) :
  (0 <= max_history_per_thread m)%Z ->
  get_recent_history thread_id None now (store thread_id msg t0 t1 m)
  = (trimmed (max_history_per_thread m) (thread_history m thread_id ++ [msg]),
     store thread_id msg t0 t1 m).
Proof.
  intros Hmax. destruct (store_history thread_id msg t0 t1 m) as [Hs Hm].
  unfold get_recent_history.
  assert (E : _ensure_thread_exists thread_id now (store thread_id msg t0 t1 m)
              = store thread_id msg t0 t1 m).
  { unfold _ensure_thread_exists. now rewrite Hs. }
  rewrite E, Hm. f_equal. unfold thread_history at 1. rewrite Hs. cbn [default].
  unfold Datatypes.id. apply last_slice_all. now apply trimmed_length.
Qed.

Lemma answer_ext (tool_arguments : Type) (json_loads : pystr -> option tool_arguments)
    (json_dumps : tool_arguments -> pystr)
    (create create' : list message -> bool -> result completion)
    (_call_tool : pystr -> tool_arguments -> result pystr) (has_tools : bool)
    (messages : list message) :
  (forall l b, (exists rest, l = messages ++ rest) -> create l b = create' l b) ->
  answer tool_arguments json_loads json_dumps create _call_tool has_tools messages
  = answer tool_arguments json_loads json_dumps create' _call_tool has_tools messages.
Proof.
  intros H. unfold answer.
  rewrite <- (H messages has_tools) by (exists []; now rewrite app_nil_r).
  destruct (create messages has_tools) as [reply|e]; [|reflexivity].
  destruct (reply_function_call reply) as [[func_name arguments]|]; [|reflexivity].
  destruct (json_loads _) as [args|]; [|reflexivity].
  destruct (_call_tool func_name args) as [tool_result|e]; [|reflexivity].
  now rewrite <- H by eauto.
Qed.

(** X29: the model is shown the message of the user twice.
    [_process_chat_logic] stores the message in the thread before it
    reads the recent history, and [chat_with_tools] appends the message
    to the history it is given: with a maximum of at least one message
    per thread, the list of messages of the first call of the model
    ends with the same user message two times, and the model is never
    asked about a list of messages that does not hold the message two
    times in a row -- the outcome of the request is the same for any two
    models that agree on the lists that do. *)
Theorem user_message_is_sent_twice (msg thread_id : pystr) (is_c1_action : bool)
    (t : readings) (a : app) :
  (0 < max_history_per_thread (store_of a))%Z ->
  (exists older,
     first_messages msg (handed_history msg thread_id is_c1_action t (store_of a))
     = older ++ [user_entry msg; user_entry msg])
  /\ forall (tool_arguments : Type) (json_loads : pystr -> option tool_arguments)
       (json_dumps : tool_arguments -> pystr)
       (create create' : list message -> bool -> result completion)
       (_call_tool : pystr -> tool_arguments -> result pystr) (has_tools : bool)
       (exn_text : exn -> pystr) (uuid_text : nat -> pystr)
       (enhanced_mcp_client : option bool),
       (forall l b,
          (exists older rest, l = older ++ [user_entry msg; user_entry msg] ++ rest) ->
          create l b = create' l b) ->
       _process_chat_logic tool_arguments json_loads json_dumps create _call_tool has_tools
         exn_text uuid_text msg thread_id is_c1_action enhanced_mcp_client t a
       = _process_chat_logic tool_arguments json_loads json_dumps create' _call_tool
           has_tools exn_text uuid_text msg thread_id is_c1_action enhanced_mcp_client t a.
Proof.
  intros Hmax.
  assert (Hh : handed_history msg thread_id is_c1_action t (store_of a)
               = trimmed (max_history_per_thread (store_of a))
                   (thread_history (store_of a) thread_id ++ [user_entry msg])).
  { unfold handed_history. now rewrite stored_user_message, recent_after_store by lia. }
  assert (Hd : exists older,
            first_messages msg (handed_history msg thread_id is_c1_action t (store_of a))
            = older ++ [user_entry msg; user_entry msg]).
  { rewrite Hh. unfold first_messages. rewrite trimmed_drop by lia.
    set (l := thread_history (store_of a) thread_id).
    exists (drop (length (l ++ [user_entry msg])
                  - Z.to_nat (max_history_per_thread (store_of a))) l).
    rewrite drop_app_le by (rewrite length_app; cbn; lia).
    rewrite <- app_assoc. reflexivity. }
  split; [exact Hd|].
  intros tool_arguments json_loads json_dumps create create' _call_tool has_tools
    exn_text uuid_text enhanced_mcp_client Hagree.
  destruct Hd as [older Hd].
  unfold _process_chat_logic. destruct enhanced_mcp_client as [client_ready|]; [|reflexivity].
  rewrite stored_user_message.
  destruct (awaited _ _ _) as [[u|e] a2] eqn:Ha; [|reflexivity].
  assert (Hs : store_of a2
               = store thread_id (user_entry msg) (at_user_0 t) (at_user_1 t) (store_of a)).
  { revert Ha. unfold awaited.
    destruct (enqueue_llm_message _ _) as [[v|e|] b]; intros [= _ <-]; reflexivity. }
  rewrite Hs, recent_after_store by lia.
  assert (Hc : chat_with_tools tool_arguments json_loads json_dumps create _call_tool
                 has_tools exn_text client_ready msg
                 (trimmed (max_history_per_thread (store_of a))
                    (thread_history (store_of a) thread_id ++ [user_entry msg]))
               = chat_with_tools tool_arguments json_loads json_dumps create' _call_tool
                   has_tools exn_text client_ready msg
                   (trimmed (max_history_per_thread (store_of a))
                      (thread_history (store_of a) thread_id ++ [user_entry msg]))).
  { unfold chat_with_tools. destruct (negb client_ready); [reflexivity|].
    rewrite (answer_ext tool_arguments json_loads json_dumps create create'); [reflexivity|].
    intros l b [rest ->]. apply Hagree. exists older, rest.
    rewrite <- Hh, Hd. now rewrite <- app_assoc. }
  now rewrite Hc.
Qed.

Lemma user_message_is_sent_twice_witness :
  exists older,
    first_messages (cp "hi") (handed_history (cp "hi") (cp "t1") false noon (store_of fresh))
    = older ++ [user_entry (cp "hi"); user_entry (cp "hi")].
Proof.
  apply (proj1 (user_message_is_sent_twice (cp "hi") (cp "t1") false noon fresh
                  ltac:(cbn; lia))).
Defined.

(** X30: what the text route hands to the worker.  When the model answers
    and both channels have room, [_process_chat_logic] returns having
    stored the message of the user and then the answer in the thread
    (trimmed to the maximum each time), put the message of the user on
    the channel to the frontend under a new identifier, and put on the
    channel of raw turns one turn that carries the answer, the whole
    thread as it is then, and metadata naming the source [text_chat],
    the thread and a second new identifier as message id. *)
Theorem text_turn_is_handed_to_the_worker (tool_arguments : Type)
    (json_loads : pystr -> option tool_arguments) (json_dumps : tool_arguments -> pystr)
    (create : list message -> bool -> result completion)
    (_call_tool : pystr -> tool_arguments -> result pystr) (has_tools : bool)
    (exn_text : exn -> pystr) (uuid_text : nat -> pystr)
    (msg thread_id : pystr) (is_c1_action client_ready : bool) (t : readings) (a : app)
    (ql : queue Queues.message) (qr : queue RawLLMOutput) (response : pystr) :
  (0 <= max_history_per_thread (store_of a))%Z ->
  llm_message_queue (channels a) = Some ql -> full ql = false ->
  raw_llm_output_queue (channels a) = Some qr -> full qr = false ->
  chat_with_tools tool_arguments json_loads json_dumps create _call_tool has_tools exn_text
    client_ready msg (handed_history msg thread_id is_c1_action t (store_of a))
  = Returned (Some response) ->
  let max := max_history_per_thread (store_of a) in
  let thread :=
    trimmed max (trimmed max (thread_history (store_of a) thread_id ++ [user_entry msg])
                 ++ [assistant_entry response]) in
  exists a',
    _process_chat_logic tool_arguments json_loads json_dumps create _call_tool has_tools
      exn_text uuid_text msg thread_id is_c1_action (Some client_ready) t a
    = (Returned tt, a')
    /\ thread_history (store_of a') thread_id = thread
    /\ (exists ql', llm_message_queue (channels a') = Some ql'
          /\ items ql' = items ql ++ [UserTranscription (Uuid4 (drawn a)) msg])
    /\ (exists qr', raw_llm_output_queue (channels a') = Some qr'
          /\ items qr'
             = items qr
               ++ [{| assistant_response := Some response;
                      history := List.map entry_of thread;
                      meta := Some {| source := Some (cp "text_chat");
                                      Queues.thread_id := Some thread_id;
                                      message_id := Some (uuid_text (S (drawn a))) |} |}])
    /\ drawn a' = drawn a + 2.
Proof.
  intros Hmax Hql Hfl Hqr Hfr Hchat max thread.
  unfold _process_chat_logic. rewrite stored_user_message.
  set (m1 := store thread_id (user_entry msg) (at_user_0 t) (at_user_1 t) (store_of a)).
  destruct (store_history thread_id (user_entry msg) (at_user_0 t) (at_user_1 t) (store_of a))
    as [Hs1 Hm1]. fold m1 in Hs1, Hm1.
  unfold with_store at 1 2. cbn [channels drawn store_of].
  unfold enqueue_llm_message at 1. rewrite Hql. unfold put at 1. rewrite Hfl.
  cbn [awaited store_of channels drawn with_store].
  unfold handed_history in Hchat. rewrite stored_user_message in Hchat. fold m1 in Hchat.
  unfold m1 at 1. rewrite recent_after_store by assumption. fold m1.
  unfold m1 in Hchat at 1. rewrite recent_after_store in Hchat by assumption.
  cbn [fst] in Hchat. cbn [store_of with_store]. rewrite Hchat.
  change (add_assistant_message thread_id response None (at_assistant_0 t)
            (at_assistant_1 t) m1)
    with (store thread_id (assistant_entry response) (at_assistant_0 t)
            (at_assistant_1 t) m1).
  rewrite recent_after_store by (rewrite Hm1; assumption).
  cbn [channels drawn store_of with_store].
  unfold enqueue_raw_llm_output. cbn [raw_llm_output_queue set_llm]. rewrite Hqr.
  unfold put. rewrite Hfr. cbn [awaited store_of channels drawn].
  assert (Ht : thread_history m1 thread_id
               = trimmed max (thread_history (store_of a) thread_id ++ [user_entry msg])).
  { unfold thread_history at 1. now rewrite Hs1. }
  eexists. split; [reflexivity|]. cbn [store_of channels drawn with_store].
  split; [|split; [|split]].
  - destruct (store_history thread_id (assistant_entry response) (at_assistant_0 t)
                (at_assistant_1 t) m1) as [Hs3 _].
    unfold thread_history at 1. rewrite Hs3. cbn [default]. unfold Datatypes.id.
    now rewrite Hm1, Ht.
  - eexists. split; reflexivity.
  - eexists. split; [reflexivity|]. cbn [items]. rewrite Hm1, Ht.
    now replace (drawn a + 1) with (S (drawn a)) by lia.
  - lia.
Qed.

Lemma text_turn_is_handed_to_the_worker_witness :
  exists a',
    _process_chat_logic unit (fun _ => Some tt) (fun _ => cp "{}") echo
      (fun _ _ => Returned []) false (fun _ => []) (fun _ => cp "id")
      (cp "hi") (cp "t1") false (Some true) noon fresh
    = (Returned tt, a')
    /\ thread_history (store_of a') (cp "t1")
       = [user_entry (cp "hi"); assistant_entry (cp "Hello!")].
Proof.
  destruct (text_turn_is_handed_to_the_worker unit (fun _ => Some tt) (fun _ => cp "{}") echo
              (fun _ _ => Returned []) false (fun _ => []) (fun _ => cp "id")
              (cp "hi") (cp "t1") false true noon fresh (new_queue 100) (new_queue 100)
              (cp "Hello!")) as (a' & H1 & H2 & _); try reflexivity.
  - cbn. lia.
  - exists a'. split; [exact H1|exact H2].
Defined.

End ChatFacts.
